(** * Embedded map-file analyzer: parser, aggregation, comparison, diff, cache

    A shallow embedding of the JavaScript core of the analyzer:

    - [parseMapFile] and [aggregateSections]   (backend/parser/parseMapFile.js)
    - [Frontend.aggregateSections]             (frontend/src/utils/sectionUtils.ts)
    - [compareAnalyses], [computeFileGroups],
      [detectAnomalies]                        (backend/utils/compareAnalysis.js)
    - [computeMemoryDiff], [determineRegion],
      [determineSeverity]                      (backend/utils/memoryDiff.js)
    - [storeComparison], [getComparison],
      [cleanupExpired]                         (backend/utils/compareStorage.js)

    Conventions of the embedding.

    - JavaScript numbers that hold byte counts, addresses and time stamps are
      doubles with integer values; they are modelled by [Z].  Where the source
      reads a number from digits ([parseInt]) or accumulates a sum ([reduce],
      [+=]) the result is rounded to the nearest double ([Js.fl], [Js.add]),
      as JavaScript does from 2^53 on; the difference of two sizes and the
      comparisons are written with the operations of [Z].
    - Percentages are computed by the source in binary floating point
      ([(delta / size) * 100], [toFixed(2)]).  Every finite double is a
      rational, so percentages are values of [Qc]; the two floating-point
      operations themselves are the fields of the class [FloatOps] and nothing
      is assumed about them beyond what a theorem states.
    - Strings are sequences of 8-bit code units.
    - The parser's regular expression is kept as a term of [Regex.re] and
      run by a backtracking matcher, [Regex.run].
    - A JavaScript [Map] whose iteration order is observable is an
      association list in insertion order ([OMap]); the cache, of which only
      lookups are observable, is a [gmap].
    - [Array.prototype.sort] is stable; for a comparator that is a total
      preorder the stable result is unique, and [Js.sort] computes it by
      insertion. *)

From stdpp Require Import base tactics option list sorting strings gmap.
From Stdlib Require Import Ascii ZArith Lia QArith Qcanon Qcabs.

Close Scope Qc_scope.
Close Scope Q_scope.
Local Open Scope Z_scope.
Local Set Warnings "-clear-no-such-hyp".

(** ** JavaScript library functions *)

Module Js.

(** [s.split(sep)] for a one-character separator. *)
Fixpoint split (sep : ascii) (s : string) : list string :=
  match s with
  | EmptyString => [EmptyString]
  | String c r =>
      if decide (c = sep) then EmptyString :: split sep r
      else match split sep r with
           | [] => [String c EmptyString]
           | h :: t => String c h :: t
           end
  end.

(** [parts.join(sep)]. *)
Fixpoint join (sep : string) (parts : list string) : string :=
  match parts with
  | [] => EmptyString
  | p :: rest =>
      match rest with
      | [] => p
      | _ :: _ => p +:+ sep +:+ join sep rest
      end
  end.

(** [s.startsWith(p)]. *)
Fixpoint startsWith (p s : string) : bool :=
  match p, s with
  | EmptyString, _ => true
  | String a p', String b s' => if decide (a = b) then startsWith p' s' else false
  | String _ _, EmptyString => false
  end.

(** [s.includes(c)] for a one-character needle. *)
Fixpoint includes (c : ascii) (s : string) : bool :=
  match s with
  | EmptyString => false
  | String a r => if decide (a = c) then true else includes c r
  end.

(** [arr.slice(0, n)]: a negative [n] counts from the end. *)
Definition slice0 {A} (n : Z) (l : list A) : list A :=
  if decide (0 ≤ n) then take (Z.to_nat n) l
  else take (Z.to_nat (Z.max (Z.of_nat (length l) + n) 0)) l.

(** [arr.pop()] on the array returned by [split], which is never empty. *)
Definition pop (parts : list string) : string := List.last parts EmptyString.

(** [x || d] on a string option: [null], [undefined] and [''] are falsy. *)
Definition or_str (x : option string) (d : string) : string :=
  match x with
  | Some s => if decide (s = EmptyString) then d else s
  | None => d
  end.

(** [x || null] on a string option. *)
Definition or_null (x : option string) : option string :=
  match x with
  | Some s => if decide (s = EmptyString) then None else Some s
  | None => None
  end.

(** [arr.sort(cmp)]: [x] goes before the first [y] with [cmp x y <= 0]. *)
Fixpoint insert {A} (cmp : A → A → Z) (x : A) (l : list A) : list A :=
  match l with
  | [] => [x]
  | y :: l' => if decide (cmp x y ≤ 0) then x :: l else y :: insert cmp x l'
  end.

Definition sort {A} (cmp : A → A → Z) (l : list A) : list A :=
  foldr (insert cmp) [] l.

(** The double nearest to the integer [z], ties going to the even
    significand: integers below 2^53 in magnitude are doubles themselves;
    beyond, the bits under the 53 leading ones are rounded away.  From 2^1024
    on JavaScript has [Infinity], which the model has not: what is stated of a
    number read from digits is stated for numbers below that. *)
Definition fl (z : Z) : Z :=
  let a := Z.abs z in
  if decide (a < 2 ^ 53) then z
  else
    let e := Z.log2 a - 52 in
    let q := a / 2 ^ e in
    let r := a mod 2 ^ e in
    let up :=
      bool_decide (2 ^ (e - 1) < r) || (bool_decide (r = 2 ^ (e - 1)) && Z.odd q) in
    Z.sgn z * ((if up then q + 1 else q) * 2 ^ e).

(** [x + y] on numbers with integer values: the exact sum, rounded to the
    nearest double.  A zero operand leaves the other one as it is, as it does
    for every double. *)
Definition add (x y : Z) : Z :=
  if decide (x = 0) then y
  else if decide (y = 0) then x
  else fl (x + y).

(** [arr.reduce((sum, s) => sum + f(s), 0)]. *)
Definition sum {A} (f : A → Z) (l : list A) : Z :=
  foldl (λ acc s, add acc (f s)) 0 l.

(** A number that may be [NaN]. *)
Inductive num := Int (z : Z) | NaN.

(** [a - b]: the difference, rounded to the nearest double. *)
Definition num_sub (a b : num) : num :=
  match a, b with
  | Int x, Int y => Int (fl (x - y))
  | _, _ => NaN
  end.

Definition num_abs (a : num) : num :=
  match a with
  | Int x => Int (Z.abs x)
  | NaN => NaN
  end.

(** [Math.abs(a) > t]: comparisons with [NaN] are false. *)
Definition abs_gt (a : num) (t : Z) : bool :=
  match a with
  | Int x => bool_decide (t < Z.abs x)
  | NaN => false
  end.

(** White space, as [\s] and [trim] see it among 8-bit code units: tab,
    line feed, vertical tab, form feed, carriage return, space and the
    no-break space. *)
Definition is_space (c : ascii) : bool :=
  let n := nat_of_ascii c in
  bool_decide (n = 9 ∨ n = 10 ∨ n = 11 ∨ n = 12 ∨ n = 13 ∨ n = 32 ∨ n = 160)%nat.

Definition hex_digit (c : ascii) : option Z :=
  let n := Z.of_nat (nat_of_ascii c) in
  if decide (48 ≤ n ≤ 57) then Some (n - 48)
  else if decide (97 ≤ n ≤ 102) then Some (n - 87)
  else if decide (65 ≤ n ≤ 70) then Some (n - 55)
  else None.

Fixpoint skip_spaces (s : string) : string :=
  match s with
  | String c r => if is_space c then skip_spaces r else s
  | EmptyString => s
  end.

(** The longest run of hexadecimal digits at the start of [s], read with
    [acc] as the value of the digits before it; [None] when there is no
    digit. *)
Fixpoint hex_run (acc : option Z) (s : string) : option Z :=
  match s with
  | String c r =>
      match hex_digit c with
      | Some d => hex_run (Some (default 0 acc * 16 + d)) r
      | None => acc
      end
  | EmptyString => acc
  end.

(** [parseInt(s, 16)]: leading white space, a sign, a [0x] or [0X] prefix,
    then the longest run of digits, whose value is rounded to the nearest
    double; [NaN] when the run is empty. *)
Definition parseInt16 (s : string) : num :=
  let s := skip_spaces s in
  let '(sign, s) :=
    match s with
    | String "-" r => (-1, r)
    | String "+" r => (1, r)
    | _ => (1, s)
    end in
  let s :=
    match s with
    | String "0" (String "x" r) => r
    | String "0" (String "X" r) => r
    | _ => s
    end in
  match hex_run None s with
  | Some v => Int (fl (sign * v))
  | None => NaN
  end.

(** The longest prefix of [s] whose characters satisfy [p], and the rest. *)
Fixpoint span (p : ascii → bool) (s : string) : string * string :=
  match s with
  | String c r =>
      if p c then let '(run, rest) := span p r in (String c run, rest)
      else (EmptyString, s)
  | EmptyString => (EmptyString, EmptyString)
  end.

Fixpoint trimEnd (s : string) : string :=
  match s with
  | String c r =>
      let r' := trimEnd r in
      if is_space c && bool_decide (r' = EmptyString) then EmptyString
      else String c r'
  | EmptyString => EmptyString
  end.

(** [s.trim()]. *)
Definition trim (s : string) : string := trimEnd (skip_spaces s).

(** [new Set(arr)]: the distinct elements in order of first insertion. *)
Definition set_add (acc : list string) (x : string) : list string :=
  if decide (x ∈ acc) then acc else acc ++ [x].

Definition to_set (l : list string) : list string := foldl set_add [] l.

End Js.

(** ** Regular expressions *)

(** The part of JavaScript's regular expressions the parser uses, matched
    the way the engine does it: by backtracking, every quantifier greedy. *)
Module Regex.

Inductive re :=
| Eps                          (* the empty pattern *)
| Chr (p : ascii → bool)       (* one character of a class *)
| Seq (r1 r2 : re)             (* r1 r2 *)
| Star (r : re)                (* r* *)
| Opt (r : re)                 (* r? and (?:r)? *)
| Cap (n : nat) (r : re).      (* capture group n *)

(** [r+]. *)
Definition Plus (r : re) : re := Seq r (Star r).

(** A literal character. *)
Definition Lit (c : ascii) : re := Chr (λ x, bool_decide (x = c)).

Definition seq (rs : list re) : re := foldr Seq Eps rs.

(** The part of [s] in front of its suffix [rest]. *)
Definition consumed (s rest : string) : string :=
  String.substring 0 (String.length s - String.length rest) s.

(** [run r s caps k]: match [r] at the start of [s], with the captures
    [caps] made so far, and hand the rest of [s] to the continuation [k];
    when [k] fails, the next alternative is tried, the longer one first. An
    iteration of [r*] that consumes nothing is not taken. *)
Fixpoint run (r : re) (s : string) (caps : list (option string))
    (k : string → list (option string) → option (list (option string)))
  : option (list (option string)) :=
  match r with
  | Eps => k s caps
  | Chr p =>
      match s with
      | String c s' => if p c then k s' caps else None
      | EmptyString => None
      end
  | Seq r1 r2 => run r1 s caps (λ s' caps', run r2 s' caps' k)
  | Star r' =>
      (fix loop (fuel : nat) (s : string) (caps : list (option string)) :=
         match fuel with
         | O => k s caps
         | S fuel' =>
             match run r' s caps
                     (λ s' caps',
                        if decide (String.length s' < String.length s)%nat
                        then loop fuel' s' caps' else None) with
             | Some found => Some found
             | None => k s caps
             end
         end) (String.length s) s caps
  | Opt r' =>
      match run r' s caps k with
      | Some found => Some found
      | None => k s caps
      end
  | Cap n r' => run r' s caps (λ s' caps', k s' (<[n := Some (consumed s s')]> caps'))
  end.

(** [s.match(/^r/)] for a pattern with groups [1] to [groups - 1]: the array
    of captures, [None] for a group that took no part in the match. Entry
    [0], the whole match, is not recorded. *)
Definition exec (r : re) (groups : nat) (s : string) : option (list (option string)) :=
  run r s (replicate groups None) (λ _ caps, Some caps).

(** [m[i]] where the group is known to have matched. *)
Definition group (m : list (option string)) (i : nat) : string :=
  default "" (mjoin (m !! i)).

End Regex.

(** ** Insertion-ordered maps with string keys *)

Module OMap.

Fixpoint get {V} (k : string) (m : list (string * V)) : option V :=
  match m with
  | [] => None
  | (k', v) :: m' => if decide (k = k') then Some v else get k m'
  end.

Definition has {V} (k : string) (m : list (string * V)) : bool :=
  bool_decide (is_Some (get k m)).

(** [m.set(k, v)]: an existing key keeps its position. *)
Fixpoint set {V} (k : string) (v : V) (m : list (string * V)) : list (string * V) :=
  match m with
  | [] => [(k, v)]
  | (k', v') :: m' =>
      if decide (k = k') then (k, v) :: m' else (k', v') :: set k v m'
  end.

Definition keys {V} (m : list (string * V)) : list string := m.*1.
Definition values {V} (m : list (string * V)) : list V := m.*2.

(** [new Map(pairs)]. *)
Definition of_list {V} (pairs : list (string * V)) : list (string * V) :=
  foldl (λ m kv, set kv.1 kv.2 m) [] pairs.

End OMap.

(** ** Data model *)

(** A section object: [{name, address, size, filePath}], with the optional
    [subsections] count that the aggregated view adds. *)
Record Sect := mkSect {
  sec_name : string;
  sec_address : option string;
  sec_size : Z;
  sec_filePath : option string;
  sec_subsections : option Z;
}.

(** A parsed map file. The [memory] table of the result plays no part in
    aggregation, comparison or diff and is left out. *)
Record Analysis := mkAnalysis { an_sections : list Sect }.

(** [x || d] on an optional number: [undefined] and [0] are falsy. *)
Definition or_num (x : option Z) (d : Z) : Z :=
  match x with
  | Some z => if decide (z = 0) then d else z
  | None => d
  end.

(** ** MapFileParser (parseMapFile.js) *)

Module Parser.

(** The character class [[a-zA-Z0-9_\.]]. *)
Definition isNameChar (c : ascii) : bool :=
  let n := nat_of_ascii c in
  bool_decide ((97 ≤ n ≤ 122) ∨ (65 ≤ n ≤ 90) ∨ (48 ≤ n ≤ 57) ∨ n = 95 ∨ n = 46)%nat.

(** The character class [[0-9a-fA-F]]. *)
Definition isHexChar (c : ascii) : bool := bool_decide (is_Some (Js.hex_digit c)).

(** What [.] matches: anything but a line terminator. *)
Definition isDotChar (c : ascii) : bool :=
  let n := nat_of_ascii c in negb (bool_decide (n = 10 ∨ n = 13)%nat).

(** The section-line pattern
    [/^\s*(\.[a-zA-Z0-9_\.]+)\s+0x([0-9a-fA-F]+)\s+0x([0-9a-fA-F]+)(?:\s+(.+))?/]. *)
Definition sectionLine : Regex.re :=
  Regex.seq
    [ Regex.Star (Regex.Chr Js.is_space);
      Regex.Cap 1 (Regex.seq [Regex.Lit "."; Regex.Plus (Regex.Chr isNameChar)]);
      Regex.Plus (Regex.Chr Js.is_space);
      Regex.Lit "0"; Regex.Lit "x";
      Regex.Cap 2 (Regex.Plus (Regex.Chr isHexChar));
      Regex.Plus (Regex.Chr Js.is_space);
      Regex.Lit "0"; Regex.Lit "x";
      Regex.Cap 3 (Regex.Plus (Regex.Chr isHexChar));
      Regex.Opt (Regex.seq [Regex.Plus (Regex.Chr Js.is_space);
                            Regex.Cap 4 (Regex.Plus (Regex.Chr isDotChar))]) ].

(** The body of the loop over the lines: the section pushed for [line], if
    any. *)
Definition parseLine (line : string) : option Sect :=
  match Regex.exec sectionLine 5 line with
  | Some sectionMatch =>
      let name := Regex.group sectionMatch 1 in
      let address := "0x" +:+ Regex.group sectionMatch 2 in
      let sizeHex := Regex.group sectionMatch 3 in
      match Js.parseInt16 sizeHex with
      | Js.Int size =>
          let filePath := from_option Js.trim "" (mjoin (sectionMatch !! 4%nat)) in
          let filePath :=
            if negb (bool_decide (filePath = "")) && Js.includes "/" filePath
            then Js.pop (Js.split "/" filePath) else filePath in
          let filePath :=
            if negb (bool_decide (filePath = "")) && Js.includes "\" filePath
            then Js.pop (Js.split "\" filePath) else filePath in
          if decide (0 < size) then
            Some {| sec_name := name;
                    sec_address := Some address;
                    sec_size := size;
                    sec_filePath := Js.or_null (Some filePath);
                    sec_subsections := None |}
          else None
      | Js.NaN => None
      end
  | None => None
  end.

(** The sections in the order the scan of the lines finds them. *)
Definition scanSections (content : string) : list Sect :=
  omap parseLine (Js.split "010" content).

End Parser.

Definition bySizeDesc (a b : Sect) : Z := sec_size b - sec_size a.

(** [parseMapFile], from the text read from the file to the [sections] of
    the result. *)
Definition parseMapFile (content : string) : Analysis :=
  mkAnalysis (Js.sort bySizeDesc (Parser.scanSections content)).

(** ** SectionAggregator (backend) *)

(** [section.name.split('.').slice(0, 2).join('.')]. *)
Definition parentName (name : string) : string :=
  Js.join "." (Js.slice0 2 (Js.split "." name)).

(** The body of the [forEach] callback: one section added to the map. *)
Definition aggregateStep (aggregated : list (string * Sect)) (section : Sect)
  : list (string * Sect) :=
  let parent := parentName (sec_name section) in
  match OMap.get parent aggregated with
  | Some existing =>
      OMap.set parent
        {| sec_name := sec_name existing;
           sec_address := sec_address existing;
           sec_size := Js.add (sec_size existing) (sec_size section);
           sec_filePath := sec_filePath existing;
           sec_subsections := Some (or_num (sec_subsections existing) 0 + 1) |}
        aggregated
  | None =>
      OMap.set parent
        {| sec_name := parent;
           sec_address := None;
           sec_size := sec_size section;
           sec_filePath := None;
           sec_subsections := Some 1 |}
        aggregated
  end.

Definition aggregateSections (sections : list Sect) : list Sect :=
  Js.sort bySizeDesc (OMap.values (foldl aggregateStep [] sections)).

(** ** SectionAggregator (frontend, sectionUtils.ts) *)

Module Frontend.

Definition parentName (name : string) : string :=
  let parts := Js.split "." name in
  if decide (2 < Z.of_nat (length parts)) then Js.join "." (Js.slice0 2 parts)
  else name.

Definition aggregateStep (aggregated : list (string * Sect)) (section : Sect)
  : list (string * Sect) :=
  let parts := Js.split "." (sec_name section) in
  let parent := parentName (sec_name section) in
  match OMap.get parent aggregated with
  | Some existing =>
      OMap.set parent
        {| sec_name := sec_name existing;
           sec_address := sec_address existing;
           sec_size := Js.add (sec_size existing) (sec_size section);
           sec_filePath := sec_filePath existing;
           sec_subsections := Some (or_num (sec_subsections existing) 1 + 1) |}
        aggregated
  | None =>
      OMap.set parent
        {| sec_name := parent;
           sec_address := None;
           sec_size := sec_size section;
           sec_filePath :=
             if decide (2 < Z.of_nat (length parts)) then None
             else sec_filePath section;
           sec_subsections :=
             if decide (2 < Z.of_nat (length parts)) then Some 1 else None |}
        aggregated
  end.

Definition aggregateSections (sections : list Sect) : list Sect :=
  Js.sort bySizeDesc (OMap.values (foldl aggregateStep [] sections)).

End Frontend.

(** ** Floating point *)

(** The two operations the comparers carry out in binary floating point.
    [ratio100 a b] is the double [(a / b) * 100]; [toFixed2 x] is
    [parseFloat(x.toFixed(2))]. *)
Class FloatOps := {
  ratio100 : Z → Z → Qc;
  toFixed2 : Qc → Qc;
}.

(** What the statements need of [toFixed(2)]: it leaves [0] and [100] as
    they are. *)
Class FloatLaws `{FloatOps} : Prop := {
  toFixed2_0 : toFixed2 0%Qc = 0%Qc;
  toFixed2_100 : toFixed2 (Q2Qc 100) = Q2Qc 100;
}.

(** An instance to run the model with: exact rational arithmetic, rounded
    half away from zero to two decimals. *)
Definition exact_ratio100 (a b : Z) : Qc := Q2Qc (Qmake (a * 100) 1 / inject_Z b).

Definition round_half_away (q : Q) : Z :=
  let n := Qnum q in
  let d := Zpos (Qden q) in
  Z.sgn n * ((2 * Z.abs n + d) / (2 * d)).

Definition exact_toFixed2 (x : Qc) : Qc :=
  Q2Qc (Qmake (round_half_away (Qmult (this x) (inject_Z 100))) 100).

Definition exactFloat : FloatOps :=
  {| ratio100 := exact_ratio100; toFixed2 := exact_toFixed2 |}.

(** ** SummaryComparer (compareAnalysis.js) *)

Module Compare.

Inductive Status := added | removed | modified.

Inductive Severity := high | medium | low.

(** The [type] of an anomaly: ['section'], ['file'] or ['pattern']. *)
Inductive AnomalyType := of_section | of_file | of_pattern.

(** The reason strings, by template and the numbers put into them. *)
Inductive Reason :=
| PctExceeds (pct : Qc)               (* `${..}% change exceeds threshold` *)
| BytesExceeds (bytes : Z)            (* `${..} bytes change exceeds threshold` *)
| NewSection (bytes : Z)              (* `New section with ${..} bytes` *)
| RemovedSection (bytes : Z)          (* `Removed section had ${..} bytes` *)
| SmallIncreases (count : Z)          (* `${..} small increases detected ...` *)
| FileChange (bytes : Z)              (* `Total file change of ${..} bytes` *)
| BssGrowth (bytes : Z).              (* `Significant .bss growth of ${..} bytes ...` *)

Record Options := mkOptions {
  topN : option Z;
  anomalyThresholdPct : option Qc;
  anomalyThresholdBytes : option Z;
  includeUnchanged : option bool;
}.

Record SectionDiff := mkSectionDiff {
  sd_name : string;
  sd_file : option string;
  sd_addressA : option string;
  sd_addressB : option string;
  sd_sizeA : Z;
  sd_sizeB : Z;
  sd_delta : Z;
  sd_deltaPct : Qc;
  sd_status : Status;
}.

Record FileGroup := mkFileGroup {
  fg_file : string;
  fg_sizeA : Z;
  fg_sizeB : Z;
  fg_delta : Z;
  fg_deltaPct : Qc;
  fg_sectionCount : Z;
  fg_sections : list string;
}.

Record Anomaly := mkAnomaly {
  an_type : AnomalyType;
  an_name : string;
  an_file : option string;
  an_severity : Severity;
  an_reasons : list Reason;
  an_delta : Z;
  an_deltaPct : option Qc;
  an_affectedSections : option Z;
}.

Record Summary := mkSummary {
  totalFlashA : Z;
  totalFlashB : Z;
  totalRamA : Z;
  totalRamB : Z;
  flashDelta : Z;
  flashDeltaPct : Qc;
  ramDelta : Z;
  ramDeltaPct : Qc;
  totalSectionsA : Z;
  totalSectionsB : Z;
  sectionsAdded : Z;
  sectionsRemoved : Z;
  sectionsModified : Z;
}.

(** The result object; [metadata.comparedAt], a clock reading, is left out. *)
Record CompareResult := mkCompareResult {
  summary : Summary;
  sections : list SectionDiff;
  fileGroups : list FileGroup;
  topIncreases : list SectionDiff;
  topDecreases : list SectionDiff;
  anomalies : list Anomaly;
  optionsUsed : Options;
}.

Global Instance Status_eq_dec : EqDecision Status.
Proof. solve_decision. Defined.

(** [a || b] on two optional strings, then [|| null]. *)
Definition first_truthy (a b : option string) : option string :=
  match Js.or_null a with
  | Some s => Some s
  | None => Js.or_null b
  end.

(** [new Map(analysis.sections.map(s => [s.name, s]))]. *)
Definition sectionMap (analysis : Analysis) : list (string * Sect) :=
  OMap.of_list ((λ s, (sec_name s, s)) <$> an_sections analysis).

(** [new Set([...sectionsA.keys(), ...sectionsB.keys()])]. *)
Definition allSectionNames (sectionsA sectionsB : list (string * Sect)) : list string :=
  Js.to_set (OMap.keys sectionsA ++ OMap.keys sectionsB).

Section WithFloat.
Context `{FloatOps}.

(** The body of the loop over the names: the diff pushed for [name], or
    [None] when the loop continues without pushing. *)
Definition sectionDiffOf (includeUnchanged : bool)
    (sectionsA sectionsB : list (string * Sect)) (name : string)
  : option SectionDiff :=
  let secA := OMap.get name sectionsA in
  let secB := OMap.get name sectionsB in
  let sizeA := from_option sec_size 0 secA in
  let sizeB := from_option sec_size 0 secB in
  let delta := sizeB - sizeA in
  let deltaPct :=
    if decide (0 < sizeA) then ratio100 delta sizeA
    else if decide (0 < sizeB) then Q2Qc 100 else 0%Qc in
  if negb includeUnchanged && bool_decide (delta = 0) then None
  else Some {|
    sd_name := name;
    sd_file := first_truthy (secB ≫= sec_filePath) (secA ≫= sec_filePath);
    sd_addressA := Js.or_null (secA ≫= sec_address);
    sd_addressB := Js.or_null (secB ≫= sec_address);
    sd_sizeA := sizeA;
    sd_sizeB := sizeB;
    sd_delta := delta;
    sd_deltaPct := toFixed2 deltaPct;
    sd_status :=
      if decide (sizeA = 0) then added
      else if decide (sizeB = 0) then removed else modified;
  |}.

Definition sectionDiffsOf (includeUnchanged : bool) (analysisA analysisB : Analysis)
  : list SectionDiff :=
  let sectionsA := sectionMap analysisA in
  let sectionsB := sectionMap analysisB in
  omap (sectionDiffOf includeUnchanged sectionsA sectionsB)
    (allSectionNames sectionsA sectionsB).

(** One section added to the map of file groups. *)
Definition fileGroupStep (fileMap : list (string * FileGroup)) (section : SectionDiff)
  : list (string * FileGroup) :=
  let fileName := Js.or_str (sd_file section) "unknown" in
  let fileMap :=
    if OMap.has fileName fileMap then fileMap
    else OMap.set fileName (mkFileGroup fileName 0 0 0 0%Qc 0 []) fileMap in
  match OMap.get fileName fileMap with
  | Some group =>
      OMap.set fileName
        {| fg_file := fg_file group;
           fg_sizeA := Js.add (fg_sizeA group) (sd_sizeA section);
           fg_sizeB := Js.add (fg_sizeB group) (sd_sizeB section);
           fg_delta := Js.add (fg_delta group) (sd_delta section);
           fg_deltaPct := fg_deltaPct group;
           fg_sectionCount := fg_sectionCount group + 1;
           fg_sections := fg_sections group ++ [sd_name section] |}
        fileMap
  | None => fileMap
  end.

Definition byAbsDeltaGroup (a b : FileGroup) : Z :=
  Z.abs (fg_delta b) - Z.abs (fg_delta a).

Definition computeFileGroups (sectionDiffs : list SectionDiff) : list FileGroup :=
  let fileMap := foldl fileGroupStep [] sectionDiffs in
  let fileGroups :=
    (λ group,
       {| fg_file := fg_file group;
          fg_sizeA := fg_sizeA group;
          fg_sizeB := fg_sizeB group;
          fg_delta := fg_delta group;
          fg_deltaPct :=
            if decide (0 < fg_sizeA group)
            then toFixed2 (ratio100 (fg_delta group) (fg_sizeA group))
            else if decide (0 < fg_sizeB group) then Q2Qc 100 else 0%Qc;
          fg_sectionCount := fg_sectionCount group;
          fg_sections := fg_sections group |}) <$> OMap.values fileMap in
  Js.sort byAbsDeltaGroup fileGroups.

(** The first loop of [detectAnomalies]: the anomaly of one section. *)
Definition sectionAnomaly (thresholdPct : Qc) (thresholdBytes : Z)
    (section : SectionDiff) : option Anomaly :=
  let reasons :=
    (if decide (thresholdPct < Qcabs (sd_deltaPct section))%Qc
     then [PctExceeds (Qcabs (sd_deltaPct section))] else []) ++
    (if decide (thresholdBytes < Z.abs (sd_delta section))
     then [BytesExceeds (Z.abs (sd_delta section))] else []) ++
    (if decide (sd_status section = added ∧ thresholdBytes * 2 < sd_sizeB section)
     then [NewSection (sd_sizeB section)] else []) ++
    (if decide (sd_status section = removed ∧ thresholdBytes * 2 < sd_sizeA section)
     then [RemovedSection (sd_sizeA section)] else []) in
  if decide (0 < length reasons)%nat then
    Some {|
      an_type := of_section;
      an_name := sd_name section;
      an_file := sd_file section;
      an_severity :=
        if decide (thresholdBytes * 10 < Z.abs (sd_delta section)) then high else medium;
      an_reasons := reasons;
      an_delta := sd_delta section;
      an_deltaPct := Some (sd_deltaPct section);
      an_affectedSections := None;
    |}
  else None.

(** The second loop: the anomaly of one file group. *)
Definition fileAnomaly (sectionDiffs : list SectionDiff) (thresholdBytes : Z)
    (group : FileGroup) : option Anomaly :=
  let smallIncreases :=
    filter (λ s, sd_file s = Some (fg_file group) ∧
                 0 < sd_delta s ∧ sd_delta s < thresholdBytes) sectionDiffs in
  let reasons :=
    (if decide (5 < length smallIncreases)%nat
     then [SmallIncreases (Z.of_nat (length smallIncreases))] else []) ++
    (if decide (thresholdBytes * 5 < Z.abs (fg_delta group))
     then [FileChange (fg_delta group)] else []) in
  if decide (0 < length reasons)%nat then
    Some {|
      an_type := of_file;
      an_name := fg_file group;
      an_file := None;
      an_severity :=
        if decide (thresholdBytes * 20 < Z.abs (fg_delta group)) then high else low;
      an_reasons := reasons;
      an_delta := fg_delta group;
      an_deltaPct := Some (fg_deltaPct group);
      an_affectedSections := Some (fg_sectionCount group);
    |}
  else None.

(** The [.bss] pattern check. *)
Definition bssAnomaly (sectionDiffs : list SectionDiff) (thresholdBytes : Z)
  : list Anomaly :=
  let bssSections := filter (λ s, Js.startsWith ".bss" (sd_name s) = true) sectionDiffs in
  let totalBssDelta := Js.sum sd_delta bssSections in
  if decide (thresholdBytes * 5 < totalBssDelta) then
    [{| an_type := of_pattern;
        an_name := ".bss sections";
        an_file := None;
        an_severity := medium;
        an_reasons := [BssGrowth totalBssDelta];
        an_delta := totalBssDelta;
        an_deltaPct := None;
        an_affectedSections :=
          Some (Z.of_nat (length (filter (λ s, 0 < sd_delta s) bssSections)));
     |}]
  else [].

Definition severityOrder (s : Severity) : Z :=
  match s with high => 3 | medium => 2 | low => 1 end.

Definition bySeverityThenDelta (a b : Anomaly) : Z :=
  let severityDiff := severityOrder (an_severity b) - severityOrder (an_severity a) in
  if decide (severityDiff ≠ 0) then severityDiff
  else Z.abs (an_delta b) - Z.abs (an_delta a).

Definition detectAnomalies (sectionDiffs : list SectionDiff)
    (fileGroups : list FileGroup) (thresholdPct : Qc) (thresholdBytes : Z)
  : list Anomaly :=
  Js.sort bySeverityThenDelta
    (omap (sectionAnomaly thresholdPct thresholdBytes) sectionDiffs ++
     omap (fileAnomaly sectionDiffs thresholdBytes) fileGroups ++
     bssAnomaly sectionDiffs thresholdBytes).

Definition isFlash (s : Sect) : Prop :=
  Js.startsWith ".text" (sec_name s) = true ∨ Js.startsWith ".rodata" (sec_name s) = true.

Definition isRam (s : Sect) : Prop :=
  Js.startsWith ".data" (sec_name s) = true ∨ Js.startsWith ".bss" (sec_name s) = true.

Definition byDeltaDesc (a b : SectionDiff) : Z := sd_delta b - sd_delta a.

Definition byAbsDelta (a b : SectionDiff) : Z :=
  Z.abs (sd_delta b) - Z.abs (sd_delta a).

Definition count_status (st : Status) (sectionDiffs : list SectionDiff) : Z :=
  Z.of_nat (length (filter (λ s, sd_status s = st) sectionDiffs)).

Definition compareAnalyses (analysisA analysisB : Analysis) (options : Options)
  : CompareResult :=
  let topN := default 20 (topN options) in
  let anomalyThresholdPct := default (Q2Qc 20) (anomalyThresholdPct options) in
  let anomalyThresholdBytes := default 1024 (anomalyThresholdBytes options) in
  let includeUnchanged := default false (includeUnchanged options) in
  let sectionDiffs := sectionDiffsOf includeUnchanged analysisA analysisB in
  let fileGroups := computeFileGroups sectionDiffs in
  let totalFlashA := Js.sum sec_size (filter isFlash (an_sections analysisA)) in
  let totalFlashB := Js.sum sec_size (filter isFlash (an_sections analysisB)) in
  let totalRamA := Js.sum sec_size (filter isRam (an_sections analysisA)) in
  let totalRamB := Js.sum sec_size (filter isRam (an_sections analysisB)) in
  let flashDelta := totalFlashB - totalFlashA in
  let ramDelta := totalRamB - totalRamA in
  let summary := {|
    totalFlashA := totalFlashA;
    totalFlashB := totalFlashB;
    totalRamA := totalRamA;
    totalRamB := totalRamB;
    flashDelta := flashDelta;
    flashDeltaPct :=
      if decide (0 < totalFlashA) then toFixed2 (ratio100 flashDelta totalFlashA)
      else 0%Qc;
    ramDelta := ramDelta;
    ramDeltaPct :=
      if decide (0 < totalRamA) then toFixed2 (ratio100 ramDelta totalRamA)
      else 0%Qc;
    totalSectionsA := Z.of_nat (length (an_sections analysisA));
    totalSectionsB := Z.of_nat (length (an_sections analysisB));
    sectionsAdded := count_status added sectionDiffs;
    sectionsRemoved := count_status removed sectionDiffs;
    sectionsModified := count_status modified sectionDiffs;
  |} in
  let sortedByDelta := Js.sort byDeltaDesc sectionDiffs in
  let topIncreases :=
    Js.slice0 topN (filter (λ s, 0 < sd_delta s) sortedByDelta) in
  let topDecreases :=
    Js.slice0 topN (reverse (filter (λ s, sd_delta s < 0) sortedByDelta)) in
  let anomalies :=
    detectAnomalies sectionDiffs fileGroups anomalyThresholdPct anomalyThresholdBytes in
  {| summary := summary;
     sections := Js.sort byAbsDelta sectionDiffs;
     fileGroups := fileGroups;
     topIncreases := topIncreases;
     topDecreases := topDecreases;
     anomalies := anomalies;
     optionsUsed := options |}.

End WithFloat.

End Compare.

(** ** VersionDiffer (memoryDiff.js) *)

Module MemoryDiff.

Inductive Status := added | removed | growth | shrink | same.

Inductive Region := FLASH | RAM | OTHER.

Inductive Severity := critical | high | medium | low.

(** The reason strings, by template and the numbers put into them. *)
Inductive Reason :=
| NewSection (bytes : Z)              (* `New section with ${..}` *)
| RemovedSection (bytes : Z)          (* `Removed section had ${..}` *)
| Grew (pct : Qc) (bytes : Z)         (* `Grew by ${..}% (${..})` *)
| Shrunk (pct : Qc) (bytes : Z)       (* `Shrunk by ${..}% (${..})` *)
| AddressShifted (by_ : Js.num).      (* `Address shifted by ${..}` *)

Record Options := mkOptions {
  anomalyGrowthThreshold : option Qc;
  anomalyShrinkThreshold : option Qc;
  addressShiftThreshold : option Z;
}.

Record DiffEntry := mkDiffEntry {
  de_name : string;
  de_filePath : option string;
  de_sizeV1 : Z;
  de_sizeV2 : Z;
  de_sizeDiff : Z;
  de_sizeDiffPct : Qc;
  de_addressV1 : option string;
  de_addressV2 : option string;
  de_addressDiff : option Js.num;
  de_addressShifted : bool;
  de_status : Status;
  de_region : Region;
}.

(** [{...diffEntry, reasons, severity}]. *)
Record Anomaly := mkAnomaly {
  an_entry : DiffEntry;
  an_reasons : list Reason;
  an_severity : Severity;
}.

Record Summary := mkSummary {
  totalSectionsV1 : Z;
  totalSectionsV2 : Z;
  sectionsAdded : Z;
  sectionsRemoved : Z;
  sectionsGrowth : Z;
  sectionsShrink : Z;
  sectionsUnchanged : Z;
  totalSizeV1 : Z;
  totalSizeV2 : Z;
  totalSizeDiff : Z;
  anomalyCount : Z;
  totalSizeDiffPct : Qc;
}.

(** The result object; [metadata.comparedAt], a clock reading, is left out. *)
Record DiffResult := mkDiffResult {
  summary : Summary;
  diff : list DiffEntry;
  anomalies : list Anomaly;
  options_ : Options;
}.

Global Instance Status_eq_dec : EqDecision Status.
Proof. solve_decision. Defined.

Definition determineRegion (sectionName : string) : Region :=
  if Js.startsWith ".text" sectionName || Js.startsWith ".rodata" sectionName then FLASH
  else if Js.startsWith ".data" sectionName || Js.startsWith ".bss" sectionName then RAM
  else OTHER.

Definition determineSeverity (status : Status) (sizeDiffPct : Qc) (sizeDiffAbs : Z)
  : Severity :=
  if decide (status = added ∨ status = removed) then
    if decide (10240 < sizeDiffAbs) then critical else high
  else if decide (Q2Qc 50 < Qcabs sizeDiffPct)%Qc then critical
  else if decide (Q2Qc 25 < Qcabs sizeDiffPct)%Qc then high
  else if decide (Q2Qc 10 < Qcabs sizeDiffPct)%Qc then medium
  else low.

(** The alignment key [`${s.name}:${s.filePath || ''}`]. *)
Definition keyOf (s : Sect) : string :=
  sec_name s +:+ ":" +:+ Js.or_str (sec_filePath s) "".

(** The map filled by [sections.forEach(s => map.set(key, s))]. *)
Definition keyedMap (analysis : Analysis) : list (string * Sect) :=
  foldl (λ m s, OMap.set (keyOf s) s m) [] (an_sections analysis).

(** [new Set([...sectionsV1.keys(), ...sectionsV2.keys()])]. *)
Definition allKeys (sectionsV1 sectionsV2 : list (string * Sect)) : list string :=
  Js.to_set (OMap.keys sectionsV1 ++ OMap.keys sectionsV2).

Definition severityOrder (s : Severity) : Z :=
  match s with critical => 4 | high => 3 | medium => 2 | low => 1 end.

Definition bySeverity (a b : Anomaly) : Z :=
  severityOrder (an_severity b) - severityOrder (an_severity a).

Definition byAbsSizeDiff (a b : DiffEntry) : Z :=
  Z.abs (de_sizeDiff b) - Z.abs (de_sizeDiff a).

Definition count_status (st : Status) (diffResults : list DiffEntry) : Z :=
  Z.of_nat (length (filter (λ d, de_status d = st) diffResults)).

Section WithFloat.
Context `{FloatOps}.

(** The body of the loop over the keys: the entry pushed for [key] and the
    anomaly pushed with it, if any. *)
Definition diffStep (options : Options) (v1 v2 : option Sect) (key : string)
  : DiffEntry * option Anomaly :=
  let anomalyGrowthThreshold := default (Q2Qc 10) (anomalyGrowthThreshold options) in
  let anomalyShrinkThreshold := default (Q2Qc 10) (anomalyShrinkThreshold options) in
  let addressShiftThreshold := default 4096 (addressShiftThreshold options) in
  let parts := Js.split ":" key in
  let name := default "" (parts !! 0%nat) in
  let filePath := parts !! 1%nat in
  let sizeV1 := from_option sec_size 0 v1 in
  let sizeV2 := from_option sec_size 0 v2 in
  let sizeDiff := sizeV2 - sizeV1 in
  let sizeDiffPct :=
    if decide (0 < sizeV1) then ratio100 sizeDiff sizeV1
    else if decide (0 < sizeV2) then Q2Qc 100 else 0%Qc in
  let status :=
    match v1, v2 with
    | None, Some _ => added
    | Some _, None => removed
    | _, _ =>
        if decide (0 < sizeDiff) then growth
        else if decide (sizeDiff < 0) then shrink else same
    end in
  let addrV1 := Js.or_null (v1 ≫= sec_address) in
  let addrV2 := Js.or_null (v2 ≫= sec_address) in
  let addressDiff :=
    match addrV1, addrV2 with
    | Some a1, Some a2 => Some (Js.num_sub (Js.parseInt16 a2) (Js.parseInt16 a1))
    | _, _ => None
    end in
  let addressShifted :=
    match addressDiff with
    | Some d => Js.abs_gt d addressShiftThreshold
    | None => false
    end in
  let diffEntry := {|
    de_name := name;
    de_filePath := Js.or_null filePath;
    de_sizeV1 := sizeV1;
    de_sizeV2 := sizeV2;
    de_sizeDiff := sizeDiff;
    de_sizeDiffPct := toFixed2 sizeDiffPct;
    de_addressV1 := addrV1;
    de_addressV2 := addrV2;
    de_addressDiff := addressDiff;
    de_addressShifted := addressShifted;
    de_status := status;
    de_region := determineRegion name;
  |} in
  let anomalyReasons :=
    (if decide (status = added ∧ 1024 < sizeV2) then [NewSection sizeV2] else []) ++
    (if decide (status = removed ∧ 1024 < sizeV1) then [RemovedSection sizeV1] else []) ++
    (if decide (status = growth ∧ (anomalyGrowthThreshold < sizeDiffPct)%Qc)
     then [Grew sizeDiffPct sizeDiff] else []) ++
    (if decide (status = shrink ∧ (anomalyShrinkThreshold < Qcabs sizeDiffPct)%Qc)
     then [Shrunk (Qcabs sizeDiffPct) (Z.abs sizeDiff)] else []) ++
    (if addressShifted
     then [AddressShifted (from_option Js.num_abs Js.NaN addressDiff)] else []) in
  (diffEntry,
   if decide (0 < length anomalyReasons)%nat then
     Some {| an_entry := diffEntry;
             an_reasons := anomalyReasons;
             an_severity := determineSeverity status sizeDiffPct (Z.abs sizeDiff) |}
   else None).

(** The loop over all keys: what it pushes, key by key. *)
Definition diffLoop (analysisV1 analysisV2 : Analysis) (options : Options)
  : list (string * (DiffEntry * option Anomaly)) :=
  let sectionsV1 := keyedMap analysisV1 in
  let sectionsV2 := keyedMap analysisV2 in
  (λ key, (key, diffStep options (OMap.get key sectionsV1) (OMap.get key sectionsV2) key))
    <$> allKeys sectionsV1 sectionsV2.

Definition computeMemoryDiff (analysisV1 analysisV2 : Analysis) (options : Options)
  : DiffResult :=
  let pushed := (diffLoop analysisV1 analysisV2 options).*2 in
  let diffResults := pushed.*1 in
  let anomalies := omap snd pushed in
  let totalSizeV1 := Js.sum sec_size (an_sections analysisV1) in
  let totalSizeV2 := Js.sum sec_size (an_sections analysisV2) in
  let totalSizeDiff := totalSizeV2 - totalSizeV1 in
  let summary := {|
    totalSectionsV1 := Z.of_nat (length (an_sections analysisV1));
    totalSectionsV2 := Z.of_nat (length (an_sections analysisV2));
    sectionsAdded := count_status added diffResults;
    sectionsRemoved := count_status removed diffResults;
    sectionsGrowth := count_status growth diffResults;
    sectionsShrink := count_status shrink diffResults;
    sectionsUnchanged := count_status same diffResults;
    totalSizeV1 := totalSizeV1;
    totalSizeV2 := totalSizeV2;
    totalSizeDiff := totalSizeDiff;
    anomalyCount := Z.of_nat (length anomalies);
    totalSizeDiffPct :=
      if decide (0 < totalSizeV1) then toFixed2 (ratio100 totalSizeDiff totalSizeV1)
      else 0%Qc;
  |} in
  {| summary := summary;
     diff := Js.sort byAbsSizeDiff diffResults;
     anomalies := Js.sort bySeverity anomalies;
     options_ := options |}.

End WithFloat.

End MemoryDiff.

(** ** ResultCache (compareStorage.js) *)

Module Storage.

(** [24 * 60 * 60 * 1000] milliseconds. *)
Definition DEFAULT_TTL : Z := 24 * 60 * 60 * 1000.

(** A stored comparison, for any type [R] of results. *)
Record Entry (R : Type) := mkEntry {
  result : R;
  expiresAt : Z;
  createdAt : Z;
}.
Global Arguments mkEntry {R} _ _ _.
Global Arguments result {R} _.
Global Arguments expiresAt {R} _.
Global Arguments createdAt {R} _.

(** What one call of [storeComparison] takes from outside the program: the
    id [generateCompareId] returns, built from the date and four random
    bytes, and the three readings of [Date.now()], in program order. *)
Record PutEnv := mkPutEnv {
  generatedId : string;
  nowAtExpiry : Z;
  nowAtCreation : Z;
  nowAtCleanup : Z;
}.

Section WithResult.
Context {R : Type}.

(** The loop of [cleanupExpired], with [now] the reading of the clock:
    every entry with [now > entry.expiresAt] is deleted. *)
Definition cleanupExpired (now : Z) (compareStore : gmap string (Entry R))
  : gmap string (Entry R) :=
  filter (λ kv, ¬ expiresAt kv.2 < now) compareStore.

(** [storeComparison(compareResult, ttl)]: the id returned and the store
    left behind. *)
Definition storeComparison (compareResult : R) (ttl : option Z) (env : PutEnv)
    (compareStore : gmap string (Entry R)) : string * gmap string (Entry R) :=
  let ttl := default DEFAULT_TTL ttl in
  let compareId := generatedId env in
  let expiresAt := nowAtExpiry env + ttl in
  let compareStore :=
    <[compareId := mkEntry compareResult expiresAt (nowAtCreation env)]> compareStore in
  let compareStore := cleanupExpired (nowAtCleanup env) compareStore in
  (compareId, compareStore).

(** [getComparison(compareId)] with [now] the reading of the clock: the
    result, or [None] for JavaScript's [null], and the store left behind. *)
Definition getComparison (compareId : string) (now : Z)
    (compareStore : gmap string (Entry R)) : option R * gmap string (Entry R) :=
  match compareStore !! compareId with
  | None => (None, compareStore)
  | Some entry =>
      if decide (expiresAt entry < now) then (None, delete compareId compareStore)
      else (Some (result entry), compareStore)
  end.

(** The runs of the hourly [setInterval(cleanupExpired, ...)] timer at the
    clock readings [sweeps], oldest first. *)
Definition backgroundSweeps (sweeps : list Z) (compareStore : gmap string (Entry R))
  : gmap string (Entry R) :=
  foldl (λ store now, cleanupExpired now store) compareStore sweeps.

(** [deleteComparison(compareId)]: whether an entry was there. *)
Definition deleteComparison (compareId : string)
    (compareStore : gmap string (Entry R)) : bool * gmap string (Entry R) :=
  (bool_decide (is_Some (compareStore !! compareId)), delete compareId compareStore).

End WithResult.

End Storage.

(** * Vocabulary of the statements *)

(** [before cmp a b]: the comparator lets [a] stand in front of [b]. *)
Definition before {A} (cmp : A → A → Z) (a b : A) : Prop := cmp a b ≤ 0.

(** The comparator [(a, b) => key(b) - key(a)]. *)
Definition desc {A} (key : A → Z) (a b : A) : Z := key b - key a.

(** Largest size first. *)
Definition sizeDescending (a b : Sect) : Prop := sec_size b ≤ sec_size a.

(** The sections of [l] whose size is [k], in the order they have in [l]. *)
Definition ofSize (k : Z) (l : list Sect) : list Sect :=
  filter (λ s, sec_size s = k) l.

(** The sum of the [f x] as integers, without any rounding. *)
Definition exactSum {A} (f : A → Z) (l : list A) : Z :=
  foldr (λ x acc, f x + acc) 0 l.

(** The sections of [l] whose parent name under [pn] is [k]. *)
Definition members (pn : string → string) (k : string) (l : list Sect) : list Sect :=
  filter (λ s, pn (sec_name s) = k) l.

(** The state of an aggregation loop over [l] that has reached the map [m]. *)
Record agg_inv (pn : string → string) (l : list Sect) (m : list (string * Sect)) : Prop := {
  agg_nodup : NoDup (OMap.keys m);
  agg_keys : ∀ k, k ∈ OMap.keys m ↔ ∃ s, s ∈ l ∧ pn (sec_name s) = k;
  agg_entry : ∀ k v, OMap.get k m = Some v →
    sec_name v = k ∧ sec_size v = Js.sum sec_size (members pn k l);
}.

(** The aggregated view of a loop with body [step]: the map's values, largest
    group first. *)
Definition view (step : list (string * Sect) → Sect → list (string * Sect))
  (l : list Sect) : list Sect :=
  Js.sort bySizeDesc (OMap.values (foldl step [] l)).

(** [out] groups [sections] by [pn]: group names are distinct, every section
    has its group, and a group's size is the sum of its members' sizes. *)
Definition grouped_by (pn : string → string) (sections out : list Sect) : Prop :=
  NoDup (sec_name <$> out) ∧
  (∀ s, s ∈ sections → ∃ g, g ∈ out ∧ sec_name g = pn (sec_name s)) ∧
  (∀ g, g ∈ out →
     (∃ s, s ∈ sections ∧ pn (sec_name s) = sec_name g) ∧
     sec_size g = Js.sum sec_size (members pn (sec_name g) sections)).

(** The last section of [l] with alignment key [k]. *)
Definition lastKeyed (k : string) (l : list Sect) : option Sect :=
  last (filter (λ s, MemoryDiff.keyOf s = k) l).

(** Two diff entries that mirror each other: sizes exchanged, size
    difference negated, [added] where the other has [removed]. *)
Definition mirrored (e e' : MemoryDiff.DiffEntry) : Prop :=
  MemoryDiff.de_sizeV1 e = MemoryDiff.de_sizeV2 e' ∧
  MemoryDiff.de_sizeV2 e = MemoryDiff.de_sizeV1 e' ∧
  MemoryDiff.de_sizeDiff e = - MemoryDiff.de_sizeDiff e' ∧
  (MemoryDiff.de_status e = MemoryDiff.added ↔ MemoryDiff.de_status e' = MemoryDiff.removed) ∧
  (MemoryDiff.de_status e = MemoryDiff.removed ↔ MemoryDiff.de_status e' = MemoryDiff.added).

(** The diff entries of a run of the differ, each with the key it is for. *)
Definition keyedEntries `{FloatOps} (v1 v2 : Analysis) (options : MemoryDiff.Options)
  : list (string * MemoryDiff.DiffEntry) :=
  (λ p, (p.1, p.2.1)) <$> MemoryDiff.diffLoop v1 v2 options.

(** An anomaly carries a "New section" reason, or a "Removed section" one. *)
Definition hasNewReason (an : MemoryDiff.Anomaly) : Prop :=
  ∃ n, MemoryDiff.NewSection n ∈ MemoryDiff.an_reasons an.

Definition hasRemovedReason (an : MemoryDiff.Anomaly) : Prop :=
  ∃ n, MemoryDiff.RemovedSection n ∈ MemoryDiff.an_reasons an.

(** The last section of [l] named [n]: the one a name-keyed [Map] built from
    [l] holds. *)
Definition lastNamed (n : string) (l : list Sect) : option Sect :=
  last (filter (λ s, sec_name s = n) l).





(** A section that has only a name and a size. *)
Definition raw (n : string) (sz : Z) : Sect := mkSect n None sz None None.

(** Two small builds and the empty options object, for the examples. *)
Definition buildA : Analysis := mkAnalysis [raw ".text" 1000; raw ".data" 50].
Definition buildB : Analysis := mkAnalysis [raw ".text" 1200; raw ".bss.b" 7000].
Definition noOptions : Compare.Options := Compare.mkOptions None None None None.

(** Two builds in which two sections shrink, one by 100 bytes and one by 1. *)
Definition shrinkA : Analysis := mkAnalysis [raw ".text.a" 200; raw ".text.b" 20].
Definition shrinkB : Analysis := mkAnalysis [raw ".text.a" 100; raw ".text.b" 19].

Definition noDiffOptions : MemoryDiff.Options := MemoryDiff.mkOptions None None None.


(** * More vocabulary *)

(** The number of sections of [l] whose parent name under [pn] is [k]. *)
Definition memberCount (pn : string → string) (k : string) (l : list Sect) : Z :=
  Z.of_nat (length (members pn k l)).

(** The key a section diff is filed under: [section.file || 'unknown']. *)
Definition fileNameOf (d : Compare.SectionDiff) : string :=
  Js.or_str (Compare.sd_file d) "unknown".

(** The section diffs of [l] filed under [k], in the order they have in [l]. *)
Definition inFile (k : string) (l : list Compare.SectionDiff) : list Compare.SectionDiff :=
  filter (λ d, fileNameOf d = k) l.


Definition groupDeltaDescending (a b : Compare.FileGroup) : Prop :=
  Z.abs (Compare.fg_delta b) ≤ Z.abs (Compare.fg_delta a).

(** What the loop of [computeFileGroups] has reached in the map [m] after
    the section diffs [l]: one group per file name, holding the sums, the
    count and the names of the diffs filed under it. *)
Record groups_inv (l : list Compare.SectionDiff) (m : list (string * Compare.FileGroup))
  : Prop := {
  groups_nodup : NoDup (OMap.keys m);
  groups_keys : ∀ k, k ∈ OMap.keys m ↔ ∃ d, d ∈ l ∧ fileNameOf d = k;
  groups_entry : ∀ k g, OMap.get k m = Some g →
    Compare.fg_file g = k ∧
    Compare.fg_sizeA g = Js.sum Compare.sd_sizeA (inFile k l) ∧
    Compare.fg_sizeB g = Js.sum Compare.sd_sizeB (inFile k l) ∧
    Compare.fg_delta g = Js.sum Compare.sd_delta (inFile k l) ∧
    Compare.fg_sectionCount g = Z.of_nat (length (inFile k l)) ∧
    Compare.fg_sections g = Compare.sd_name <$> inFile k l;
}.

(** The size the comparer takes for the name [n] in the sections [l]: that
    of the last section of the name, 0 when there is none. *)
Definition sizeNamed (n : string) (l : list Sect) : Z :=
  from_option sec_size 0 (lastNamed n l).

(** A section of the name [n] is in one of the two inputs. *)
Definition namedIn (n : string) (a b : Analysis) : Prop :=
  ∃ s, (s ∈ an_sections a ∨ s ∈ an_sections b) ∧ sec_name s = n.

(** Two section diffs that mirror each other: same name, sizes exchanged,
    delta negated. *)
Definition mirroredDiff (d d' : Compare.SectionDiff) : Prop :=
  Compare.sd_name d' = Compare.sd_name d ∧
  Compare.sd_sizeA d' = Compare.sd_sizeB d ∧
  Compare.sd_sizeB d' = Compare.sd_sizeA d ∧
  Compare.sd_delta d' = - Compare.sd_delta d ∧
  (Compare.sd_status d = Compare.removed → Compare.sd_status d' = Compare.added) ∧
  (Compare.sd_status d' = Compare.removed → Compare.sd_status d = Compare.added) ∧
  (Compare.sd_status d = Compare.modified ↔ Compare.sd_status d' = Compare.modified).

(** The order of the anomaly list: higher severity first, and among equal
    severities larger absolute delta first. *)
Definition anomalyBefore (x y : Compare.Anomaly) : Prop :=
  Compare.severityOrder (Compare.an_severity y) < Compare.severityOrder (Compare.an_severity x) ∨
  (Compare.an_severity x = Compare.an_severity y ∧
   Z.abs (Compare.an_delta y) ≤ Z.abs (Compare.an_delta x)).

(** The section diffs whose name starts with [.bss]. *)
Definition bssDiffs (l : list Compare.SectionDiff) : list Compare.SectionDiff :=
  filter (λ s, Js.startsWith ".bss" (Compare.sd_name s) = true) l.

#[global] Instance anomalyType_eq_dec : EqDecision Compare.AnomalyType.
Proof. solve_decision. Defined.



(** The percentage the differ compares with its thresholds: the one computed
    from the sizes, before it is rounded for the entry. *)
Definition rawPct `{FloatOps} (e : MemoryDiff.DiffEntry) : Qc :=
  if decide (0 < MemoryDiff.de_sizeV1 e)
  then ratio100 (MemoryDiff.de_sizeDiff e) (MemoryDiff.de_sizeV1 e)
  else if decide (0 < MemoryDiff.de_sizeV2 e) then Q2Qc 100 else 0%Qc.

(** What makes the differ report an entry, read off the entry. *)
Definition reportable `{FloatOps} (options : MemoryDiff.Options) (e : MemoryDiff.DiffEntry)
  : Prop :=
  (MemoryDiff.de_status e = MemoryDiff.added ∧ 1024 < MemoryDiff.de_sizeV2 e) ∨
  (MemoryDiff.de_status e = MemoryDiff.removed ∧ 1024 < MemoryDiff.de_sizeV1 e) ∨
  (MemoryDiff.de_status e = MemoryDiff.growth ∧
   (default (Q2Qc 10) (MemoryDiff.anomalyGrowthThreshold options) < rawPct e)%Qc) ∨
  (MemoryDiff.de_status e = MemoryDiff.shrink ∧
   (default (Q2Qc 10) (MemoryDiff.anomalyShrinkThreshold options) < Qcabs (rawPct e))%Qc) ∨
  MemoryDiff.de_addressShifted e = true.

(** ** What a pattern matches *)

(** [matches r w caps caps']: the pattern [r] can match the text [w], taking
    the captures from [caps] to [caps']. *)
Inductive matches : Regex.re → string → list (option string) → list (option string) → Prop :=
| matches_eps caps : matches Regex.Eps "" caps caps
| matches_chr (p : ascii → bool) c caps :
    p c = true → matches (Regex.Chr p) (String c "") caps caps
| matches_seq r1 r2 w1 w2 caps caps1 caps2 :
    matches r1 w1 caps caps1 → matches r2 w2 caps1 caps2 →
    matches (Regex.Seq r1 r2) (w1 +:+ w2) caps caps2
| matches_star_nil r caps : matches (Regex.Star r) "" caps caps
| matches_star_cons r w1 w2 caps caps1 caps2 :
    matches r w1 caps caps1 → matches (Regex.Star r) w2 caps1 caps2 →
    matches (Regex.Star r) (w1 +:+ w2) caps caps2
| matches_opt_none r caps : matches (Regex.Opt r) "" caps caps
| matches_opt_some r w caps caps1 :
    matches r w caps caps1 → matches (Regex.Opt r) w caps caps1
| matches_cap n r w caps caps1 :
    matches r w caps caps1 → matches (Regex.Cap n r) w caps (<[n := Some w]> caps1).

(** Every character of [s] is in the class [p]. *)
Fixpoint all_chars (p : ascii → bool) (s : string) : bool :=
  match s with
  | EmptyString => true
  | String c r => p c && all_chars p r
  end.

(** The number a string of hexadecimal digits denotes. *)
Fixpoint hexValueFrom (acc : Z) (s : string) : Z :=
  match s with
  | EmptyString => acc
  | String c r => hexValueFrom (acc * 16 + default 0 (Js.hex_digit c)) r
  end.

Definition hexValue (s : string) : Z := hexValueFrom 0 s.

(** A nonempty string of characters of the class [p]. *)
Definition run_of (p : ascii → bool) (s : string) : Prop :=
  s ≠ "" ∧ all_chars p s = true.

(** No two sections of the analysis have the same name. *)
Definition uniqueNames (a : Analysis) : Prop := NoDup (sec_name <$> an_sections a).

(** The names the build comparison counts as flash, and as RAM. *)
Definition flashName (n : string) : Prop :=
  Js.startsWith ".text" n = true ∨ Js.startsWith ".rodata" n = true.

Definition ramName (n : string) : Prop :=
  Js.startsWith ".data" n = true ∨ Js.startsWith ".bss" n = true.

(** * The section table and the memory summary (frontend) *)

Module SectionsTable.

Inductive Region := FLASH | RAM | FLASH_RAM | Unknown.

Definition flashSections : list string :=
  [".text"; ".rodata"; ".data"; ".init_array"; ".fini_array"; ".ARM.exidx"; ".ARM.extab"].

Definition ramSections : list string := [".bss"; ".stack"; ".heap"].

(** [getRegion(sectionName)] of the sections table. *)
Definition getRegion (sectionName : string) : Region :=
  if existsb (λ fs, Js.startsWith fs sectionName) flashSections then FLASH
  else if existsb (λ rs, Js.startsWith rs sectionName) ramSections then RAM
  else if Js.startsWith ".data" sectionName then FLASH_RAM
  else Unknown.

End SectionsTable.

Module MemorySummary.

Definition flashSections : list string :=
  [".text"; ".rodata"; ".data"; ".init_array"; ".fini_array"; ".ARM.exidx"; ".ARM.extab";
   ".preinit_array"; ".init"; ".fini"; ".eh_frame"].

Definition ramSections : list string := [".data"; ".bss"; ".stack"; ".heap"].

Record Usage := mkUsage {
  totalFlash : Z;
  usedFlash : Z;
  totalRAM : Z;
  usedRAM : Z;
  flashUsagePercent : Qc;
  ramUsagePercent : Qc;
}.

(** [calculateMemoryUsage(result)]; [flashLength] and [ramLength] are
    [result.memory.FLASH?.lengthBytes] and [result.memory.RAM?.lengthBytes],
    [None] when the region or the number is missing. *)
Definition calculateMemoryUsage `{FloatOps} (sections : list Sect)
    (flashLength ramLength : option Z) : Usage :=
  let usedFlash :=
    Js.sum sec_size
      (filter (λ s, existsb (λ fs, Js.startsWith fs (sec_name s)) flashSections = true)
         sections) in
  let usedRAM :=
    Js.sum sec_size
      (filter (λ s, existsb (λ rs, Js.startsWith rs (sec_name s)) ramSections = true)
         sections) in
  let totalFlash := or_num flashLength 0 in
  let totalRAM := or_num ramLength 0 in
  {| totalFlash := totalFlash;
     usedFlash := usedFlash;
     totalRAM := totalRAM;
     usedRAM := usedRAM;
     flashUsagePercent :=
       if decide (0 < totalFlash) then ratio100 usedFlash totalFlash else 0%Qc;
     ramUsagePercent :=
       if decide (0 < totalRAM) then ratio100 usedRAM totalRAM else 0%Qc |}.

End MemorySummary.

(** The sections the memory summary counts as flash, as RAM, and the ones
    named [.data...]. *)
Definition countedFlash (s : Sect) : Prop :=
  existsb (λ fs, Js.startsWith fs (sec_name s)) MemorySummary.flashSections = true.

Definition countedRam (s : Sect) : Prop :=
  existsb (λ rs, Js.startsWith rs (sec_name s)) MemorySummary.ramSections = true.

Definition dataNamed (s : Sect) : Prop := Js.startsWith ".data" (sec_name s) = true.

(** * Section colours (frontend, types/index.ts) *)

Module Colors.

(** The conversion of a number to a 32-bit integer that the bit operators
    apply to their operands and results. *)
Definition toInt32 (z : Z) : Z :=
  let m := z mod 2 ^ 32 in if decide (m < 2 ^ 31) then m else m - 2 ^ 32.

(** One round of the loop of [hashString], for the code unit [c]. *)
Definition hashStep (hash : Z) (c : ascii) : Z :=
  let char := Z.of_nat (nat_of_ascii c) in
  let hash := (toInt32 (Z.shiftl (toInt32 hash) 5) - hash) + char in
  toInt32 (Z.land (toInt32 hash) (toInt32 hash)).

Fixpoint hashLoop (hash : Z) (str : string) : Z :=
  match str with
  | EmptyString => hash
  | String c r => hashLoop (hashStep hash c) r
  end.

Definition hashString (str : string) : Z := Z.abs (hashLoop 0 str).

Definition SECTION_BASE_COLORS : list (string * list string) :=
  [ (".text", ["#9b59b6"; "#8e44ad"; "#7d3c98"; "#6c3483"; "#5b2c6f"]);
    (".rodata", ["#c0392b"; "#e74c3c"; "#ec7063"; "#f1948a"; "#f5b7b1"]);
    (".init", ["#2980b9"; "#3498db"; "#5dade2"; "#85c1e2"; "#aed6f1"]);
    (".fini", ["#16a085"; "#1abc9c"; "#48c9b0"; "#76d7c4"; "#a3e4d7"]);
    (".data", ["#00cec9"; "#00b894"; "#0abab5"; "#00a896"; "#009688"]);
    (".sdata", ["#55efc4"; "#4ecdc4"; "#45b7af"; "#3ca39a"; "#338f85"]);
    (".bss", ["#fdcb6e"; "#f39c12"; "#e67e22"; "#d68910"; "#c87404"]);
    (".heap", ["#e17055"; "#e74c3c"; "#ec7063"; "#e84118"; "#c23616"]);
    (".stack", ["#d63031"; "#c0392b"; "#a93226"; "#922b21"; "#7b241c"]);
    (".ARM", ["#fd79a8"; "#e84393"; "#d63095"; "#c81e8f"; "#b10c89"]) ].

Definition FALLBACK_COLORS : list string :=
  [ "#9b59b6"; "#3498db"; "#e74c3c"; "#2ecc71"; "#f39c12";
    "#1abc9c"; "#e67e22"; "#9d3c72"; "#16a085"; "#d35400";
    "#8e44ad"; "#2980b9"; "#c0392b"; "#27ae60"; "#d68910" ].

(** The property names every object literal inherits from
    [Object.prototype]; [SECTION_BASE_COLORS[key]] finds a function or an
    object under them, not a palette. *)
Definition objectPrototypeKeys : list string :=
  [ "constructor"; "hasOwnProperty"; "isPrototypeOf"; "propertyIsEnumerable";
    "toLocaleString"; "toString"; "valueOf"; "__proto__";
    "__defineGetter__"; "__defineSetter__"; "__lookupGetter__"; "__lookupSetter__" ].

(** [arr[hash % arr.length]]. *)
Definition pick (palette : list string) (hash : Z) : option string :=
  palette !! Z.to_nat (hash mod Z.of_nat (length palette)).

(** [getSectionColor(sectionName)]; [None] stands for [undefined], which is
    what indexing an inherited function or object with a number gives. *)
Definition getSectionColor (sectionName : string) : option string :=
  let parentSection := Frontend.parentName sectionName in
  match OMap.get parentSection SECTION_BASE_COLORS with
  | Some palette => pick palette (hashString sectionName)
  | None =>
      if decide (parentSection ∈ objectPrototypeKeys) then None
      else pick FALLBACK_COLORS (hashString sectionName)
  end.

(** [generateColorPalette(sections)]. *)
Definition generateColorPalette (sections : list string) : list (option string) :=
  getSectionColor <$> sections.

End Colors.

(** The value of the characters of [str] as digits in base 31, after the
    digits [acc]. *)
Fixpoint poly31 (acc : Z) (str : string) : Z :=
  match str with
  | EmptyString => acc
  | String c r => poly31 (31 * acc + Z.of_nat (nat_of_ascii c)) r
  end.

(** * Facts about the JavaScript library model *)

Section SortFacts.
Context {A : Type} (cmp : A → A → Z).

Lemma insert_perm x l : Js.insert cmp x l ≡ₚ x :: l.
Proof.
  induction l as [|y l IH]; simpl; [done|].
  case_decide; [done|]. rewrite IH. apply Permutation_swap.
Qed.

Lemma sort_perm l : Js.sort cmp l ≡ₚ l.
Proof.
  induction l as [|x l IH]; simpl; [done|].
  by rewrite insert_perm, IH.
Qed.

Lemma sort_nil : Js.sort cmp [] = [].
Proof. done. Qed.

Lemma elem_of_sort x l : x ∈ Js.sort cmp l ↔ x ∈ l.
Proof. by rewrite sort_perm. Qed.

Lemma length_sort l : length (Js.sort cmp l) = length l.
Proof. by rewrite sort_perm. Qed.

(** An element that may go first is put first. *)
Lemma insert_first x l : Forall (before cmp x) l → Js.insert cmp x l = x :: l.
Proof.
  destruct 1 as [|y l Hxy _]; simpl; [done|].
  unfold before in Hxy. by rewrite decide_True.
Qed.

(** A list already in order is left as it is: the sort is stable. *)
Lemma sort_sorted_id l : StronglySorted (before cmp) l → Js.sort cmp l = l.
Proof.
  induction 1 as [|x l _ IH Hx]; simpl; [done|].
  rewrite IH. by apply insert_first.
Qed.

Hypothesis cmp_total : ∀ a b, 0 < cmp a b → cmp b a ≤ 0.
Hypothesis cmp_trans : ∀ a b c, cmp a b ≤ 0 → cmp b c ≤ 0 → cmp a c ≤ 0.

Lemma insert_sorted x l :
  StronglySorted (before cmp) l → StronglySorted (before cmp) (Js.insert cmp x l).
Proof.
  induction 1 as [|y l Hl IH Hy]; simpl.
  - repeat constructor.
  - case_decide as Hxy.
    + constructor; [by constructor|].
      constructor; [exact Hxy|].
      eapply Forall_impl; [exact Hy|]. intros z Hz. by eapply cmp_trans.
    + constructor; [done|].
      rewrite insert_perm. constructor; [|done].
      apply cmp_total. lia.
Qed.

Lemma sort_sorted l : StronglySorted (before cmp) (Js.sort cmp l).
Proof.
  induction l as [|x l IH]; simpl; [constructor|]. by apply insert_sorted.
Qed.

(** Filtering commutes with sorting. *)
Lemma filter_insert (P : A → Prop) `{!∀ x, Decision (P x)} x l :
  StronglySorted (before cmp) l →
  filter P (Js.insert cmp x l) =
    if decide (P x) then Js.insert cmp x (filter P l) else filter P l.
Proof.
  induction 1 as [|y l Hl IH Hy]; simpl.
  - rewrite filter_cons, filter_nil. by case_decide.
  - destruct (decide (cmp x y ≤ 0)) as [Hxy|Hxy].
    + rewrite filter_cons. destruct (decide (P x)) as [HPx|HPx]; [|done].
      rewrite insert_first; [done|].
      apply Forall_forall.
      intros z [_ [-> | Hz]%elem_of_cons]%list_elem_of_filter; [done|].
      eapply cmp_trans; [exact Hxy|]. by eapply Forall_forall in Hy.
    + rewrite !filter_cons, IH.
      destruct (decide (P y)), (decide (P x)); simpl; try done.
      by rewrite decide_False.
Qed.

Lemma filter_sort (P : A → Prop) `{!∀ x, Decision (P x)} l :
  filter P (Js.sort cmp l) = Js.sort cmp (filter P l).
Proof.
  induction l as [|x l IH]; simpl; [done|].
  rewrite filter_insert by apply sort_sorted.
  rewrite filter_cons, IH. by case_decide.
Qed.

End SortFacts.

Lemma StronglySorted_mono {A} (R R' : A → A → Prop) l :
  (∀ a b, R a b → R' a b) → StronglySorted R l → StronglySorted R' l.
Proof.
  intros HR. induction 1 as [|x l _ IH Hx]; constructor; [done|].
  eapply Forall_impl; [exact Hx|]. intros y. apply HR.
Qed.

(** Comparators of the form [key b - key a] sort in descending key order. *)
Section SortByKey.
Context {A : Type} (key : A → Z).

Lemma before_desc a b : before (desc key) a b ↔ key b ≤ key a.
Proof. unfold before, desc. lia. Qed.

Lemma sort_desc_sorted l :
  StronglySorted (λ a b, key b ≤ key a) (Js.sort (desc key) l).
Proof.
  eapply StronglySorted_mono; [|apply (sort_sorted (desc key))].
  - intros a b. apply before_desc.
  - unfold desc. intros; lia.
  - unfold desc. intros; lia.
Qed.

Lemma filter_sort_desc (P : A → Prop) `{!∀ x, Decision (P x)} l :
  filter P (Js.sort (desc key) l) = Js.sort (desc key) (filter P l).
Proof. apply filter_sort; unfold desc; intros; lia. Qed.

(** Stability: the entries of one key keep the order they had. *)
Lemma sort_desc_stable k l :
  filter (λ a, key a = k) (Js.sort (desc key) l) = filter (λ a, key a = k) l.
Proof.
  rewrite filter_sort_desc. apply sort_sorted_id.
  induction l as [|x l IH]; [rewrite filter_nil; constructor|].
  rewrite filter_cons. case_decide as Hx; [|done].
  constructor; [done|].
  apply Forall_forall. intros y [Hy _]%list_elem_of_filter.
  apply before_desc. lia.
Qed.

End SortByKey.

Lemma filter_none {A} (P : A → Prop) `{!∀ x, Decision (P x)} (l : list A) :
  (∀ x, x ∈ l → ¬ P x) → filter P l = [].
Proof.
  intros Hl. destruct (filter P l) as [|x l'] eqn:Hf; [done|].
  assert (x ∈ filter P l) as [HP Hx]%list_elem_of_filter by (rewrite Hf; left).
  by destruct (Hl x Hx).
Qed.

(** ** Rounded and exact sums *)

Lemma fl_small z : Z.abs z ≤ 2 ^ 53 → Js.fl z = z.
Proof.
  intros Hz. unfold Js.fl. cbv zeta. case_decide; [done|].
  assert (z = 2 ^ 53 ∨ z = - 2 ^ 53) as [-> | ->] by lia; reflexivity.
Qed.

Lemma fl_pos z : 0 < z → 0 < Js.fl z.
Proof.
  intros Hz. unfold Js.fl. cbv zeta. case_decide as Ha; [done|].
  rewrite Z.abs_eq in * by lia. rewrite Z.sgn_pos by done.
  pose proof (Z.log2_spec z Hz) as [Hlo _].
  assert (53 ≤ Z.log2 z) as Hlog by (apply Z.log2_le_pow2; lia).
  set (e := Z.log2 z - 52) in *.
  assert (2 ^ e ≤ 2 ^ Z.log2 z) as Hpow by (apply Z.pow_le_mono_r; lia).
  assert (0 < 2 ^ e) as He by (apply Z.pow_pos_nonneg; lia).
  assert (0 < z / 2 ^ e) as Hq by (apply Z.div_str_pos; lia).
  destruct (_ || _); nia.
Qed.

Lemma add_exact x y : Z.abs (x + y) ≤ 2 ^ 53 → Js.add x y = x + y.
Proof.
  intros Hxy. unfold Js.add. repeat case_decide; try lia. by apply fl_small.
Qed.

Section SumFacts.
Context {A : Type} (f : A → Z).

Lemma sum_nil : Js.sum f [] = 0.
Proof. done. Qed.

(** One more round of [reduce]. *)
Lemma sum_snoc l x : Js.sum f (l ++ [x]) = Js.add (Js.sum f l) (f x).
Proof. unfold Js.sum. by rewrite foldl_snoc. Qed.

Lemma sum_singleton x : Js.sum f [x] = f x.
Proof. done. Qed.

Lemma esum_nil : exactSum f [] = 0.
Proof. done. Qed.

Lemma esum_cons x l : exactSum f (x :: l) = f x + exactSum f l.
Proof. done. Qed.

Lemma esum_app l1 l2 : exactSum f (l1 ++ l2) = exactSum f l1 + exactSum f l2.
Proof.
  induction l1 as [|x l1 IH]; [done|].
  rewrite <-app_comm_cons, !esum_cons, IH. lia.
Qed.

Lemma esum_perm l1 l2 : l1 ≡ₚ l2 → exactSum f l1 = exactSum f l2.
Proof.
  induction 1 as [|x l1 l2 _ IH|x y l|l1 l2 l3 _ IH1 _ IH2];
    rewrite ?esum_cons; lia.
Qed.

End SumFacts.

Section ExactSums.
Context {A : Type} (f : A → Z).

Lemma esum_abs_nonneg l : 0 ≤ exactSum (λ x, Z.abs (f x)) l.
Proof. induction l as [|x l IH]; [done|]. rewrite esum_cons. lia. Qed.

Lemma esum_abs_le l : Z.abs (exactSum f l) ≤ exactSum (λ x, Z.abs (f x)) l.
Proof. induction l as [|x l IH]; [done|]. rewrite !esum_cons. lia. Qed.

Lemma esum_nonneg l : Forall (λ x, 0 ≤ f x) l → 0 ≤ exactSum f l.
Proof. induction 1 as [|x l Hx _ IH]; [done|]. rewrite esum_cons. lia. Qed.

Lemma esum_abs_id l :
  Forall (λ x, 0 ≤ f x) l → exactSum (λ x, Z.abs (f x)) l = exactSum f l.
Proof.
  induction 1 as [|x l Hx _ IH]; [done|]. rewrite !esum_cons, IH. lia.
Qed.

(** A part of a list of numbers that are not negative adds up to no more
    than the list. *)
Lemma esum_filter_le (P : A → Prop) `{!∀ x, Decision (P x)} l :
  Forall (λ x, 0 ≤ f x) l → exactSum f (filter P l) ≤ exactSum f l.
Proof.
  induction 1 as [|x l Hx _ IH]; [done|]. rewrite filter_cons.
  case_decide; rewrite ?esum_cons; lia.
Qed.

(** As long as the magnitudes add up to no more than 2^53, no round of
    [reduce] rounds. *)
Lemma sum_exact l :
  exactSum (λ x, Z.abs (f x)) l ≤ 2 ^ 53 → Js.sum f l = exactSum f l.
Proof.
  unfold Js.sum.
  assert (∀ acc, Z.abs acc + exactSum (λ x, Z.abs (f x)) l ≤ 2 ^ 53 →
                 foldl (λ acc s, Js.add acc (f s)) acc l = acc + exactSum f l) as Hgen.
  { induction l as [|x l IH]; intros acc Hacc; cbn [foldl]; [rewrite esum_nil; lia|].
    rewrite esum_cons in Hacc. pose proof (esum_abs_nonneg l).
    rewrite add_exact by lia. rewrite IH by lia. rewrite esum_cons. lia. }
  intros Hl. rewrite Hgen by (change (Z.abs 0) with 0; lia). lia.
Qed.

Lemma sum_exact_nonneg l :
  Forall (λ x, 0 ≤ f x) l → exactSum f l ≤ 2 ^ 53 → Js.sum f l = exactSum f l.
Proof. intros Hl Hb. apply sum_exact. by rewrite esum_abs_id. Qed.

End ExactSums.

Lemma esum_ext {A} (f g : A → Z) l : (∀ x, f x = g x) → exactSum f l = exactSum g l.
Proof.
  intros Hfg. induction l as [|x l IH]; [done|]. by rewrite !esum_cons, IH, Hfg.
Qed.

Lemma esum_plus {A} (f g : A → Z) l :
  exactSum (λ x, f x + g x) l = exactSum f l + exactSum g l.
Proof. induction l as [|x l IH]; [done|]. rewrite !esum_cons, IH. lia. Qed.

Lemma esum_minus {A} (f g : A → Z) l :
  exactSum (λ x, f x - g x) l = exactSum f l - exactSum g l.
Proof. induction l as [|x l IH]; [done|]. rewrite !esum_cons, IH. lia. Qed.

Lemma esum_zero {A} (l : list A) : exactSum (λ _, 0) l = 0.
Proof. induction l as [|x l IH]; [done|]. rewrite esum_cons, IH. lia. Qed.

Lemma esum_fmap {A B} (g : A → B) (f : B → Z) l :
  exactSum f (g <$> l) = exactSum (λ x, f (g x)) l.
Proof. induction l as [|x l IH]; [done|]. by rewrite fmap_cons, !esum_cons, IH. Qed.

Lemma esum_indicator {A} `{!EqDecision A} (x : A) (v : Z) l :
  NoDup l →
  exactSum (λ y, if decide (x = y) then v else 0) l = if decide (x ∈ l) then v else 0.
Proof.
  induction l as [|y l IH]; [done|]. intros [Hy Hl]%NoDup_cons.
  rewrite esum_cons, IH by done.
  destruct (decide (x = y)) as [->|Hne].
  - rewrite (decide_False (P := y ∈ l)) by done.
    rewrite decide_True by left. lia.
  - destruct (decide (x ∈ l)).
    + rewrite decide_True by by right. lia.
    + rewrite decide_False; [lia|]. by intros [?|?]%elem_of_cons.
Qed.

Section OMapFacts.
Context {V : Type}.
Implicit Types (m : list (string * V)) (k : string) (v : V).

Lemma get_None k m : OMap.get k m = None ↔ k ∉ OMap.keys m.
Proof.
  unfold OMap.keys. induction m as [|[k' v'] m IH]; simpl.
  - split; [intros _; apply not_elem_of_nil | done].
  - rewrite not_elem_of_cons. case_decide; naive_solver.
Qed.

Lemma get_Some_elem k v m : OMap.get k m = Some v → (k, v) ∈ m.
Proof.
  induction m as [|[k' v'] m IH]; simpl; [done|].
  case_decide; [intros [= ->]; subst; left | right; auto].
Qed.

Lemma elem_get_Some k v m : NoDup (OMap.keys m) → (k, v) ∈ m → OMap.get k m = Some v.
Proof.
  unfold OMap.keys. induction m as [|[k' v'] m IH]; simpl.
  - by intros _ ?%elem_of_nil.
  - intros [Hk' Hm]%NoDup_cons [[= -> ->] | Hin]%elem_of_cons.
    + by rewrite decide_True.
    + rewrite decide_False; [auto|].
      intros ->. apply Hk'. apply list_elem_of_fmap. by exists (k', v).
Qed.

Lemma get_set k k' v m :
  OMap.get k' (OMap.set k v m) = if decide (k' = k) then Some v else OMap.get k' m.
Proof.
  induction m as [|[k0 v0] m IH]; simpl.
  - by case_decide.
  - destruct (decide (k = k0)) as [->|Hk]; simpl; repeat case_decide; naive_solver.
Qed.

(** Setting a new key appends it. *)
Lemma set_fresh k v m : OMap.get k m = None → OMap.set k v m = m ++ [(k, v)].
Proof.
  induction m as [|[k0 v0] m IH]; simpl; [done|].
  case_decide; [done|]. intros Hg. by rewrite IH.
Qed.

(** Setting a key that is present replaces its value where it stands. *)
Lemma set_present k v v0 m :
  OMap.get k m = Some v0 →
  ∃ m1 m2, m = m1 ++ (k, v0) :: m2 ∧ OMap.set k v m = m1 ++ (k, v) :: m2.
Proof.
  induction m as [|[k1 v1] m IH]; simpl; [done|].
  case_decide as Hk.
  - intros [= ->]. subst. by exists [], m.
  - intros (m1 & m2 & -> & ->)%IH. by exists ((k1, v1) :: m1), m2.
Qed.

Lemma keys_set k v m :
  OMap.keys (OMap.set k v m) =
    if decide (k ∈ OMap.keys m) then OMap.keys m else OMap.keys m ++ [k].
Proof.
  destruct (OMap.get k m) as [v0|] eqn:Hg.
  - rewrite decide_True.
    + destruct (set_present k v v0 m Hg) as (m1 & m2 & -> & ->).
      unfold OMap.keys. by rewrite !fmap_app.
    + apply get_Some_elem in Hg. unfold OMap.keys.
      apply list_elem_of_fmap. by exists (k, v0).
  - rewrite decide_False by by apply get_None.
    rewrite set_fresh by done. unfold OMap.keys. by rewrite fmap_app.
Qed.

Lemma NoDup_keys_set k v m : NoDup (OMap.keys m) → NoDup (OMap.keys (OMap.set k v m)).
Proof.
  intros Hm. rewrite keys_set. case_decide as Hk; [done|].
  apply NoDup_app. split_and!; [done| |apply NoDup_singleton].
  intros x Hx ->%list_elem_of_singleton. done.
Qed.

Lemma NoDup_keys_of_list (pairs : list (string * V)) :
  NoDup (OMap.keys (OMap.of_list pairs)).
Proof.
  unfold OMap.of_list. induction pairs as [|kv pairs IH] using rev_ind.
  - constructor.
  - rewrite foldl_snoc. by apply NoDup_keys_set.
Qed.

End OMapFacts.

(** * MapFileParser *)

Lemma parseLine_size line s : Parser.parseLine line = Some s → 0 < sec_size s.
Proof.
  unfold Parser.parseLine.
  destruct (Regex.exec Parser.sectionLine 5 line) as [sectionMatch|]; [|done].
  destruct (Js.parseInt16 _) as [size|]; [|done].
  case_decide as Hsize; [|done]. by intros [= <-].
Qed.

Lemma scanSections_sizes content : Forall (λ s, 0 < sec_size s) (Parser.scanSections content).
Proof.
  apply Forall_forall. intros s (line & _ & Hs)%list_elem_of_omap.
  by eapply parseLine_size.
Qed.

(** C4: whatever the text, every section of the parsed result has a
    positive size; the sections are in descending order of size; they are
    the sections the scan of the lines finds, and those of equal size stand
    in the order of the scan. The result is a function of the text alone, so
    parsing the same text again gives the same result. *)
Theorem parse_sections_sorted_and_positive (content : string) :
  Forall (λ s, 0 < sec_size s) (an_sections (parseMapFile content)) ∧
  StronglySorted sizeDescending (an_sections (parseMapFile content)) ∧
  an_sections (parseMapFile content) ≡ₚ Parser.scanSections content ∧
  (∀ k, ofSize k (an_sections (parseMapFile content)) = ofSize k (Parser.scanSections content)) ∧
  (∀ content', content' = content → parseMapFile content' = parseMapFile content).
Proof.
  unfold parseMapFile. cbn [an_sections]. split_and!.
  - rewrite (sort_perm bySizeDesc). apply scanSections_sizes.
  - apply (sort_desc_sorted sec_size).
  - apply sort_perm.
  - intros k. apply (sort_desc_stable sec_size).
  - by intros ? ->.
Qed.

(** Scenario 2, and a stable sort at work: [.text] and [.bss] have the same
    size and keep the order of their lines. *)
Example parse_scenario :
  Parser.parseLine ".text.main    0x00000778    0x00000c00  main.o"
    = Some (mkSect ".text.main" (Some "0x00000778") 3072 (Some "main.o") None) ∧
  sec_name <$> an_sections (parseMapFile
     (".text 0x0 0x10 a.o" +:+ String "010" ".data 0x100 0x20 b.o" +:+
      String "010" ".bss 0x200 0x10 c.o" +:+ String "010" ".stack 0x300 0x0"))
    = [".data"; ".text"; ".bss"].
Proof. split; reflexivity. Qed.

(** Backtracking at work: when only blanks follow the size, the optional
    group gives one of them back to [.+], and [trim] leaves no file path;
    directory parts written with either slash are cut off. *)
Example parse_paths :
  Regex.exec Parser.sectionLine 5 ".bss 0x20000000 0x10  "
    = Some [None; Some ".bss"; Some "20000000"; Some "10"; Some " "] ∧
  sec_filePath <$> Parser.parseLine ".bss 0x20000000 0x10  " = Some None ∧
  sec_filePath <$> Parser.parseLine ".text 0x0 0x10 build/obj/main.o" = Some (Some "main.o") ∧
  sec_filePath <$> Parser.parseLine ".text 0x0 0x10 build\obj\main.o" = Some (Some "main.o").
Proof. split_and!; reflexivity. Qed.

(** * SectionAggregator *)

(** What the two aggregators share: a step stores, under the parent name of
    the section, an entry that keeps the group's name and adds the section's
    size to the size the group had. *)
Section Aggregation.
Context (pn : string → string) (step : list (string * Sect) → Sect → list (string * Sect)).

Hypothesis step_spec : ∀ m s, ∃ v,
  step m s = OMap.set (pn (sec_name s)) v m ∧
  sec_name v = from_option sec_name (pn (sec_name s)) (OMap.get (pn (sec_name s)) m) ∧
  sec_size v = Js.add (from_option sec_size 0 (OMap.get (pn (sec_name s)) m)) (sec_size s).

Lemma agg_inv_nil : agg_inv pn [] [].
Proof.
  split; simpl; try done.
  - constructor.
  - intros k. split; [by intros ?%elem_of_nil|]. by intros (s & ?%elem_of_nil & _).
Qed.

Lemma agg_inv_step l m s : agg_inv pn l m → agg_inv pn (l ++ [s]) (step m s).
Proof.
  intros [Hnd Hkeys Hentry].
  destruct (step_spec m s) as (v & -> & Hname & Hsize).
  set (p := pn (sec_name s)) in *.
  split.
  - by apply NoDup_keys_set.
  - intros k. rewrite keys_set. setoid_rewrite elem_of_app.
    setoid_rewrite list_elem_of_singleton.
    case_decide as Hp.
    + rewrite Hkeys. split; [naive_solver|].
      intros (s' & [Hs' | ->] & Hk); [by eauto|].
      apply Hkeys. by rewrite <-Hk.
    + rewrite elem_of_app, list_elem_of_singleton, Hkeys. naive_solver.
  - intros k v'. rewrite get_set. unfold members. rewrite filter_app.
    rewrite filter_cons, filter_nil.
    destruct (decide (k = p)) as [->|Hk].
    + intros [= <-]. rewrite decide_True by done. rewrite sum_snoc.
      destruct (OMap.get p m) as [e|] eqn:He; simpl in *.
      * destruct (Hentry _ _ He) as [Hn Hs]. unfold members in Hs.
        split; [congruence|]. by rewrite Hsize, Hs.
      * split; [done|]. rewrite Hsize.
        assert (members pn p l = []) as Hnil; [|unfold members in Hnil; by rewrite Hnil].
        apply filter_none. intros s' Hs' Hp.
        apply get_None in He. apply He, Hkeys. eauto.
    + intros Hg. rewrite decide_False by done. rewrite app_nil_r.
      by apply Hentry.
Qed.

Lemma agg_inv_fold l : agg_inv pn l (foldl step [] l).
Proof.
  induction l as [|s l IH] using rev_ind; [apply agg_inv_nil|].
  rewrite foldl_snoc. by apply agg_inv_step.
Qed.

Lemma elem_of_view g l :
  g ∈ view step l ↔ OMap.get (sec_name g) (foldl step [] l) = Some g.
Proof.
  pose proof (agg_inv_fold l) as [Hnd _ Hentry].
  unfold view. rewrite elem_of_sort. unfold OMap.values. split.
  - intros ([k v] & -> & Hin)%list_elem_of_fmap. simpl.
    apply (elem_get_Some _ _ _ Hnd) in Hin as Hg.
    by destruct (Hentry _ _ Hg) as [-> _].
  - intros Hg%get_Some_elem. apply list_elem_of_fmap. by eexists (_, _).
Qed.

Lemma view_names_nodup l : NoDup (sec_name <$> view step l).
Proof.
  pose proof (agg_inv_fold l) as [Hnd _ Hentry].
  unfold view. rewrite (sort_perm bySizeDesc).
  assert (sec_name <$> OMap.values (foldl step [] l) = OMap.keys (foldl step [] l))
    as ->; [|done].
  unfold OMap.values, OMap.keys. rewrite <-list_fmap_compose.
  apply list_fmap_ext. intros i [k v] Hin%list_elem_of_lookup_2. simpl.
  apply (elem_get_Some _ _ _ Hnd) in Hin. by destruct (Hentry _ _ Hin).
Qed.

Lemma view_group_of s l :
  s ∈ l → ∃ g, g ∈ view step l ∧ sec_name g = pn (sec_name s).
Proof.
  intros Hs. pose proof (agg_inv_fold l) as [_ Hkeys Hentry].
  destruct (OMap.get (pn (sec_name s)) (foldl step [] l)) as [g|] eqn:Hg.
  - destruct (Hentry _ _ Hg) as [Hn _]. exists g. split; [|done].
    apply elem_of_view. by rewrite Hn.
  - apply get_None in Hg. destruct Hg. apply Hkeys. eauto.
Qed.

Lemma view_group_from g l :
  g ∈ view step l →
  (∃ s, s ∈ l ∧ pn (sec_name s) = sec_name g) ∧
  sec_size g = Js.sum sec_size (members pn (sec_name g) l).
Proof.
  intros Hg%elem_of_view. pose proof (agg_inv_fold l) as [_ Hkeys Hentry].
  split; [|by apply Hentry].
  apply Hkeys. apply get_Some_elem in Hg. unfold OMap.keys.
  apply list_elem_of_fmap. by eexists (_, _).
Qed.

(** The members of the groups, taken group by group, are all the sections. *)
Lemma esum_members (keys : list string) l :
  NoDup keys → (∀ s, s ∈ l → pn (sec_name s) ∈ keys) →
  exactSum (λ k, exactSum sec_size (members pn k l)) keys = exactSum sec_size l.
Proof.
  intros Hnd. induction l as [|s l IH]; intros Hl.
  - rewrite (esum_ext _ (λ _, 0)) by done. apply esum_zero.
  - rewrite (esum_ext _ (λ k, (if decide (pn (sec_name s) = k) then sec_size s else 0)
                              + exactSum sec_size (members pn k l))).
    + rewrite esum_plus, esum_indicator, IH by (done || (intros; apply Hl; by right)).
      rewrite decide_True by (apply Hl; left). by rewrite esum_cons.
    + intros k. unfold members. rewrite filter_cons.
      case_decide; [by rewrite esum_cons|lia].
Qed.

(** While the sizes add up to no more than 2^53 no addition of the loop
    rounds, and the groups add up to what the sections add up to. *)
Lemma view_total_exact l :
  Forall (λ s, 0 ≤ sec_size s) l → exactSum sec_size l ≤ 2 ^ 53 →
  Js.sum sec_size (view step l) = exactSum sec_size l.
Proof.
  intros Hpos Hb. pose proof (agg_inv_fold l) as [Hnd Hkeys Hentry].
  set (m := foldl step [] l) in *.
  assert (∀ k, Forall (λ s, 0 ≤ sec_size s) (members pn k l)) as Hmem.
  { intros k. apply Forall_forall. intros x [_ Hx]%list_elem_of_filter.
    rewrite Forall_forall in Hpos. auto. }
  assert (∀ k v, (k, v) ∈ m → sec_size v = exactSum sec_size (members pn k l)) as Hval.
  { intros k v Hin. apply (elem_get_Some _ _ _ Hnd) in Hin.
    destruct (Hentry _ _ Hin) as [_ ->].
    apply sum_exact_nonneg; [done|].
    etransitivity; [by apply esum_filter_le|done]. }
  assert (exactSum sec_size (OMap.values m) = exactSum sec_size l) as Hex.
  { rewrite <-(esum_members (OMap.keys m) l Hnd) by (intros s Hs; apply Hkeys; eauto).
    unfold OMap.values, OMap.keys. rewrite !esum_fmap.
    assert (∀ m', (∀ kv, kv ∈ m' → kv ∈ m) →
              exactSum (λ kv : string * Sect, sec_size kv.2) m' =
              exactSum (λ kv, exactSum sec_size (members pn kv.1 l)) m') as Hsub.
    { induction m' as [|[k v] m' IH]; intros Hin; [done|].
      rewrite !esum_cons, IH by (intros; apply Hin; by right). simpl.
      by rewrite (Hval k v) by (apply Hin; left). }
    by apply Hsub. }
  unfold view. fold m.
  rewrite sum_exact_nonneg.
  - by rewrite (esum_perm _ _ _ (sort_perm _ _)).
  - apply Forall_forall. intros v Hv%elem_of_sort. unfold OMap.values in Hv.
    apply list_elem_of_fmap in Hv as ([k v'] & -> & Hin). simpl.
    rewrite (Hval _ _ Hin). by apply esum_nonneg.
  - by rewrite (esum_perm _ _ _ (sort_perm _ _)), Hex.
Qed.

Lemma view_grouped_by l : grouped_by pn l (view step l).
Proof.
  split_and!.
  - apply view_names_nodup.
  - intros s. apply view_group_of.
  - intros g. apply view_group_from.
Qed.

End Aggregation.

Lemma aggregateStep_spec m s : ∃ v,
  aggregateStep m s = OMap.set (parentName (sec_name s)) v m ∧
  sec_name v =
    from_option sec_name (parentName (sec_name s)) (OMap.get (parentName (sec_name s)) m) ∧
  sec_size v =
    Js.add (from_option sec_size 0 (OMap.get (parentName (sec_name s)) m)) (sec_size s).
Proof.
  unfold aggregateStep.
  destruct (OMap.get (parentName (sec_name s)) m) as [e|]; eexists; simpl; eauto.
Qed.

(** ** The parent name of a section name *)

Lemma split_nonempty c s : Js.split c s ≠ [].
Proof. destruct s as [|a r]; simpl; [done|]. case_decide; [done|]. by destruct (Js.split c r). Qed.

Lemma join_cons c p parts :
  parts ≠ [] → Js.join (String c "") (p :: parts) = p +:+ String c (Js.join (String c "") parts).
Proof. by destruct parts. Qed.

(** [s.split(c).join(c)] gives [s] back. *)
Lemma join_split c s : Js.join (String c "") (Js.split c s) = s.
Proof.
  induction s as [|a r IH]; simpl; [done|].
  case_decide as Ha.
  - rewrite join_cons by apply split_nonempty. simpl. by rewrite IH, Ha.
  - destruct (Js.split c r) as [|h t] eqn:Hs; [by destruct (split_nonempty c r)|].
    rewrite <-IH. by destruct t.
Qed.

Lemma split_no_sep c seg : Js.includes c seg = false → Js.split c seg = [seg].
Proof.
  induction seg as [|a r IH]; simpl; [done|].
  case_decide; [done|]. intros Hr. by rewrite IH.
Qed.

Lemma split_at_sep c seg rest :
  Js.includes c seg = false →
  Js.split c (seg +:+ String c rest) = seg :: Js.split c rest.
Proof.
  induction seg as [|a r IH]; simpl.
  - intros _. by rewrite decide_True.
  - case_decide; [done|]. intros Hr. by rewrite IH.
Qed.

Lemma append_empty_r (s : string) : s +:+ "" = s.
Proof.
  induction s as [|a r IH]; [done|].
  change (String a (r +:+ "") = String a r). by rewrite IH.
Qed.

(** The parent name of [.seg] and of [.seg.more] is [.seg]: the name is cut
    in front of its second dot. *)
Lemma parentName_dotted seg rest :
  Js.includes "." seg = false →
  rest = "" ∨ (∃ more, rest = String "." more) →
  parentName ("." +:+ seg +:+ rest) = "." +:+ seg.
Proof.
  intros Hseg Hrest. unfold parentName.
  change ("." +:+ seg +:+ rest) with ("" +:+ String "." (seg +:+ rest)).
  rewrite split_at_sep by done.
  destruct Hrest as [->|[more ->]].
  - rewrite append_empty_r. by rewrite split_no_sep.
  - rewrite split_at_sep by done.
    destruct (Js.split "." more) eqn:Hm; [by destruct (split_nonempty "." more)|done].
Qed.

Lemma frontend_parentName name : Frontend.parentName name = parentName name.
Proof.
  unfold Frontend.parentName, parentName.
  case_decide as Hlen; [done|].
  rewrite <-(join_split "." name) at 1. f_equal.
  unfold Js.slice0. simpl. symmetry. apply take_ge. lia.
Qed.

(** The frontend's step stores under the same parent name. *)
Lemma frontend_aggregateStep_spec m s : ∃ v,
  Frontend.aggregateStep m s = OMap.set (parentName (sec_name s)) v m ∧
  sec_name v =
    from_option sec_name (parentName (sec_name s)) (OMap.get (parentName (sec_name s)) m) ∧
  sec_size v =
    Js.add (from_option sec_size 0 (OMap.get (parentName (sec_name s)) m)) (sec_size s).
Proof.
  unfold Frontend.aggregateStep. rewrite frontend_parentName.
  destruct (OMap.get (parentName (sec_name s)) m) as [e|]; eexists; simpl; eauto.
Qed.

(** ** What the aggregators guarantee *)

(** C1, as the code has it: both aggregators group the sections by the part
    of the name in front of its second dot, which is what the first two
    pieces of [name.split('.')] are once the empty piece before the leading
    dot is counted. Every section lands in exactly one group, the group is
    named by that prefix and its size is the sum of its members' sizes; so
    [.text.main], [.text.main.cold] and [.text] all land in the group
    [.text]. *)
Theorem aggregate_groups_by_parent_name (sections : list Sect) :
  grouped_by parentName sections (aggregateSections sections) ∧
  grouped_by parentName sections (Frontend.aggregateSections sections) ∧
  (∀ seg more, Js.includes "." seg = false →
     parentName ("." +:+ seg) = "." +:+ seg ∧
     parentName ("." +:+ seg +:+ "." +:+ more) = "." +:+ seg) ∧
  parentName ".text.main" = ".text" ∧
  parentName ".text.main.cold" = ".text" ∧
  parentName ".text" = ".text".
Proof.
  split_and!; try reflexivity.
  - apply (view_grouped_by parentName aggregateStep aggregateStep_spec).
  - apply (view_grouped_by parentName Frontend.aggregateStep frontend_aggregateStep_spec).
  - intros seg more Hseg. split.
    + rewrite <-(append_empty_r seg) at 1. apply parentName_dotted; auto.
    + apply parentName_dotted; eauto.
Qed.

(** C1, as the spec words it, fails: [.text.main] and [.text.main.cold] do
    not make a group named [.text.main]; the only group is [.text]. *)
Lemma aggregate_text_main_counterexample :
  sec_name <$> aggregateSections [raw ".text.main" 10; raw ".text.main.cold" 5] = [".text"] ∧
  ¬ ∃ g, g ∈ aggregateSections [raw ".text.main" 10; raw ".text.main.cold" 5] ∧
         sec_name g = ".text.main".
Proof.
  split; [reflexivity|].
  intros (g & Hg & Hname). vm_compute in Hg.
  apply list_elem_of_singleton in Hg. by subst g.
Qed.

(** C6, as the spec words it, fails from 2^53 on, where JavaScript's sums
    round: the three sections add up to 2^53 as the input is summed, and
    their two groups to 2^53 + 2. *)
Lemma aggregate_total_counterexample :
  Js.sum sec_size [raw ".a.x" (2 ^ 53); raw ".b.x" 1; raw ".b.y" 1] = 2 ^ 53 ∧
  Js.sum sec_size (aggregateSections [raw ".a.x" (2 ^ 53); raw ".b.x" 1; raw ".b.y" 1])
    = 2 ^ 53 + 2 ∧
  Js.sum sec_size (aggregateSections [raw ".a.x" (2 ^ 53); raw ".b.x" 1; raw ".b.y" 1])
    ≠ Js.sum sec_size [raw ".a.x" (2 ^ 53); raw ".b.x" 1; raw ".b.y" 1].
Proof. split_and!; [by vm_compute..|]. by vm_compute. Qed.

(** C6, as the code has it: when the sizes are not negative and add up to no
    more than 2^53, aggregation neither loses nor gains size: the sizes of
    the groups add up to the sizes of the sections, and both sums are the
    exact ones. *)
Theorem aggregate_preserves_total_size (sections : list Sect) :
  Forall (λ s, 0 ≤ sec_size s) sections →
  exactSum sec_size sections ≤ 2 ^ 53 →
  Js.sum sec_size (aggregateSections sections) = Js.sum sec_size sections ∧
  Js.sum sec_size sections = exactSum sec_size sections.
Proof.
  intros Hpos Hb.
  rewrite (sum_exact_nonneg sec_size sections) by done. split; [|done].
  by apply (view_total_exact parentName aggregateStep aggregateStep_spec).
Qed.

Lemma aggregate_preserves_total_witness :
  Js.sum sec_size (aggregateSections
                     [raw ".text.main" 3072; raw ".text.init" 512; raw ".bss" (2 ^ 52)])
    = Js.sum sec_size [raw ".text.main" 3072; raw ".text.init" 512; raw ".bss" (2 ^ 52)] ∧
  Js.sum sec_size [raw ".text.main" 3072; raw ".text.init" 512; raw ".bss" (2 ^ 52)]
    = exactSum sec_size [raw ".text.main" 3072; raw ".text.init" 512; raw ".bss" (2 ^ 52)].
Proof.
  apply (aggregate_preserves_total_size
           [raw ".text.main" 3072; raw ".text.init" 512; raw ".bss" (2 ^ 52)]).
  - repeat constructor; by vm_compute.
  - by vm_compute.
Defined.

(** * SummaryComparer *)

(** ** Sets, prefixes and sorted lists *)

Lemma to_set_from acc l :
  NoDup acc →
  NoDup (foldl Js.set_add acc l) ∧ ∀ x, x ∈ foldl Js.set_add acc l ↔ x ∈ acc ∨ x ∈ l.
Proof.
  revert acc. induction l as [|y l IH]; intros acc Hacc; simpl.
  - split; [done|]. intros x. rewrite elem_of_nil. tauto.
  - assert (NoDup (Js.set_add acc y)) as Hnd.
    { unfold Js.set_add. case_decide as Hy; [done|].
      apply NoDup_app. split_and!; [done| |apply NoDup_singleton].
      by intros x Hx ->%list_elem_of_singleton. }
    destruct (IH _ Hnd) as [IH1 IH2]. split; [done|].
    intros x. rewrite IH2, elem_of_cons. unfold Js.set_add.
    case_decide as Hy.
    + split; [tauto|]. intros [?|[->|?]]; auto.
    + rewrite elem_of_app, list_elem_of_singleton. tauto.
Qed.

Lemma NoDup_to_set l : NoDup (Js.to_set l).
Proof. apply to_set_from. constructor. Qed.

Lemma elem_of_to_set x l : x ∈ Js.to_set l ↔ x ∈ l.
Proof.
  unfold Js.to_set. rewrite (proj2 (to_set_from [] l (NoDup_nil_2))).
  rewrite elem_of_nil. tauto.
Qed.


Lemma slice0_take {A} n (l : list A) : 0 ≤ n → Js.slice0 n l = take (Z.to_nat n) l.
Proof. intros Hn. unfold Js.slice0. by rewrite decide_True. Qed.




Lemma NoDup_fmap_omap {A B C} `{!EqDecision C} (f : A → option B) (g : B → C) (h : A → C) l :
  (∀ a b, f a = Some b → g b = h a) →
  NoDup (h <$> l) → NoDup (g <$> omap f l).
Proof.
  intros Hfg. induction l as [|a l IH]; simpl; [done|].
  intros [Ha Hl]%NoDup_cons. destruct (f a) as [b|] eqn:Hfa; simpl; [|auto].
  apply NoDup_cons. split; [|auto].
  intros (b' & Hb' & (a' & Ha' & Hfa')%list_elem_of_omap)%list_elem_of_fmap.
  apply Ha. apply list_elem_of_fmap. exists a'. split; [|done].
  rewrite <-(Hfg _ _ Hfa), <-(Hfg _ _ Hfa'). done.
Qed.

(** Two entries of a list with distinct names are equal when their names are. *)
Lemma NoDup_fmap_eq {A B} (f : A → B) l x y :
  NoDup (f <$> l) → x ∈ l → y ∈ l → f x = f y → x = y.
Proof.
  induction l as [|a l IH]; simpl; [by intros _ ?%elem_of_nil|].
  intros [Ha Hl]%NoDup_cons [->|Hx]%elem_of_cons [->|Hy]%elem_of_cons Hf; auto.
  - destruct Ha. rewrite Hf. by apply list_elem_of_fmap_2.
  - destruct Ha. rewrite <-Hf. by apply list_elem_of_fmap_2.
Qed.

(** ** The name-keyed maps and the section diffs *)

Lemma sectionMap_snoc l s :
  Compare.sectionMap (mkAnalysis (l ++ [s])) =
    OMap.set (sec_name s) s (Compare.sectionMap (mkAnalysis l)).
Proof.
  unfold Compare.sectionMap, OMap.of_list. cbn [an_sections].
  by rewrite fmap_app, foldl_app.
Qed.

(** A later section of the same name replaces the earlier one in the map. *)
Lemma sectionMap_get n (a : Analysis) :
  OMap.get n (Compare.sectionMap a) = lastNamed n (an_sections a).
Proof.
  destruct a as [l]. simpl. unfold lastNamed.
  induction l as [|s l IH] using rev_ind; [done|].
  rewrite sectionMap_snoc, get_set, filter_app, filter_cons, filter_nil.
  destruct (decide (n = sec_name s)) as [->|Hn].
  - rewrite decide_True by done. by rewrite last_snoc.
  - rewrite decide_False by done. by rewrite app_nil_r.
Qed.

Lemma NoDup_allSectionNames sA sB : NoDup (Compare.allSectionNames sA sB).
Proof. apply NoDup_to_set. Qed.

Section CompareFacts.
Context `{FloatOps}.

Lemma sectionDiffOf_Some iu sA sB n d :
  Compare.sectionDiffOf iu sA sB n = Some d →
  Compare.sd_name d = n ∧
  Compare.sd_sizeA d = from_option sec_size 0 (OMap.get n sA) ∧
  Compare.sd_sizeB d = from_option sec_size 0 (OMap.get n sB) ∧
  Compare.sd_delta d = Compare.sd_sizeB d - Compare.sd_sizeA d ∧
  (iu = false → Compare.sd_delta d ≠ 0).
Proof.
  unfold Compare.sectionDiffOf.
  destruct (negb iu && bool_decide (_ = 0)) eqn:Hskip; [done|].
  intros [= <-]. simpl. split_and!; try done.
  intros ->. simpl in Hskip. by apply bool_decide_eq_false in Hskip.
Qed.

Lemma elem_of_sectionDiffsOf iu a b d :
  d ∈ Compare.sectionDiffsOf iu a b →
  Compare.sectionDiffOf iu (Compare.sectionMap a) (Compare.sectionMap b)
    (Compare.sd_name d) = Some d.
Proof.
  unfold Compare.sectionDiffsOf.
  intros (n & _ & Hd)%list_elem_of_omap.
  by destruct (sectionDiffOf_Some _ _ _ _ _ Hd) as [<- _].
Qed.

Lemma NoDup_sectionDiffsOf iu a b :
  NoDup (Compare.sd_name <$> Compare.sectionDiffsOf iu a b).
Proof.
  unfold Compare.sectionDiffsOf.
  eapply (NoDup_fmap_omap _ _ id).
  - intros n d Hd. by destruct (sectionDiffOf_Some _ _ _ _ _ Hd) as [-> _].
  - rewrite list_fmap_id. apply NoDup_allSectionNames.
Qed.

Lemma elem_of_sections a b opts d :
  d ∈ Compare.sections (Compare.compareAnalyses a b opts) ↔
  d ∈ Compare.sectionDiffsOf (default false (Compare.includeUnchanged opts)) a b.
Proof. simpl. apply elem_of_sort. Qed.


End CompareFacts.

(** The exact-arithmetic instance satisfies the two facts about [toFixed(2)]. *)
Lemma exactFloat_laws : @FloatLaws exactFloat.
Proof. split; apply Qc_is_canon; reflexivity. Defined.

(** C5: for every section diff of a comparison of inputs whose sizes are not
    negative, the status is [added] exactly when [sizeA] is 0, [removed]
    exactly when [sizeB] is 0 and [sizeA] is positive, and [modified] in every
    other case; [deltaPct] is 100 when [sizeA] is 0 and [sizeB] is positive,
    and 0 when both sizes are 0. *)
Theorem section_diff_status_and_pct `{FloatOps} `{!FloatLaws}
    (a b : Analysis) (opts : Compare.Options) (d : Compare.SectionDiff) :
  Forall (λ s, 0 ≤ sec_size s) (an_sections a) →
  d ∈ Compare.sections (Compare.compareAnalyses a b opts) →
  (Compare.sd_status d = Compare.added ↔ Compare.sd_sizeA d = 0) ∧
  (Compare.sd_status d = Compare.removed ↔
     Compare.sd_sizeB d = 0 ∧ 0 < Compare.sd_sizeA d) ∧
  (Compare.sd_status d = Compare.modified ↔
     ¬ Compare.sd_sizeA d = 0 ∧ ¬ (Compare.sd_sizeB d = 0 ∧ 0 < Compare.sd_sizeA d)) ∧
  (Compare.sd_sizeA d = 0 → 0 < Compare.sd_sizeB d → Compare.sd_deltaPct d = Q2Qc 100) ∧
  (Compare.sd_sizeA d = 0 → Compare.sd_sizeB d = 0 → Compare.sd_deltaPct d = 0%Qc).
Proof.
  intros Hpos Hd%elem_of_sections%elem_of_sectionDiffsOf.
  assert (0 ≤ from_option sec_size 0
                (OMap.get (Compare.sd_name d) (Compare.sectionMap a))) as HA.
  { rewrite sectionMap_get. unfold lastNamed.
    destruct (last _) as [s|] eqn:Hs; simpl; [|done].
    apply last_Some_elem_of, list_elem_of_filter in Hs as [_ Hs].
    rewrite Forall_forall in Hpos. auto. }
  revert Hd HA. unfold Compare.sectionDiffOf.
  generalize (from_option sec_size 0 (OMap.get (Compare.sd_name d) (Compare.sectionMap a))).
  generalize (from_option sec_size 0 (OMap.get (Compare.sd_name d) (Compare.sectionMap b))).
  intros sizeB sizeA. cbv zeta.
  destruct (negb _ && _); [done|]. intros [= <-] HA. simpl.
  split_and!.
  - repeat case_decide; split; (done || lia).
  - repeat case_decide; split; (done || lia).
  - repeat case_decide; split; (done || lia).
  - intros -> HB. rewrite decide_False by lia. rewrite decide_True by done.
    apply toFixed2_100.
  - intros -> ->. rewrite !decide_False by lia. apply toFixed2_0.
Qed.

(** C5 at work: [.bss.b] is new in the second build. *)
Lemma section_diff_status_witness :
  Forall (λ s, 0 ≤ sec_size s) (an_sections buildA) ∧
  Compare.mkSectionDiff ".bss.b" None None None 0 7000 7000
      (@toFixed2 exactFloat (Q2Qc 100)) Compare.added
    ∈ Compare.sections (@Compare.compareAnalyses exactFloat buildA buildB noOptions) ∧
  (Compare.added = Compare.added ↔ 0 = 0) ∧
  (Compare.added = Compare.removed ↔ 7000 = 0 ∧ 0 < 0) ∧
  (Compare.added = Compare.modified ↔ ¬ 0 = 0 ∧ ¬ (7000 = 0 ∧ 0 < 0)) ∧
  (0 = 0 → 0 < 7000 → @toFixed2 exactFloat (Q2Qc 100) = Q2Qc 100) ∧
  (0 = 0 → 7000 = 0 → @toFixed2 exactFloat (Q2Qc 100) = 0%Qc).
Proof.
  assert (Forall (λ s, 0 ≤ sec_size s) (an_sections buildA)) as Hpos
    by (repeat constructor; simpl; lia).
  assert (Compare.mkSectionDiff ".bss.b" None None None 0 7000 7000
            (@toFixed2 exactFloat (Q2Qc 100)) Compare.added
          ∈ Compare.sections (@Compare.compareAnalyses exactFloat buildA buildB noOptions))
    as Hd by (vm_compute; left).
  split; [exact Hpos|]. split; [exact Hd|].
  exact (@section_diff_status_and_pct exactFloat exactFloat_laws
           buildA buildB noOptions _ Hpos Hd).
Defined.

(** ** The top lists *)



Section TopLists.
Context `{FloatOps} (a b : Analysis) (opts : Compare.Options).

Let diffs := Compare.sectionDiffsOf (default false (Compare.includeUnchanged opts)) a b.
Let n := default 20 (Compare.topN opts).
Let r := Compare.compareAnalyses a b opts.








End TopLists.


(** The largest shrink first: two sections shrink, by 100 bytes and by 1. *)
Example top_decreases_run :
  Compare.sd_delta <$>
    Compare.topDecreases (@Compare.compareAnalyses exactFloat shrinkA shrinkB noOptions)
    = [-100; -1].
Proof. reflexivity. Qed.

(** ** A build compared with itself *)

Section CompareSame.
Context `{FloatOps}.

Lemma sectionDiffOf_same m n : Compare.sectionDiffOf false m m n = None.
Proof.
  unfold Compare.sectionDiffOf. cbv zeta.
  rewrite Z.sub_diag. by rewrite bool_decide_eq_true_2.
Qed.

Lemma sectionDiffsOf_same a : Compare.sectionDiffsOf false a a = [].
Proof.
  unfold Compare.sectionDiffsOf. cbv zeta.
  induction (Compare.allSectionNames _ _) as [|n l IH]; [done|].
  simpl. by rewrite sectionDiffOf_same.
Qed.

Lemma detectAnomalies_nil thresholdPct thresholdBytes :
  0 ≤ thresholdBytes → Compare.detectAnomalies [] [] thresholdPct thresholdBytes = [].
Proof.
  intros Hb. unfold Compare.detectAnomalies, Compare.bssAnomaly. simpl.
  rewrite filter_nil, sum_nil. by rewrite decide_False by lia.
Qed.

End CompareSame.

(** C7: a build compared with itself, with [includeUnchanged] false and a
    byte threshold that is not negative (the default 1024 is not), has no
    section diffs and no anomalies. *)
Theorem compare_same_is_empty `{FloatOps} (a : Analysis) (opts : Compare.Options) :
  default false (Compare.includeUnchanged opts) = false →
  0 ≤ default 1024 (Compare.anomalyThresholdBytes opts) →
  Compare.sections (Compare.compareAnalyses a a opts) = [] ∧
  Compare.anomalies (Compare.compareAnalyses a a opts) = [].
Proof.
  intros Hiu Hb. unfold Compare.compareAnalyses. cbv zeta. simpl.
  rewrite Hiu, sectionDiffsOf_same. split; [done|].
  by apply detectAnomalies_nil.
Qed.

(** C7 at work on the default options. *)
Lemma compare_same_witness :
  default false (Compare.includeUnchanged noOptions) = false ∧
  0 ≤ default 1024 (Compare.anomalyThresholdBytes noOptions) ∧
  Compare.sections (@Compare.compareAnalyses exactFloat buildA buildA noOptions) = [] ∧
  Compare.anomalies (@Compare.compareAnalyses exactFloat buildA buildA noOptions) = [].
Proof.
  split; [reflexivity|]. split; [simpl; lia|].
  apply (@compare_same_is_empty exactFloat buildA noOptions); [reflexivity|simpl; lia].
Defined.

(** Duplicates at work: the first build has two sections named [.text]; the
    diff sees the last one only, the summary counts both. *)
Example compare_duplicates_run :
  (λ d, (Compare.sd_name d, Compare.sd_sizeA d, Compare.sd_sizeB d)) <$>
    Compare.sections
      (@Compare.compareAnalyses exactFloat
         (mkAnalysis [raw ".text" 10; raw ".text" 30]) (mkAnalysis [raw ".text" 50])
         noOptions)
    = [(".text", 30, 50)] ∧
  Compare.totalSectionsA (Compare.summary
      (@Compare.compareAnalyses exactFloat
         (mkAnalysis [raw ".text" 10; raw ".text" 30]) (mkAnalysis [raw ".text" 50])
         noOptions)) = 2 ∧
  Compare.totalFlashA (Compare.summary
      (@Compare.compareAnalyses exactFloat
         (mkAnalysis [raw ".text" 10; raw ".text" 30]) (mkAnalysis [raw ".text" 50])
         noOptions)) = 40.
Proof. split_and!; reflexivity. Qed.

(** * VersionDiffer *)

Lemma keyedMap_snoc l s :
  MemoryDiff.keyedMap (mkAnalysis (l ++ [s])) =
    OMap.set (MemoryDiff.keyOf s) s (MemoryDiff.keyedMap (mkAnalysis l)).
Proof. unfold MemoryDiff.keyedMap. cbn [an_sections]. by rewrite foldl_app. Qed.

(** The map holds, for each key, the last section with that key. *)
Lemma keyedMap_get k (a : Analysis) :
  OMap.get k (MemoryDiff.keyedMap a) = lastKeyed k (an_sections a).
Proof.
  destruct a as [l]. simpl. unfold lastKeyed.
  induction l as [|s l IH] using rev_ind; [done|].
  rewrite keyedMap_snoc, get_set, filter_app, filter_cons, filter_nil.
  destruct (decide (k = MemoryDiff.keyOf s)) as [->|Hk].
  - rewrite decide_True by done. by rewrite last_snoc.
  - rewrite decide_False by done. by rewrite app_nil_r.
Qed.

Lemma last_filter_Some {A} (P : A → Prop) `{!∀ x, Decision (P x)} (l : list A) :
  is_Some (last (filter P l)) ↔ ∃ x, x ∈ l ∧ P x.
Proof.
  split.
  - intros [x Hx]. apply last_Some_elem_of, list_elem_of_filter in Hx. naive_solver.
  - intros (x & Hx & HP).
    destruct (last (filter P l)) as [y|] eqn:Hl; [done|].
    apply last_None in Hl.
    assert (x ∈ filter P l) as Hin by by apply list_elem_of_filter.
    rewrite Hl in Hin. by apply elem_of_nil in Hin.
Qed.

(** The keys of a run: those of the sections of either version. *)
Lemma elem_of_allKeys k (a b : Analysis) :
  k ∈ MemoryDiff.allKeys (MemoryDiff.keyedMap a) (MemoryDiff.keyedMap b) ↔
  ∃ s, (s ∈ an_sections a ∨ s ∈ an_sections b) ∧ MemoryDiff.keyOf s = k.
Proof.
  unfold MemoryDiff.allKeys. rewrite elem_of_to_set, elem_of_app.
  assert (∀ c : Analysis, k ∈ OMap.keys (MemoryDiff.keyedMap c) ↔
                          ∃ s, s ∈ an_sections c ∧ MemoryDiff.keyOf s = k) as Hkeys.
  { intros c.
    rewrite <-(last_filter_Some (λ s, MemoryDiff.keyOf s = k)).
    change (last (filter _ (an_sections c))) with (lastKeyed k (an_sections c)).
    rewrite <-keyedMap_get. rewrite <-not_eq_None_Some, get_None.
    destruct (decide (k ∈ OMap.keys (MemoryDiff.keyedMap c))); tauto. }
  rewrite !Hkeys. naive_solver.
Qed.

Section MemoryDiffFacts.
Context `{FloatOps}.

Lemma elem_of_diffLoop k p (a b : Analysis) opts :
  (k, p) ∈ MemoryDiff.diffLoop a b opts ↔
  k ∈ MemoryDiff.allKeys (MemoryDiff.keyedMap a) (MemoryDiff.keyedMap b) ∧
  p = MemoryDiff.diffStep opts
        (OMap.get k (MemoryDiff.keyedMap a)) (OMap.get k (MemoryDiff.keyedMap b)) k.
Proof.
  unfold MemoryDiff.diffLoop. cbv zeta. rewrite list_elem_of_fmap. naive_solver.
Qed.

Lemma elem_of_keyedEntries k e (a b : Analysis) opts :
  (k, e) ∈ keyedEntries a b opts ↔
  k ∈ MemoryDiff.allKeys (MemoryDiff.keyedMap a) (MemoryDiff.keyedMap b) ∧
  e = (MemoryDiff.diffStep opts
         (OMap.get k (MemoryDiff.keyedMap a)) (OMap.get k (MemoryDiff.keyedMap b)) k).1.
Proof.
  unfold keyedEntries. rewrite list_elem_of_fmap. split.
  - intros ([k' p] & [= -> ->] & [Hk ->]%elem_of_diffLoop). done.
  - intros [Hk ->]. eexists (k, _). split; [done|]. by apply elem_of_diffLoop.
Qed.

Lemma elem_of_diff e (a b : Analysis) opts :
  e ∈ MemoryDiff.diff (MemoryDiff.computeMemoryDiff a b opts) ↔
  ∃ k, (k, e) ∈ keyedEntries a b opts.
Proof.
  simpl. rewrite elem_of_sort. unfold keyedEntries.
  rewrite !list_elem_of_fmap. split.
  - intros (p & -> & ([k p'] & -> & Hin)%list_elem_of_fmap). simpl.
    exists k. apply list_elem_of_fmap. by exists (k, p').
  - intros (k & ([k' p'] & [= -> ->] & Hin)%list_elem_of_fmap).
    exists p'. split; [done|]. apply list_elem_of_fmap. by exists (k', p').
Qed.

Lemma elem_of_anomalies an (a b : Analysis) opts :
  an ∈ MemoryDiff.anomalies (MemoryDiff.computeMemoryDiff a b opts) ↔
  ∃ k e, (k, (e, Some an)) ∈ MemoryDiff.diffLoop a b opts.
Proof.
  simpl. rewrite elem_of_sort, list_elem_of_omap. split.
  - intros (p & ([k [e oa]] & -> & Hin)%list_elem_of_fmap & Hoa).
    simpl in Hoa. subst oa. by exists k, e.
  - intros (k & e & Hin). exists (e, Some an). split; [|done].
    apply list_elem_of_fmap. by exists (k, (e, Some an)).
Qed.

(** Exchanging the two versions mirrors the entry of a key. *)
Lemma diffStep_mirrored opts v1 v2 k :
  mirrored (MemoryDiff.diffStep opts v1 v2 k).1 (MemoryDiff.diffStep opts v2 v1 k).1 ∧
  MemoryDiff.de_name (MemoryDiff.diffStep opts v1 v2 k).1 =
    MemoryDiff.de_name (MemoryDiff.diffStep opts v2 v1 k).1 ∧
  MemoryDiff.de_filePath (MemoryDiff.diffStep opts v1 v2 k).1 =
    MemoryDiff.de_filePath (MemoryDiff.diffStep opts v2 v1 k).1.
Proof.
  unfold mirrored, MemoryDiff.diffStep. simpl.
  split_and!; try done; try lia;
    destruct v1, v2; simpl; repeat case_decide; split; (done || lia).
Qed.

End MemoryDiffFacts.

(** C3: [diff(A, B)] and [diff(B, A)] have diff entries for the same keys,
    the keys of the sections of either input; for every key the two entries
    have [sizeV1] and [sizeV2] exchanged and [sizeDiff] negated, and one has
    status [added] exactly when the other has [removed]; so every entry of
    one result has its mirror image, under the same name and file path, in
    the other. *)
Theorem diff_swaps_versions `{FloatOps} (a b : Analysis) (opts : MemoryDiff.Options) :
  (∀ k, k ∈ (keyedEntries a b opts).*1 ↔ k ∈ (keyedEntries b a opts).*1) ∧
  (∀ k, k ∈ (keyedEntries a b opts).*1 ↔
        ∃ s, (s ∈ an_sections a ∨ s ∈ an_sections b) ∧ MemoryDiff.keyOf s = k) ∧
  (∀ k e e', (k, e) ∈ keyedEntries a b opts → (k, e') ∈ keyedEntries b a opts →
             mirrored e e') ∧
  (∀ e, e ∈ MemoryDiff.diff (MemoryDiff.computeMemoryDiff a b opts) →
        ∃ e', e' ∈ MemoryDiff.diff (MemoryDiff.computeMemoryDiff b a opts) ∧
              MemoryDiff.de_name e' = MemoryDiff.de_name e ∧
              MemoryDiff.de_filePath e' = MemoryDiff.de_filePath e ∧
              mirrored e e').
Proof.
  assert (∀ (x y : Analysis) k, k ∈ (keyedEntries x y opts).*1 ↔
            ∃ s, (s ∈ an_sections x ∨ s ∈ an_sections y) ∧ MemoryDiff.keyOf s = k) as Hkeys.
  { intros x y k. rewrite <-elem_of_allKeys, list_elem_of_fmap. split.
    - intros ([k' e] & -> & [Hk _]%elem_of_keyedEntries). done.
    - intros Hk. eexists (k, _). split; [done|]. by apply elem_of_keyedEntries. }
  split_and!.
  - intros k. rewrite !Hkeys. naive_solver.
  - apply Hkeys.
  - intros k e e' [_ ->]%elem_of_keyedEntries [_ ->]%elem_of_keyedEntries.
    apply diffStep_mirrored.
  - intros e [k Hke]%elem_of_diff.
    assert (k ∈ (keyedEntries b a opts).*1) as Hk.
    { apply Hkeys. assert (k ∈ (keyedEntries a b opts).*1) as Hk'.
      { apply list_elem_of_fmap. by exists (k, e). }
      apply Hkeys in Hk'. naive_solver. }
    apply list_elem_of_fmap in Hk as ([k' e'] & -> & Hke'). simpl in *.
    exists e'. split; [apply elem_of_diff; eauto|].
    apply elem_of_keyedEntries in Hke as [_ ->].
    apply elem_of_keyedEntries in Hke' as [_ ->].
    destruct (diffStep_mirrored opts (OMap.get k' (MemoryDiff.keyedMap a))
                (OMap.get k' (MemoryDiff.keyedMap b)) k') as (Hm & Hn & Hf).
    by rewrite Hn, Hf.
Qed.

(** ** Anomalies of added and removed sections *)

Section AnomalyReasons.
Context (P Q R S : Prop) `{!Decision P, !Decision Q, !Decision R, !Decision S}.
Context (x y : Z) (g : Qc) (gb : Z) (s : Qc) (sb : Z) (shifted : bool) (by_ : Js.num).

Let reasons : list MemoryDiff.Reason :=
  (if decide P then [MemoryDiff.NewSection x] else []) ++
  (if decide Q then [MemoryDiff.RemovedSection y] else []) ++
  (if decide R then [MemoryDiff.Grew g gb] else []) ++
  (if decide S then [MemoryDiff.Shrunk s sb] else []) ++
  (if shifted then [MemoryDiff.AddressShifted by_] else []).

Lemma new_reason_iff n : MemoryDiff.NewSection n ∈ reasons ↔ P ∧ n = x.
Proof.
  unfold reasons. rewrite !elem_of_app.
  destruct (decide P), (decide Q), (decide R), (decide S), shifted;
    rewrite ?list_elem_of_singleton, ?elem_of_nil; naive_solver.
Qed.

Lemma removed_reason_iff n : MemoryDiff.RemovedSection n ∈ reasons ↔ Q ∧ n = y.
Proof.
  unfold reasons. rewrite !elem_of_app.
  destruct (decide P), (decide Q), (decide R), (decide S), shifted;
    rewrite ?list_elem_of_singleton, ?elem_of_nil; naive_solver.
Qed.

End AnomalyReasons.

Lemma elem_of_length_pos {A} (x : A) l : x ∈ l → (0 < length l)%nat.
Proof. destruct 1; simpl; lia. Qed.

Section StepAnomaly.
Context `{FloatOps} (opts : MemoryDiff.Options) (v1 v2 : option Sect) (k : string).

Let e := (MemoryDiff.diffStep opts v1 v2 k).1.
Let oa := (MemoryDiff.diffStep opts v1 v2 k).2.

Lemma diffStep_entry an : oa = Some an → MemoryDiff.an_entry an = e.
Proof.
  unfold oa, e, MemoryDiff.diffStep. cbv zeta. cbn [fst snd].
  destruct (decide (0 < length _)%nat); [|done]. by intros [= <-].
Qed.

Lemma diffStep_new_reason an n :
  oa = Some an →
  MemoryDiff.NewSection n ∈ MemoryDiff.an_reasons an ↔
  MemoryDiff.de_status e = MemoryDiff.added ∧ 1024 < MemoryDiff.de_sizeV2 e ∧
  n = MemoryDiff.de_sizeV2 e.
Proof.
  unfold oa, e, MemoryDiff.diffStep. cbv zeta. cbn [fst snd].
  destruct (decide (0 < length _)%nat); [|done]. intros [= <-].
  cbn [MemoryDiff.an_reasons]. rewrite new_reason_iff. simpl. tauto.
Qed.

Lemma diffStep_removed_reason an n :
  oa = Some an →
  MemoryDiff.RemovedSection n ∈ MemoryDiff.an_reasons an ↔
  MemoryDiff.de_status e = MemoryDiff.removed ∧ 1024 < MemoryDiff.de_sizeV1 e ∧
  n = MemoryDiff.de_sizeV1 e.
Proof.
  unfold oa, e, MemoryDiff.diffStep. cbv zeta. cbn [fst snd].
  destruct (decide (0 < length _)%nat); [|done]. intros [= <-].
  cbn [MemoryDiff.an_reasons]. rewrite removed_reason_iff. simpl. tauto.
Qed.

Lemma diffStep_new_raised :
  MemoryDiff.de_status e = MemoryDiff.added → 1024 < MemoryDiff.de_sizeV2 e →
  ∃ an, oa = Some an.
Proof.
  unfold oa, e, MemoryDiff.diffStep. cbv zeta.
  cbn [fst snd MemoryDiff.de_status MemoryDiff.de_sizeV1 MemoryDiff.de_sizeV2].
  intros Hst Hsz. destruct (decide (0 < length _)%nat) as [Hlen|Hlen]; [eauto|].
  destruct Hlen. eapply elem_of_length_pos, new_reason_iff. eauto.
Qed.

Lemma diffStep_removed_raised :
  MemoryDiff.de_status e = MemoryDiff.removed → 1024 < MemoryDiff.de_sizeV1 e →
  ∃ an, oa = Some an.
Proof.
  unfold oa, e, MemoryDiff.diffStep. cbv zeta.
  cbn [fst snd MemoryDiff.de_status MemoryDiff.de_sizeV1 MemoryDiff.de_sizeV2].
  intros Hst Hsz. destruct (decide (0 < length _)%nat) as [Hlen|Hlen]; [eauto|].
  destruct Hlen. eapply elem_of_length_pos, removed_reason_iff. eauto.
Qed.

Lemma diffStep_severity an :
  oa = Some an →
  MemoryDiff.de_status e = MemoryDiff.added ∨ MemoryDiff.de_status e = MemoryDiff.removed →
  MemoryDiff.an_severity an =
    if decide (10240 < Z.abs (MemoryDiff.de_sizeDiff e))
    then MemoryDiff.critical else MemoryDiff.high.
Proof.
  unfold oa, e, MemoryDiff.diffStep. cbv zeta. cbn [fst snd].
  destruct (decide (0 < length _)%nat); [|done]. intros [= <-].
  cbn [MemoryDiff.an_severity MemoryDiff.de_status MemoryDiff.de_sizeDiff]. intros Hst.
  unfold MemoryDiff.determineSeverity. by rewrite (decide_True _ _ Hst).
Qed.

End StepAnomaly.

Section DiffAnomalies.
Context `{FloatOps} (a b : Analysis) (opts : MemoryDiff.Options).

Let r := MemoryDiff.computeMemoryDiff a b opts.

(** Every anomaly is the one pushed with the entry of some key. *)
Lemma anomaly_of_step an :
  an ∈ MemoryDiff.anomalies r →
  ∃ k v1 v2, (MemoryDiff.diffStep opts v1 v2 k).2 = Some an ∧
             MemoryDiff.an_entry an = (MemoryDiff.diffStep opts v1 v2 k).1.
Proof.
  intros (k & e & [_ Hp]%elem_of_diffLoop)%elem_of_anomalies.
  exists k, (OMap.get k (MemoryDiff.keyedMap a)), (OMap.get k (MemoryDiff.keyedMap b)).
  rewrite <-Hp. split; [done|]. simpl.
  symmetry in Hp. apply (f_equal snd) in Hp as Hoa. simpl in Hoa.
  apply diffStep_entry in Hoa. by rewrite Hoa, Hp.
Qed.

Lemma entry_of_step e :
  e ∈ MemoryDiff.diff r →
  ∃ k, k ∈ MemoryDiff.allKeys (MemoryDiff.keyedMap a) (MemoryDiff.keyedMap b) ∧
       e = (MemoryDiff.diffStep opts (OMap.get k (MemoryDiff.keyedMap a))
              (OMap.get k (MemoryDiff.keyedMap b)) k).1.
Proof. intros [k Hk%elem_of_keyedEntries]%elem_of_diff. eauto. Qed.

Lemma step_anomaly_in k an :
  k ∈ MemoryDiff.allKeys (MemoryDiff.keyedMap a) (MemoryDiff.keyedMap b) →
  (MemoryDiff.diffStep opts (OMap.get k (MemoryDiff.keyedMap a))
     (OMap.get k (MemoryDiff.keyedMap b)) k).2 = Some an →
  an ∈ MemoryDiff.anomalies r.
Proof.
  intros Hk Han. apply elem_of_anomalies.
  exists k, (MemoryDiff.diffStep opts (OMap.get k (MemoryDiff.keyedMap a))
               (OMap.get k (MemoryDiff.keyedMap b)) k).1.
  apply elem_of_diffLoop. split; [done|]. rewrite <-Han. by destruct (MemoryDiff.diffStep _ _ _ _).
Qed.

Lemma added_large_is_anomaly e :
  e ∈ MemoryDiff.diff r →
  MemoryDiff.de_status e = MemoryDiff.added → 1024 < MemoryDiff.de_sizeV2 e →
  ∃ an, an ∈ MemoryDiff.anomalies r ∧ MemoryDiff.an_entry an = e ∧
        MemoryDiff.NewSection (MemoryDiff.de_sizeV2 e) ∈ MemoryDiff.an_reasons an.
Proof.
  intros (k & Hk & ->)%entry_of_step Hst Hsz.
  destruct (diffStep_new_raised _ _ _ _ Hst Hsz) as [an Han].
  exists an. split_and!.
  - by eapply step_anomaly_in.
  - by apply diffStep_entry.
  - by apply (diffStep_new_reason _ _ _ _ _ _ Han).
Qed.

Lemma removed_large_is_anomaly e :
  e ∈ MemoryDiff.diff r →
  MemoryDiff.de_status e = MemoryDiff.removed → 1024 < MemoryDiff.de_sizeV1 e →
  ∃ an, an ∈ MemoryDiff.anomalies r ∧ MemoryDiff.an_entry an = e ∧
        MemoryDiff.RemovedSection (MemoryDiff.de_sizeV1 e) ∈ MemoryDiff.an_reasons an.
Proof.
  intros (k & Hk & ->)%entry_of_step Hst Hsz.
  destruct (diffStep_removed_raised _ _ _ _ Hst Hsz) as [an Han].
  exists an. split_and!.
  - by eapply step_anomaly_in.
  - by apply diffStep_entry.
  - by apply (diffStep_removed_reason _ _ _ _ _ _ Han).
Qed.

Lemma new_reason_exactly an :
  an ∈ MemoryDiff.anomalies r →
  hasNewReason an ↔
  MemoryDiff.de_status (MemoryDiff.an_entry an) = MemoryDiff.added ∧
  1024 < MemoryDiff.de_sizeV2 (MemoryDiff.an_entry an).
Proof.
  intros (k & v1 & v2 & Han & ->)%anomaly_of_step. unfold hasNewReason. split.
  - intros [n Hn]. apply (diffStep_new_reason _ _ _ _ _ _ Han) in Hn. tauto.
  - intros [Hst Hsz]. eexists. by apply (diffStep_new_reason _ _ _ _ _ _ Han).
Qed.

Lemma removed_reason_exactly an :
  an ∈ MemoryDiff.anomalies r →
  hasRemovedReason an ↔
  MemoryDiff.de_status (MemoryDiff.an_entry an) = MemoryDiff.removed ∧
  1024 < MemoryDiff.de_sizeV1 (MemoryDiff.an_entry an).
Proof.
  intros (k & v1 & v2 & Han & ->)%anomaly_of_step. unfold hasRemovedReason. split.
  - intros [n Hn]. apply (diffStep_removed_reason _ _ _ _ _ _ Han) in Hn. tauto.
  - intros [Hst Hsz]. eexists. by apply (diffStep_removed_reason _ _ _ _ _ _ Han).
Qed.

Lemma added_removed_severity an :
  an ∈ MemoryDiff.anomalies r →
  MemoryDiff.de_status (MemoryDiff.an_entry an) = MemoryDiff.added ∨
  MemoryDiff.de_status (MemoryDiff.an_entry an) = MemoryDiff.removed →
  MemoryDiff.an_severity an =
    if decide (10240 < Z.abs (MemoryDiff.de_sizeDiff (MemoryDiff.an_entry an)))
    then MemoryDiff.critical else MemoryDiff.high.
Proof.
  intros (k & v1 & v2 & Han & ->)%anomaly_of_step. by apply diffStep_severity.
Qed.

End DiffAnomalies.

(** The name an entry gets is the section's name when that has no colon. *)
Lemma keyOf_name s :
  Js.includes ":" (sec_name s) = false →
  default "" (Js.split ":" (MemoryDiff.keyOf s) !! 0%nat) = sec_name s.
Proof.
  intros Hname. unfold MemoryDiff.keyOf.
  change (":" +:+ Js.or_str (sec_filePath s) "")
    with (String ":" (Js.or_str (sec_filePath s) "")).
  by rewrite split_at_sep.
Qed.

(** Scenario 4: a section [.bss.x] of 2000 bytes that only the second
    version has. *)
Lemma bss_x_added `{FloatOps} (a b : Analysis) (opts : MemoryDiff.Options) (s : Sect) :
  sec_name s = ".bss.x" → sec_size s = 2000 →
  lastKeyed (MemoryDiff.keyOf s) (an_sections a) = None →
  lastKeyed (MemoryDiff.keyOf s) (an_sections b) = Some s →
  ∃ an, an ∈ MemoryDiff.anomalies (MemoryDiff.computeMemoryDiff a b opts) ∧
        MemoryDiff.an_entry an ∈ MemoryDiff.diff (MemoryDiff.computeMemoryDiff a b opts) ∧
        MemoryDiff.de_name (MemoryDiff.an_entry an) = ".bss.x" ∧
        MemoryDiff.de_status (MemoryDiff.an_entry an) = MemoryDiff.added ∧
        MemoryDiff.de_region (MemoryDiff.an_entry an) = MemoryDiff.RAM ∧
        MemoryDiff.NewSection 2000 ∈ MemoryDiff.an_reasons an ∧
        MemoryDiff.an_severity an = MemoryDiff.high.
Proof.
  intros Hname Hsize Ha Hb.
  set (k := MemoryDiff.keyOf s) in *.
  assert (k ∈ MemoryDiff.allKeys (MemoryDiff.keyedMap a) (MemoryDiff.keyedMap b)) as Hk.
  { apply elem_of_allKeys. exists s. split; [|done]. right.
    apply last_Some_elem_of, list_elem_of_filter in Hb. tauto. }
  set (e := (MemoryDiff.diffStep opts None (Some s) k).1).
  assert (MemoryDiff.de_name e = ".bss.x") as Hn.
  { unfold e, k. cbn. rewrite keyOf_name; rewrite Hname; done. }
  assert (MemoryDiff.de_status e = MemoryDiff.added) as Hst by done.
  assert (MemoryDiff.de_sizeV2 e = 2000) as Hsz by (unfold e; cbn; done).
  assert (MemoryDiff.de_sizeDiff e = 2000) as Hd by (unfold e; cbn; lia).
  assert (MemoryDiff.de_region e = MemoryDiff.RAM) as Hr.
  { unfold e, k. cbn. rewrite keyOf_name; rewrite Hname; done. }
  assert (e ∈ MemoryDiff.diff (MemoryDiff.computeMemoryDiff a b opts)) as He.
  { apply elem_of_diff. exists k. apply elem_of_keyedEntries. split; [done|].
    by rewrite !keyedMap_get, Ha, Hb. }
  destruct (added_large_is_anomaly a b opts e He Hst) as (an & Han & Hent & Hreason);
    [lia|].
  exists an. rewrite Hent. split_and!; try done.
  - by rewrite <-Hsz.
  - rewrite (added_removed_severity a b opts an Han) by (rewrite Hent; auto).
    rewrite Hent, Hd. done.
Qed.

(** C8: in the version diff, whatever the options, an added entry gets a
    "New section" reason exactly when [sizeV2] exceeds 1024 bytes, and a
    removed entry a "Removed section" reason exactly when [sizeV1] does;
    the anomaly of an added or removed entry is [critical] when the absolute
    size difference exceeds 10240 and [high] otherwise. A section [.bss.x] of
    size 2000 that only the second version has comes out [added], in region
    [RAM], with a "New section" reason and severity [high]. *)
Theorem added_removed_anomalies `{FloatOps} (a b : Analysis) (opts : MemoryDiff.Options) :
  (∀ e, e ∈ MemoryDiff.diff (MemoryDiff.computeMemoryDiff a b opts) →
     MemoryDiff.de_status e = MemoryDiff.added → 1024 < MemoryDiff.de_sizeV2 e →
     ∃ an, an ∈ MemoryDiff.anomalies (MemoryDiff.computeMemoryDiff a b opts) ∧
           MemoryDiff.an_entry an = e ∧
           MemoryDiff.NewSection (MemoryDiff.de_sizeV2 e) ∈ MemoryDiff.an_reasons an) ∧
  (∀ an, an ∈ MemoryDiff.anomalies (MemoryDiff.computeMemoryDiff a b opts) →
     hasNewReason an ↔
     MemoryDiff.de_status (MemoryDiff.an_entry an) = MemoryDiff.added ∧
     1024 < MemoryDiff.de_sizeV2 (MemoryDiff.an_entry an)) ∧
  (∀ e, e ∈ MemoryDiff.diff (MemoryDiff.computeMemoryDiff a b opts) →
     MemoryDiff.de_status e = MemoryDiff.removed → 1024 < MemoryDiff.de_sizeV1 e →
     ∃ an, an ∈ MemoryDiff.anomalies (MemoryDiff.computeMemoryDiff a b opts) ∧
           MemoryDiff.an_entry an = e ∧
           MemoryDiff.RemovedSection (MemoryDiff.de_sizeV1 e) ∈ MemoryDiff.an_reasons an) ∧
  (∀ an, an ∈ MemoryDiff.anomalies (MemoryDiff.computeMemoryDiff a b opts) →
     hasRemovedReason an ↔
     MemoryDiff.de_status (MemoryDiff.an_entry an) = MemoryDiff.removed ∧
     1024 < MemoryDiff.de_sizeV1 (MemoryDiff.an_entry an)) ∧
  (∀ an, an ∈ MemoryDiff.anomalies (MemoryDiff.computeMemoryDiff a b opts) →
     MemoryDiff.de_status (MemoryDiff.an_entry an) = MemoryDiff.added ∨
     MemoryDiff.de_status (MemoryDiff.an_entry an) = MemoryDiff.removed →
     MemoryDiff.an_severity an =
       if decide (10240 < Z.abs (MemoryDiff.de_sizeDiff (MemoryDiff.an_entry an)))
       then MemoryDiff.critical else MemoryDiff.high) ∧
  (∀ s, sec_name s = ".bss.x" → sec_size s = 2000 →
     lastKeyed (MemoryDiff.keyOf s) (an_sections a) = None →
     lastKeyed (MemoryDiff.keyOf s) (an_sections b) = Some s →
     ∃ an, an ∈ MemoryDiff.anomalies (MemoryDiff.computeMemoryDiff a b opts) ∧
           MemoryDiff.an_entry an ∈ MemoryDiff.diff (MemoryDiff.computeMemoryDiff a b opts) ∧
           MemoryDiff.de_name (MemoryDiff.an_entry an) = ".bss.x" ∧
           MemoryDiff.de_status (MemoryDiff.an_entry an) = MemoryDiff.added ∧
           MemoryDiff.de_region (MemoryDiff.an_entry an) = MemoryDiff.RAM ∧
           MemoryDiff.NewSection 2000 ∈ MemoryDiff.an_reasons an ∧
           MemoryDiff.an_severity an = MemoryDiff.high).
Proof.
  split_and!.
  - apply added_large_is_anomaly.
  - apply new_reason_exactly.
  - apply removed_large_is_anomaly.
  - apply removed_reason_exactly.
  - apply added_removed_severity.
  - apply bss_x_added.
Qed.

(** Scenario 4 run on the smallest pair of versions. *)
Example bss_x_added_run :
  (λ an, (MemoryDiff.de_status (MemoryDiff.an_entry an),
          MemoryDiff.de_region (MemoryDiff.an_entry an),
          MemoryDiff.an_reasons an, MemoryDiff.an_severity an)) <$>
    MemoryDiff.anomalies
      (@MemoryDiff.computeMemoryDiff exactFloat (mkAnalysis [])
         (mkAnalysis [raw ".bss.x" 2000]) noDiffOptions)
  = [(MemoryDiff.added, MemoryDiff.RAM, [MemoryDiff.NewSection 2000], MemoryDiff.high)].
Proof. reflexivity. Qed.

(** * ResultCache *)

Section StorageFacts.
Context {R : Type}.
Implicit Types (store : gmap string (Storage.Entry R)).

Lemma cleanupExpired_lookup now store id :
  Storage.cleanupExpired now store !! id =
    match store !! id with
    | Some entry =>
        if decide (Storage.expiresAt entry < now) then None else Some entry
    | None => None
    end.
Proof.
  unfold Storage.cleanupExpired.
  destruct (store !! id) as [entry|] eqn:Hid.
  - case_decide as Hexp.
    + apply map_lookup_filter_None. right. intros entry' Hid'. simpl.
      rewrite Hid in Hid'. injection Hid' as <-. tauto.
    + apply map_lookup_filter_Some. done.
  - apply map_lookup_filter_None. by left.
Qed.

(** Sweeps that run before an entry expires leave it in the store. *)
Lemma backgroundSweeps_lookup sweeps store id entry :
  store !! id = Some entry →
  Forall (λ t, t ≤ Storage.expiresAt entry) sweeps →
  Storage.backgroundSweeps sweeps store !! id = Some entry.
Proof.
  unfold Storage.backgroundSweeps. revert store.
  induction sweeps as [|t sweeps IH]; intros store Hid Hts; simpl; [done|].
  apply Forall_cons in Hts as [Ht Hts]. apply IH; [|done].
  rewrite cleanupExpired_lookup, Hid. by rewrite decide_False by lia.
Qed.

End StorageFacts.

(** C9: a [put] followed by a [get] of the returned id, made before the
    entry's time to live has run out, returns the very result that was
    stored, also when the background sweep has run in between; and a [get]
    of an entry whose [expiresAt] lies in the past returns [null] and
    removes the entry from the store. *)
Theorem cache_get_after_put_and_expiry {R : Type} (store : gmap string (Storage.Entry R)) :
  (∀ result ttl env sweeps now,
     Storage.nowAtCleanup env ≤ now → Forall (λ t, t ≤ now) sweeps →
     now ≤ Storage.nowAtExpiry env + default Storage.DEFAULT_TTL ttl →
     Storage.getComparison (Storage.storeComparison result ttl env store).1 now
         (Storage.backgroundSweeps sweeps (Storage.storeComparison result ttl env store).2)
       = (Some result,
          Storage.backgroundSweeps sweeps (Storage.storeComparison result ttl env store).2)) ∧
  (∀ id entry now,
     store !! id = Some entry → Storage.expiresAt entry < now →
     Storage.getComparison id now store = (None, delete id store) ∧
     (Storage.getComparison id now store).2 !! id = None).
Proof.
  split.
  - intros result ttl env sweeps now Hclean Hsweeps Hnow.
    unfold Storage.storeComparison. cbv zeta. cbn [fst snd].
    unfold Storage.getComparison.
    erewrite backgroundSweeps_lookup; cycle 1.
    + rewrite cleanupExpired_lookup, lookup_insert_eq. cbn [Storage.expiresAt].
      by rewrite decide_False by lia.
    + cbn [Storage.expiresAt]. eapply Forall_impl; [exact Hsweeps|].
      intros t Ht. simpl in *. lia.
    + cbn [Storage.expiresAt Storage.result]. by rewrite decide_False by lia.
  - intros id entry now Hid Hexp. unfold Storage.getComparison. rewrite Hid.
    rewrite decide_True by done. split; [done|]. apply lookup_delete_eq.
Qed.

(** C9 at work: a result stored at time 1000 is read back one millisecond
    later; an entry that expired at time 5 is gone at time 6. *)
Lemma cache_witness :
  Storage.getComparison "cmp_20251006_0a1b2c3d" 1001
      (Storage.backgroundSweeps []
         (Storage.storeComparison "result" None
            (Storage.mkPutEnv "cmp_20251006_0a1b2c3d" 1000 1000 1000) ∅).2)
    = (Some "result",
       Storage.backgroundSweeps []
         (Storage.storeComparison "result" None
            (Storage.mkPutEnv "cmp_20251006_0a1b2c3d" 1000 1000 1000) ∅).2) ∧
  Storage.getComparison "old" 6 {["old" := Storage.mkEntry "stale" 5 0]}
    = (None, delete "old" {["old" := Storage.mkEntry "stale" 5 0]}).
Proof.
  split.
  - apply (proj1 (cache_get_after_put_and_expiry (R:=string) ∅) "result" None
             (Storage.mkPutEnv "cmp_20251006_0a1b2c3d" 1000 1000 1000) [] 1001).
    + simpl. lia.
    + constructor.
    + unfold Storage.DEFAULT_TTL. simpl. lia.
  - apply (proj2 (cache_get_after_put_and_expiry
                    {["old" := Storage.mkEntry "stale" 5 0]}) "old"
             (Storage.mkEntry "stale" 5 0) 6).
    + apply lookup_singleton_eq.
    + simpl. lia.
Defined.

(** * Further properties of the code *)

(** ** SectionAggregator: order, counts and file paths *)

Lemma members_snoc pn k l s :
  members pn k (l ++ [s]) =
    members pn k l ++ (if decide (pn (sec_name s) = k) then [s] else []).
Proof. unfold members. by rewrite filter_app, filter_cons, filter_nil. Qed.

Lemma memberCount_snoc pn k l s :
  memberCount pn k (l ++ [s]) =
    memberCount pn k l + (if decide (pn (sec_name s) = k) then 1 else 0).
Proof.
  unfold memberCount. rewrite members_snoc, length_app.
  case_decide; simpl; lia.
Qed.

(** A parent name that is not yet a key has no member among the sections
    seen so far. *)
Lemma agg_inv_fresh pn l m k :
  agg_inv pn l m → OMap.get k m = None → memberCount pn k l = 0.
Proof.
  intros [_ Hkeys _] Hk. unfold memberCount, members.
  rewrite filter_none; [done|]. intros s Hs Hp.
  apply get_None in Hk. apply Hk, Hkeys. eauto.
Qed.

Lemma aggregate_fold_counts l k v :
  OMap.get k (foldl aggregateStep [] l) = Some v →
  sec_subsections v = Some (memberCount parentName k l) ∧
  sec_filePath v = None ∧ sec_address v = None.
Proof.
  revert k v. induction l as [|s l IH] using rev_ind; intros k v; [done|].
  rewrite foldl_snoc, memberCount_snoc.
  pose proof (agg_inv_fold parentName aggregateStep aggregateStep_spec l) as Hinv.
  set (m := foldl aggregateStep [] l) in *. unfold aggregateStep.
  destruct (OMap.get (parentName (sec_name s)) m) as [existing|] eqn:Hp; rewrite get_set.
  - destruct (decide (k = parentName (sec_name s))) as [->|Hk].
    + intros [= <-]. simpl. rewrite decide_True by done.
      destruct (IH _ _ Hp) as (Hsub & Hfile & Haddr). rewrite Hsub. simpl.
      split_and!; [|done..]. f_equal. case_decide; lia.
    + intros Hg. rewrite decide_False by done. rewrite Z.add_0_r. by apply IH.
  - destruct (decide (k = parentName (sec_name s))) as [->|Hk].
    + intros [= <-]. simpl. rewrite decide_True by done.
      by rewrite (agg_inv_fresh _ _ _ _ Hinv Hp).
    + intros Hg. rewrite decide_False by done. rewrite Z.add_0_r. by apply IH.
Qed.

Lemma frontend_fold_counts l k v :
  OMap.get k (foldl Frontend.aggregateStep [] l) = Some v →
  or_num (sec_subsections v) 1 = memberCount parentName k l ∧
  1 ≤ memberCount parentName k l.
Proof.
  revert k v. induction l as [|s l IH] using rev_ind; intros k v; [done|].
  rewrite foldl_snoc, memberCount_snoc.
  pose proof (agg_inv_fold parentName Frontend.aggregateStep
                frontend_aggregateStep_spec l) as Hinv.
  set (m := foldl Frontend.aggregateStep [] l) in *.
  unfold Frontend.aggregateStep. rewrite frontend_parentName.
  destruct (OMap.get (parentName (sec_name s)) m) as [existing|] eqn:Hp; rewrite get_set.
  - destruct (decide (k = parentName (sec_name s))) as [->|Hk].
    + intros [= <-]. cbn [sec_subsections]. rewrite !decide_True by done.
      destruct (IH _ _ Hp) as [Hsub Hpos]. rewrite Hsub.
      split; [|lia]. unfold or_num. case_decide; lia.
    + intros Hg. rewrite decide_False by done. rewrite Z.add_0_r. by apply IH.
  - destruct (decide (k = parentName (sec_name s))) as [->|Hk].
    + intros [= <-]. cbn [sec_subsections].
      rewrite !(decide_True _ _ (eq_refl (parentName (sec_name s)))).
      rewrite (agg_inv_fresh _ _ _ _ Hinv Hp). split; [|lia].
      by case_decide.
    + intros Hg. rewrite decide_False by done. rewrite Z.add_0_r. by apply IH.
Qed.

(** X1: the backend's aggregated list is in descending order of summed size,
    and every group in it reports as [subsections] the number of sections
    that went into it, with no address and no file path. *)
Theorem aggregate_sorted_and_counted (sections : list Sect) :
  StronglySorted sizeDescending (aggregateSections sections) ∧
  (∀ g, g ∈ aggregateSections sections →
     sec_subsections g = Some (memberCount parentName (sec_name g) sections) ∧
     1 ≤ memberCount parentName (sec_name g) sections ∧
     sec_filePath g = None ∧ sec_address g = None).
Proof.
  split; [apply (sort_desc_sorted sec_size)|].
  intros g Hg.
  apply (elem_of_view parentName aggregateStep aggregateStep_spec) in Hg as Hget.
  destruct (aggregate_fold_counts _ _ _ Hget) as (Hsub & Hfile & Haddr).
  split_and!; try done.
  destruct (view_group_from parentName aggregateStep aggregateStep_spec g sections Hg)
    as [(s & Hs & Hp) _].
  unfold memberCount.
  assert (s ∈ members parentName (sec_name g) sections) as Hin
    by by apply list_elem_of_filter.
  apply elem_of_length_pos in Hin. lia.
Qed.

(** X2: the frontend's aggregated list is in descending order of size too,
    and the [subsections] of a group, read as the table reads it with 1 for
    a missing count, is the number of sections that went into the group. *)
Theorem frontend_aggregate_sorted_and_counted (sections : list Sect) :
  StronglySorted sizeDescending (Frontend.aggregateSections sections) ∧
  (∀ g, g ∈ Frontend.aggregateSections sections →
     or_num (sec_subsections g) 1 = memberCount parentName (sec_name g) sections ∧
     1 ≤ memberCount parentName (sec_name g) sections).
Proof.
  split; [apply (sort_desc_sorted sec_size)|].
  intros g Hg.
  apply (elem_of_view parentName Frontend.aggregateStep frontend_aggregateStep_spec) in Hg.
  by apply frontend_fold_counts.
Qed.

(** ** SummaryComparer: file groups *)

Lemma set_set {V} k (v v' : V) m : OMap.set k v' (OMap.set k v m) = OMap.set k v' m.
Proof.
  induction m as [|[k0 v0] m IH]; simpl.
  - by rewrite decide_True.
  - destruct (decide (k = k0)) as [->|Hk]; simpl.
    + by rewrite decide_True.
    + rewrite decide_False by done. by rewrite IH.
Qed.

Lemma has_true {V} k (m : list (string * V)) : OMap.has k m = true ↔ is_Some (OMap.get k m).
Proof. unfold OMap.has. apply bool_decide_eq_true. Qed.

(** One step of the loop: the group of the diff's file, created empty when
    it is new, gets the diff added to it. *)
Lemma fileGroupStep_set m d :
  Compare.fileGroupStep m d =
    let group := default (Compare.mkFileGroup (fileNameOf d) 0 0 0 0%Qc 0 [])
                   (OMap.get (fileNameOf d) m) in
    OMap.set (fileNameOf d)
      {| Compare.fg_file := Compare.fg_file group;
         Compare.fg_sizeA := Js.add (Compare.fg_sizeA group) (Compare.sd_sizeA d);
         Compare.fg_sizeB := Js.add (Compare.fg_sizeB group) (Compare.sd_sizeB d);
         Compare.fg_delta := Js.add (Compare.fg_delta group) (Compare.sd_delta d);
         Compare.fg_deltaPct := Compare.fg_deltaPct group;
         Compare.fg_sectionCount := Compare.fg_sectionCount group + 1;
         Compare.fg_sections := Compare.fg_sections group ++ [Compare.sd_name d] |} m.
Proof.
  unfold Compare.fileGroupStep. fold (fileNameOf d). cbv zeta.
  destruct (OMap.get (fileNameOf d) m) as [group|] eqn:Hg.
  - assert (OMap.has (fileNameOf d) m = true) as -> by (apply has_true; eauto).
    by rewrite Hg.
  - assert (OMap.has (fileNameOf d) m = false) as ->.
    { apply not_true_is_false. rewrite has_true, Hg. by intros [? ?]. }
    rewrite get_set, decide_True by done. by rewrite set_set.
Qed.

Lemma inFile_snoc k l d :
  inFile k (l ++ [d]) = inFile k l ++ (if decide (fileNameOf d = k) then [d] else []).
Proof. unfold inFile. by rewrite filter_app, filter_cons, filter_nil. Qed.

Lemma groups_inv_nil : groups_inv [] [].
Proof.
  split; simpl; try done.
  - constructor.
  - intros k. split; [by intros ?%elem_of_nil|]. by intros (d & ?%elem_of_nil & _).
Qed.

Lemma groups_inv_step l m d :
  groups_inv l m → groups_inv (l ++ [d]) (Compare.fileGroupStep m d).
Proof.
  intros [Hnd Hkeys Hentry]. rewrite fileGroupStep_set. cbv zeta.
  set (k0 := fileNameOf d).
  assert (OMap.get k0 m = None → inFile k0 l = []) as Hfresh.
  { intros Hg. apply filter_none. intros d' Hd' Hk.
    apply get_None in Hg. apply Hg, Hkeys. eauto. }
  split.
  - by apply NoDup_keys_set.
  - intros k. rewrite keys_set. setoid_rewrite elem_of_app.
    setoid_rewrite list_elem_of_singleton.
    case_decide as Hp.
    + rewrite Hkeys. split; [naive_solver|].
      intros (d' & [Hd' | ->] & Hk); [by eauto|].
      apply Hkeys. by rewrite <-Hk.
    + rewrite elem_of_app, list_elem_of_singleton, Hkeys. naive_solver.
  - intros k g. rewrite get_set, inFile_snoc.
    destruct (decide (k = k0)) as [->|Hk].
    + intros [= <-]. rewrite decide_True by done.
      cbn [Compare.fg_file Compare.fg_sizeA Compare.fg_sizeB Compare.fg_delta
           Compare.fg_sectionCount Compare.fg_sections].
      rewrite !sum_snoc, length_app, fmap_app.
      destruct (OMap.get k0 m) as [group|] eqn:Hg;
        cbn [from_option id Compare.fg_file Compare.fg_sizeA Compare.fg_sizeB
             Compare.fg_delta Compare.fg_sectionCount Compare.fg_sections].
      * destruct (Hentry _ _ Hg) as (-> & -> & -> & -> & -> & ->).
        split_and!; try done. simpl. lia.
      * rewrite (Hfresh eq_refl). split_and!; done.
    + intros Hg. rewrite decide_False by done. rewrite app_nil_r. by apply Hentry.
Qed.

Lemma groups_inv_fold l : groups_inv l (foldl Compare.fileGroupStep [] l).
Proof.
  induction l as [|d l IH] using rev_ind; [apply groups_inv_nil|].
  rewrite foldl_snoc. by apply groups_inv_step.
Qed.

Section FileGroups.
Context `{FloatOps} (diffs : list Compare.SectionDiff).

Let m := foldl Compare.fileGroupStep [] diffs.

(** A group of the result is a group of the loop's map with its percentage
    filled in. *)
Lemma elem_of_computeFileGroups g :
  g ∈ Compare.computeFileGroups diffs →
  ∃ g0, OMap.get (Compare.fg_file g) m = Some g0 ∧
        Compare.fg_file g = Compare.fg_file g0 ∧
        Compare.fg_sizeA g = Compare.fg_sizeA g0 ∧
        Compare.fg_sizeB g = Compare.fg_sizeB g0 ∧
        Compare.fg_delta g = Compare.fg_delta g0 ∧
        Compare.fg_sectionCount g = Compare.fg_sectionCount g0 ∧
        Compare.fg_sections g = Compare.fg_sections g0.
Proof.
  pose proof (groups_inv_fold diffs) as [Hnd _ Hentry]. fold m in Hnd, Hentry.
  unfold Compare.computeFileGroups. cbv zeta. fold m.
  rewrite elem_of_sort. unfold OMap.values.
  intros (g0 & -> & ([k g0'] & -> & Hin)%list_elem_of_fmap)%list_elem_of_fmap.
  simpl. apply (elem_get_Some _ _ _ Hnd) in Hin.
  destruct (Hentry _ _ Hin) as (Hfile & _). exists g0'. by rewrite Hfile.
Qed.

Lemma computeFileGroups_of_key k g0 :
  OMap.get k m = Some g0 →
  ∃ g, g ∈ Compare.computeFileGroups diffs ∧ Compare.fg_file g = k.
Proof.
  pose proof (groups_inv_fold diffs) as [_ _ Hentry]. fold m in Hentry.
  intros Hg. destruct (Hentry _ _ Hg) as (Hfile & _).
  unfold Compare.computeFileGroups. cbv zeta. fold m.
  eexists. split.
  - apply elem_of_sort, list_elem_of_fmap. exists g0. split; [done|].
    unfold OMap.values. apply list_elem_of_fmap. exists (k, g0). split; [done|].
    by apply get_Some_elem.
  - done.
Qed.

End FileGroups.

(** X3: the file groups split the section diffs by file, diffs without a
    file going to the group ['unknown']: group names are distinct, every
    diff has its group, and a group's [sizeA], [sizeB] and [delta] are the
    sums over its diffs, its [sectionCount] their number and its [sections]
    their names in order, each sum taken as the loop takes it, diff after
    diff. The groups come largest absolute delta first. *)
Theorem file_groups_partition `{FloatOps} (diffs : list Compare.SectionDiff) :
  NoDup (Compare.fg_file <$> Compare.computeFileGroups diffs) ∧
  (∀ d, d ∈ diffs →
     ∃ g, g ∈ Compare.computeFileGroups diffs ∧ Compare.fg_file g = fileNameOf d) ∧
  (∀ g, g ∈ Compare.computeFileGroups diffs →
     inFile (Compare.fg_file g) diffs ≠ [] ∧
     Compare.fg_sizeA g = Js.sum Compare.sd_sizeA (inFile (Compare.fg_file g) diffs) ∧
     Compare.fg_sizeB g = Js.sum Compare.sd_sizeB (inFile (Compare.fg_file g) diffs) ∧
     Compare.fg_delta g = Js.sum Compare.sd_delta (inFile (Compare.fg_file g) diffs) ∧
     Compare.fg_sectionCount g = Z.of_nat (length (inFile (Compare.fg_file g) diffs)) ∧
     Compare.fg_sections g = Compare.sd_name <$> inFile (Compare.fg_file g) diffs) ∧
  StronglySorted groupDeltaDescending (Compare.computeFileGroups diffs).
Proof.
  pose proof (groups_inv_fold diffs) as [Hnd Hkeys Hentry].
  set (m := foldl Compare.fileGroupStep [] diffs) in *.
  split_and!.
  - unfold Compare.computeFileGroups. cbv zeta. fold m.
    rewrite (sort_perm Compare.byAbsDeltaGroup), <-list_fmap_compose.
    assert ((Compare.fg_file ∘ _) <$> OMap.values m = OMap.keys m) as ->; [|done].
    unfold OMap.values, OMap.keys. rewrite <-list_fmap_compose.
    apply list_fmap_ext. intros i [k g] Hin%list_elem_of_lookup_2. simpl.
    apply (elem_get_Some _ _ _ Hnd) in Hin. by destruct (Hentry _ _ Hin) as (-> & _).
  - intros d Hd.
    destruct (OMap.get (fileNameOf d) m) as [g0|] eqn:Hg.
    + by eapply computeFileGroups_of_key.
    + apply get_None in Hg. destruct Hg. apply Hkeys. eauto.
  - intros g (g0 & Hg0 & Hfile & HA & HB & Hd & Hc & Hs)%elem_of_computeFileGroups.
    fold m in Hg0. destruct (Hentry _ _ Hg0) as (_ & HA0 & HB0 & Hd0 & Hc0 & Hs0).
    split_and!; try congruence.
    intros Hnil.
    assert (Compare.fg_file g ∈ OMap.keys m) as (d & Hdin & Hdk)%Hkeys.
    { unfold OMap.keys. apply list_elem_of_fmap.
      exists (Compare.fg_file g, g0). split; [done|]. by apply get_Some_elem. }
    assert (d ∈ inFile (Compare.fg_file g) diffs) as Hin by by apply list_elem_of_filter.
    rewrite Hnil in Hin. by apply elem_of_nil in Hin.
  - unfold Compare.computeFileGroups. cbv zeta.
    eapply StronglySorted_mono; [|apply sort_sorted].
    + intros a b. unfold before, Compare.byAbsDeltaGroup, groupDeltaDescending. lia.
    + unfold Compare.byAbsDeltaGroup. intros; lia.
    + unfold Compare.byAbsDeltaGroup. intros; lia.
Qed.

(** ** SummaryComparer: the list of section diffs *)

Lemma elem_of_sectionMap_keys n (a : Analysis) :
  n ∈ OMap.keys (Compare.sectionMap a) ↔ ∃ s, s ∈ an_sections a ∧ sec_name s = n.
Proof.
  rewrite <-(last_filter_Some (λ s, sec_name s = n)).
  change (last (filter _ (an_sections a))) with (lastNamed n (an_sections a)).
  rewrite <-sectionMap_get, <-not_eq_None_Some, get_None.
  destruct (decide (n ∈ OMap.keys (Compare.sectionMap a))); tauto.
Qed.

Lemma elem_of_allSectionNames n (a b : Analysis) :
  n ∈ Compare.allSectionNames (Compare.sectionMap a) (Compare.sectionMap b) ↔ namedIn n a b.
Proof.
  unfold Compare.allSectionNames, namedIn.
  rewrite elem_of_to_set, elem_of_app, !elem_of_sectionMap_keys. naive_solver.
Qed.


Section CompareListing.
Context `{FloatOps} (a b : Analysis) (opts : Compare.Options).

Let iu := default false (Compare.includeUnchanged opts).

Lemma sectionDiffOf_is_Some n :
  is_Some (Compare.sectionDiffOf iu (Compare.sectionMap a) (Compare.sectionMap b) n) ↔
  iu = true ∨ sizeNamed n (an_sections b) ≠ sizeNamed n (an_sections a).
Proof.
  unfold Compare.sectionDiffOf, sizeNamed. cbv zeta. rewrite !sectionMap_get.
  destruct iu; simpl.
  - split; [auto|]. intros _. eauto.
  - case_bool_decide as Hd; split.
    + by intros [? ?].
    + intros [?|Hne]; [done|]. lia.
    + intros _. right. lia.
    + eauto.
Qed.


End CompareListing.




(** X5: comparing the two builds the other way round mirrors every section
    diff: the diff of the same name has the two sizes exchanged and the
    delta negated, a removed section becomes an added one, and a modified
    one stays modified. *)
Theorem compare_swaps_inputs `{FloatOps} (a b : Analysis) (opts : Compare.Options)
    (d : Compare.SectionDiff) :
  d ∈ Compare.sections (Compare.compareAnalyses a b opts) →
  ∃ d', d' ∈ Compare.sections (Compare.compareAnalyses b a opts) ∧ mirroredDiff d d'.
Proof.
  intros Hd%elem_of_sections. unfold Compare.sectionDiffsOf in Hd. cbv zeta in Hd.
  apply list_elem_of_omap in Hd as (n & Hn & Hd).
  set (iu := default false (Compare.includeUnchanged opts)) in *.
  destruct (Compare.sectionDiffOf iu (Compare.sectionMap b) (Compare.sectionMap a) n)
    as [d'|] eqn:Hd'.
  - exists d'. split.
    + apply elem_of_sections. fold iu. unfold Compare.sectionDiffsOf. cbv zeta.
      apply list_elem_of_omap. exists n. split; [|done].
      apply elem_of_allSectionNames. apply elem_of_allSectionNames in Hn.
      unfold namedIn in *. naive_solver.
    + revert Hd Hd'. unfold Compare.sectionDiffOf, mirroredDiff. cbv zeta.
      generalize (from_option sec_size 0 (OMap.get n (Compare.sectionMap a))).
      generalize (from_option sec_size 0 (OMap.get n (Compare.sectionMap b))).
      intros sizeB sizeA.
      destruct (negb iu && bool_decide (sizeB - sizeA = 0)); [done|].
      destruct (negb iu && bool_decide (sizeA - sizeB = 0)); [done|].
      intros [= <-] [= <-]. simpl.
      split_and!; try done; try lia; repeat case_decide; try done; try lia.
  - exfalso. revert Hd Hd'. unfold Compare.sectionDiffOf. cbv zeta.
    generalize (from_option sec_size 0 (OMap.get n (Compare.sectionMap a))).
    generalize (from_option sec_size 0 (OMap.get n (Compare.sectionMap b))).
    intros sizeB sizeA. destruct iu; simpl; [done|].
    repeat case_bool_decide; try done; lia.
Qed.

(** X5 at work: [.bss.b], new in the second build, seen from both sides. *)
Lemma compare_swaps_inputs_witness :
  Compare.mkSectionDiff ".bss.b" None None None 0 7000 7000
      (@toFixed2 exactFloat (Q2Qc 100)) Compare.added
    ∈ Compare.sections (@Compare.compareAnalyses exactFloat buildA buildB noOptions) ∧
  ∃ d', d' ∈ Compare.sections (@Compare.compareAnalyses exactFloat buildB buildA noOptions) ∧
        mirroredDiff
          (Compare.mkSectionDiff ".bss.b" None None None 0 7000 7000
             (@toFixed2 exactFloat (Q2Qc 100)) Compare.added) d'.
Proof.
  assert (Compare.mkSectionDiff ".bss.b" None None None 0 7000 7000
            (@toFixed2 exactFloat (Q2Qc 100)) Compare.added
          ∈ Compare.sections (@Compare.compareAnalyses exactFloat buildA buildB noOptions))
    as Hd by (vm_compute; left).
  split; [exact Hd|].
  exact (@compare_swaps_inputs exactFloat buildA buildB noOptions _ Hd).
Defined.

(** ** SummaryComparer: anomalies *)

Lemma severityOrder_inj s1 s2 :
  Compare.severityOrder s1 = Compare.severityOrder s2 → s1 = s2.
Proof. by destruct s1, s2. Qed.

Lemma before_bySeverityThenDelta x y :
  before Compare.bySeverityThenDelta x y ↔ anomalyBefore x y.
Proof.
  unfold before, Compare.bySeverityThenDelta, anomalyBefore. cbv zeta.
  case_decide as Hs.
  - split; [intros; left; lia|]. intros [?|[Heq _]]; [lia|]. rewrite Heq in Hs. lia.
  - assert (Compare.an_severity x = Compare.an_severity y) as Heq
      by (apply severityOrder_inj; lia).
    split; [intros; right; split; [done|lia]|]. intros [?|[_ ?]]; lia.
Qed.

Lemma anomalyBefore_trans x y z :
  anomalyBefore x y → anomalyBefore y z → anomalyBefore x z.
Proof.
  unfold anomalyBefore. intros [Hxy|[Hxy ?]] [Hyz|[Hyz ?]].
  - left. lia.
  - left. rewrite <- Hyz. lia.
  - left. rewrite Hxy. lia.
  - right. split; [congruence|lia].
Qed.

Lemma bySeverityThenDelta_total x y :
  0 < Compare.bySeverityThenDelta x y → Compare.bySeverityThenDelta y x ≤ 0.
Proof.
  intros Hxy.
  assert (¬ before Compare.bySeverityThenDelta x y) as Hn by (unfold before; lia).
  rewrite before_bySeverityThenDelta in Hn.
  apply before_bySeverityThenDelta. unfold anomalyBefore in *.
  destruct (decide (Compare.severityOrder (Compare.an_severity y)
                    = Compare.severityOrder (Compare.an_severity x))) as [Heq|Hne].
  - apply severityOrder_inj in Heq. right. split; [done|].
    destruct (decide (Z.abs (Compare.an_delta y) ≤ Z.abs (Compare.an_delta x)));
      [|lia].
    destruct Hn. by right.
  - left.
    destruct (decide (Compare.severityOrder (Compare.an_severity y)
                      < Compare.severityOrder (Compare.an_severity x))); [|lia].
    destruct Hn. by left.
Qed.

Lemma bySeverityThenDelta_trans x y z :
  Compare.bySeverityThenDelta x y ≤ 0 → Compare.bySeverityThenDelta y z ≤ 0 →
  Compare.bySeverityThenDelta x z ≤ 0.
Proof.
  intros Hxy%before_bySeverityThenDelta Hyz%before_bySeverityThenDelta.
  apply before_bySeverityThenDelta. by eapply anomalyBefore_trans.
Qed.

Lemma sectionAnomaly_Some thresholdPct thresholdBytes d an :
  Compare.sectionAnomaly thresholdPct thresholdBytes d = Some an →
  Compare.an_type an = Compare.of_section ∧ Compare.an_name an = Compare.sd_name d ∧
  Compare.an_reasons an ≠ [] ∧ Compare.an_severity an ≠ Compare.low ∧
  Compare.an_delta an = Compare.sd_delta d.
Proof.
  unfold Compare.sectionAnomaly. cbv zeta.
  destruct (decide (0 < length _)%nat) as [Hlen|]; [|done].
  intros [= <-]. simpl. split_and!; try done.
  - intros Hnil. rewrite Hnil in Hlen. simpl in Hlen. lia.
  - by destruct (decide (thresholdBytes * 10 < _)).
Qed.

Lemma fileAnomaly_Some diffs thresholdBytes g an :
  Compare.fileAnomaly diffs thresholdBytes g = Some an →
  Compare.an_type an = Compare.of_file ∧ Compare.an_name an = Compare.fg_file g ∧
  Compare.an_reasons an ≠ [] ∧ Compare.an_severity an ≠ Compare.medium ∧
  Compare.an_delta an = Compare.fg_delta g.
Proof.
  unfold Compare.fileAnomaly. cbv zeta.
  destruct (decide (0 < length _)%nat) as [Hlen|]; [|done].
  intros [= <-]. simpl. split_and!; try done.
  - intros Hnil. rewrite Hnil in Hlen. simpl in Hlen. lia.
  - by destruct (decide (thresholdBytes * 20 < _)).
Qed.

Lemma elem_of_bssAnomaly diffs thresholdBytes an :
  an ∈ Compare.bssAnomaly diffs thresholdBytes →
  Compare.an_type an = Compare.of_pattern ∧ Compare.an_reasons an ≠ [] ∧
  Compare.an_severity an = Compare.medium ∧
  Compare.an_delta an = Js.sum Compare.sd_delta (bssDiffs diffs) ∧
  thresholdBytes * 5 < Js.sum Compare.sd_delta (bssDiffs diffs).
Proof.
  unfold Compare.bssAnomaly. cbv zeta. fold (bssDiffs diffs).
  case_decide as Ht; [|by intros ?%elem_of_nil].
  by intros ->%list_elem_of_singleton.
Qed.

Lemma elem_of_detectAnomalies diffs groups thresholdPct thresholdBytes an :
  an ∈ Compare.detectAnomalies diffs groups thresholdPct thresholdBytes ↔
  (∃ d, d ∈ diffs ∧ Compare.sectionAnomaly thresholdPct thresholdBytes d = Some an) ∨
  (∃ g, g ∈ groups ∧ Compare.fileAnomaly diffs thresholdBytes g = Some an) ∨
  an ∈ Compare.bssAnomaly diffs thresholdBytes.
Proof.
  unfold Compare.detectAnomalies.
  by rewrite elem_of_sort, !elem_of_app, !list_elem_of_omap.
Qed.

(** X6: the anomaly list comes highest severity first and, within one
    severity, largest absolute delta first; every anomaly in it carries at
    least one reason; a section anomaly is never [low], a file anomaly never
    [medium], and a pattern anomaly always [medium]. *)
Theorem anomalies_sorted_with_reasons (diffs : list Compare.SectionDiff)
    (groups : list Compare.FileGroup) (thresholdPct : Qc) (thresholdBytes : Z) :
  StronglySorted anomalyBefore
    (Compare.detectAnomalies diffs groups thresholdPct thresholdBytes) ∧
  (∀ an, an ∈ Compare.detectAnomalies diffs groups thresholdPct thresholdBytes →
     Compare.an_reasons an ≠ [] ∧
     (Compare.an_type an = Compare.of_section → Compare.an_severity an ≠ Compare.low) ∧
     (Compare.an_type an = Compare.of_file → Compare.an_severity an ≠ Compare.medium) ∧
     (Compare.an_type an = Compare.of_pattern → Compare.an_severity an = Compare.medium)).
Proof.
  split.
  - unfold Compare.detectAnomalies.
    eapply StronglySorted_mono; [|apply sort_sorted].
    + intros x y. apply before_bySeverityThenDelta.
    + apply bySeverityThenDelta_total.
    + apply bySeverityThenDelta_trans.
  - intros an [(d & _ & Hd)|[(g & _ & Hg)|Hb]]%elem_of_detectAnomalies.
    + destruct (sectionAnomaly_Some _ _ _ _ Hd) as (Ht & _ & Hr & Hs & _).
      rewrite Ht. split_and!; done.
    + destruct (fileAnomaly_Some _ _ _ _ Hg) as (Ht & _ & Hr & Hs & _).
      rewrite Ht. split_and!; done.
    + destruct (elem_of_bssAnomaly _ _ _ Hb) as (Ht & Hr & Hs & _).
      rewrite Ht. split_and!; done.
Qed.

(** X7: the [.bss] pattern anomaly is reported exactly when the deltas of the
    section diffs named [.bss...] add up to more than five times the byte
    threshold; there is at most one, and its delta is that sum. *)
Theorem bss_pattern_anomaly (diffs : list Compare.SectionDiff)
    (groups : list Compare.FileGroup) (thresholdPct : Qc) (thresholdBytes : Z) :
  ((∃ an, an ∈ Compare.detectAnomalies diffs groups thresholdPct thresholdBytes ∧
          Compare.an_type an = Compare.of_pattern) ↔
   thresholdBytes * 5 < Js.sum Compare.sd_delta (bssDiffs diffs)) ∧
  (∀ an, an ∈ Compare.detectAnomalies diffs groups thresholdPct thresholdBytes →
         Compare.an_type an = Compare.of_pattern →
         Compare.an_delta an = Js.sum Compare.sd_delta (bssDiffs diffs)) ∧
  (length (filter (λ an, Compare.an_type an = Compare.of_pattern)
             (Compare.detectAnomalies diffs groups thresholdPct thresholdBytes)) ≤ 1)%nat.
Proof.
  assert (∀ an, an ∈ Compare.detectAnomalies diffs groups thresholdPct thresholdBytes →
                Compare.an_type an = Compare.of_pattern →
                an ∈ Compare.bssAnomaly diffs thresholdBytes) as Hpat.
  { intros an [(d & _ & Hd)|[(g & _ & Hg)|Hb]]%elem_of_detectAnomalies Ht; [| |done].
    - destruct (sectionAnomaly_Some _ _ _ _ Hd) as (Ht' & _). congruence.
    - destruct (fileAnomaly_Some _ _ _ _ Hg) as (Ht' & _). congruence. }
  split_and!.
  - split.
    + intros (an & Han & Ht). by destruct (elem_of_bssAnomaly _ _ _ (Hpat _ Han Ht)) as (_ & _ & _ & _ & ?).
    + intros Hsum. unfold Compare.detectAnomalies.
      setoid_rewrite elem_of_sort. setoid_rewrite elem_of_app. setoid_rewrite elem_of_app.
      unfold Compare.bssAnomaly. cbv zeta. fold (bssDiffs diffs).
      rewrite decide_True by done. eexists. split; [right; right; left|done].
  - intros an Han Ht. by destruct (elem_of_bssAnomaly _ _ _ (Hpat _ Han Ht)) as (_ & _ & _ & ? & _).
  - unfold Compare.detectAnomalies.
    rewrite (filter_sort Compare.bySeverityThenDelta), length_sort, !filter_app, !length_app.
    + assert (∀ l, filter (λ an, Compare.an_type an = Compare.of_pattern)
                     (omap (Compare.sectionAnomaly thresholdPct thresholdBytes) l) = []) as ->.
      { intros l. apply filter_none. intros an (d & _ & Hd)%list_elem_of_omap.
        destruct (sectionAnomaly_Some _ _ _ _ Hd) as (Ht' & _). congruence. }
      assert (∀ l, filter (λ an, Compare.an_type an = Compare.of_pattern)
                     (omap (Compare.fileAnomaly diffs thresholdBytes) l) = []) as ->.
      { intros l. apply filter_none. intros an (g & _ & Hg)%list_elem_of_omap.
        destruct (fileAnomaly_Some _ _ _ _ Hg) as (Ht' & _). congruence. }
      simpl. etransitivity; [apply length_filter|].
      unfold Compare.bssAnomaly. cbv zeta. case_decide; simpl; lia.
    + apply bySeverityThenDelta_total.
    + apply bySeverityThenDelta_trans.
Qed.

Lemma sectionDiffOf_status `{FloatOps} iu sA sB n d :
  Compare.sectionDiffOf iu sA sB n = Some d →
  (Compare.sd_status d = Compare.added → Compare.sd_sizeA d = 0) ∧
  (Compare.sd_status d = Compare.removed → Compare.sd_sizeB d = 0).
Proof.
  unfold Compare.sectionDiffOf. destruct (negb iu && _); [done|].
  intros [= <-]. simpl. split; repeat case_decide; done.
Qed.

(** X8: with a byte threshold that is not negative, a section diff of a
    comparison is reported as a section anomaly exactly when its absolute
    percentage exceeds the percentage threshold or its absolute delta exceeds
    the byte threshold; the anomaly carries the diff's delta and is [high]
    exactly when the absolute delta exceeds ten times the byte threshold. *)
Theorem section_anomaly_iff_threshold `{FloatOps}
    (a b : Analysis) (opts : Compare.Options) (d : Compare.SectionDiff) :
  0 ≤ default 1024 (Compare.anomalyThresholdBytes opts) →
  d ∈ Compare.sections (Compare.compareAnalyses a b opts) →
  ((∃ an, an ∈ Compare.anomalies (Compare.compareAnalyses a b opts) ∧
          Compare.an_type an = Compare.of_section ∧
          Compare.an_name an = Compare.sd_name d) ↔
   (default (Q2Qc 20) (Compare.anomalyThresholdPct opts)
      < Qcabs (Compare.sd_deltaPct d))%Qc ∨
   default 1024 (Compare.anomalyThresholdBytes opts) < Z.abs (Compare.sd_delta d)) ∧
  (∀ an, an ∈ Compare.anomalies (Compare.compareAnalyses a b opts) →
         Compare.an_type an = Compare.of_section →
         Compare.an_name an = Compare.sd_name d →
         Compare.an_delta an = Compare.sd_delta d ∧
         (Compare.an_severity an = Compare.high ↔
          default 1024 (Compare.anomalyThresholdBytes opts) * 10
            < Z.abs (Compare.sd_delta d))).
Proof.
  intros Hthr Hd. pose proof Hd as Hd'%elem_of_sections.
  set (r := Compare.compareAnalyses a b opts).
  change (Compare.anomalies r) with
    (Compare.detectAnomalies
       (Compare.sectionDiffsOf (default false (Compare.includeUnchanged opts)) a b)
       (Compare.computeFileGroups
          (Compare.sectionDiffsOf (default false (Compare.includeUnchanged opts)) a b))
       (default (Q2Qc 20) (Compare.anomalyThresholdPct opts))
       (default 1024 (Compare.anomalyThresholdBytes opts))).
  set (pct := default (Q2Qc 20) (Compare.anomalyThresholdPct opts)) in *.
  set (bytes := default 1024 (Compare.anomalyThresholdBytes opts)) in *.
  set (iu := default false (Compare.includeUnchanged opts)) in *.
  assert (∀ an, an ∈ Compare.detectAnomalies (Compare.sectionDiffsOf iu a b)
                       (Compare.computeFileGroups (Compare.sectionDiffsOf iu a b))
                       pct bytes →
                Compare.an_type an = Compare.of_section →
                Compare.an_name an = Compare.sd_name d →
                Compare.sectionAnomaly pct bytes d = Some an) as Hkey.
  { intros an [(d0 & Hd0 & Hs)|[(g & _ & Hg)|Hb]]%elem_of_detectAnomalies Ht Hn.
    - destruct (sectionAnomaly_Some _ _ _ _ Hs) as (_ & Hn0 & _).
      assert (d0 = d) as <-; [|done].
      eapply NoDup_fmap_eq; [apply (NoDup_sectionDiffsOf iu a b)|done..|congruence].
    - destruct (fileAnomaly_Some _ _ _ _ Hg) as (Ht' & _). congruence.
    - destruct (elem_of_bssAnomaly _ _ _ Hb) as (Ht' & _). congruence. }
  pose proof (elem_of_sectionDiffsOf _ _ _ _ Hd') as Hof.
  destruct (sectionDiffOf_Some _ _ _ _ _ Hof) as (_ & _ & _ & Hdelta & _).
  destruct (sectionDiffOf_status _ _ _ _ _ Hof) as [Hadd Hrem].
  split.
  - split.
    + intros (an & Han & Ht & Hn). specialize (Hkey an Han Ht Hn).
      revert Hkey. unfold Compare.sectionAnomaly. cbv zeta.
      destruct (decide (pct < _)%Qc); [by left|].
      destruct (decide (bytes < _)); [by right|].
      destruct (decide (Compare.sd_status d = Compare.added ∧ _)) as [[Hst ?]|].
      { specialize (Hadd Hst). lia. }
      destruct (decide (Compare.sd_status d = Compare.removed ∧ _)) as [[Hst ?]|].
      { specialize (Hrem Hst). lia. }
      done.
    + intros Hbreach.
      destruct (Compare.sectionAnomaly pct bytes d) as [an|] eqn:Hs.
      * exists an. destruct (sectionAnomaly_Some _ _ _ _ Hs) as (Ht & Hn & _).
        split_and!; [|done..]. apply elem_of_detectAnomalies. left. by exists d.
      * revert Hs. unfold Compare.sectionAnomaly. cbv zeta.
        destruct (decide (0 < length _)%nat) as [|Hlen]; [done|]. intros _.
        destruct Hlen. rewrite !length_app.
        destruct Hbreach.
        -- rewrite (decide_True (P := (pct < _)%Qc)) by done. simpl. lia.
        -- rewrite (decide_True (P := (bytes < _))) by done. simpl. lia.
  - intros an Han Ht Hn. specialize (Hkey an Han Ht Hn).
    destruct (sectionAnomaly_Some _ _ _ _ Hkey) as (_ & _ & _ & _ & Hdl).
    split; [done|].
    revert Hkey. unfold Compare.sectionAnomaly. cbv zeta.
    destruct (decide (0 < length _)%nat); [|done]. intros [= <-]. simpl.
    destruct (decide (bytes * 10 < _)); split; done.
Qed.

Lemma section_anomaly_iff_threshold_witness :
  0 ≤ default 1024 (Compare.anomalyThresholdBytes noOptions) ∧
  ∃ d, d ∈ Compare.sections (@Compare.compareAnalyses exactFloat buildA buildB noOptions) ∧
       ((∃ an, an ∈ Compare.anomalies
                      (@Compare.compareAnalyses exactFloat buildA buildB noOptions) ∧
               Compare.an_type an = Compare.of_section ∧
               Compare.an_name an = Compare.sd_name d) ↔
        (default (Q2Qc 20) (Compare.anomalyThresholdPct noOptions)
           < Qcabs (Compare.sd_deltaPct d))%Qc ∨
        default 1024 (Compare.anomalyThresholdBytes noOptions)
          < Z.abs (Compare.sd_delta d)).
Proof.
  assert (0 ≤ default 1024 (Compare.anomalyThresholdBytes noOptions)) as Hthr
    by (simpl; lia).
  split; [exact Hthr|].
  exists (Compare.mkSectionDiff ".bss.b" None None None 0 7000 7000
            (@toFixed2 exactFloat (Q2Qc 100)) Compare.added).
  assert (Compare.mkSectionDiff ".bss.b" None None None 0 7000 7000
            (@toFixed2 exactFloat (Q2Qc 100)) Compare.added
          ∈ Compare.sections (@Compare.compareAnalyses exactFloat buildA buildB noOptions))
    as Hd by (vm_compute; apply list_elem_of_here).
  split; [exact Hd|].
  exact (proj1 (@section_anomaly_iff_threshold exactFloat buildA buildB noOptions _ Hthr Hd)).
Defined.

(** ** MemoryDiff: the two lists and the summary *)



Section StepShape.
Context `{FloatOps} (opts : MemoryDiff.Options) (v1 v2 : option Sect) (k : string).

Let e := (MemoryDiff.diffStep opts v1 v2 k).1.
Let oa := (MemoryDiff.diffStep opts v1 v2 k).2.



Lemma diffStep_reported : is_Some oa ↔ reportable opts e.
Proof.
  subst oa e. unfold reportable, rawPct, MemoryDiff.diffStep. cbv zeta. simpl.
  set (status := match v1, v2 with
                 | None, Some _ => MemoryDiff.added
                 | Some _, None => MemoryDiff.removed
                 | _, _ => _ end).
  set (shifted := match (match Js.or_null (v1 ≫= sec_address), Js.or_null (v2 ≫= sec_address)
                         with Some a1, Some a2 => _ | _, _ => None end)
                  with Some d => _ | None => false end).
  set (pct := if decide (0 < from_option sec_size 0 v1) then _ else _).
  destruct (decide (0 < length _)%nat) as [Hlen|Hlen].
  - split; [intros _|by eauto].
    revert Hlen. rewrite !length_app.
    destruct (decide (status = MemoryDiff.added ∧ _)); [by left|].
    destruct (decide (status = MemoryDiff.removed ∧ _)); [by right; left|].
    destruct (decide (status = MemoryDiff.growth ∧ _)); [by right; right; left|].
    destruct (decide (status = MemoryDiff.shrink ∧ _)); [by right; right; right; left|].
    destruct shifted; [by right; right; right; right|]. simpl. lia.
  - split; [by intros [? ?]|]. intros Hrep. destruct Hlen. rewrite !length_app.
    destruct Hrep as [?|[?|[?|[?|Hs]]]].
    + rewrite (decide_True (P := status = MemoryDiff.added ∧ _)) by done. simpl. lia.
    + rewrite (decide_True (P := status = MemoryDiff.removed ∧ _)) by done. simpl. lia.
    + rewrite (decide_True (P := status = MemoryDiff.growth ∧ _)) by done. simpl. lia.
    + rewrite (decide_True (P := status = MemoryDiff.shrink ∧ _)) by done. simpl. lia.
    + rewrite Hs. simpl. lia.
Qed.

End StepShape.


(** X10: an entry of the version diff is reported as an anomaly exactly when
    it is [added] with more than 1024 bytes, [removed] with more than 1024
    bytes, [growth] with a percentage (as computed from the sizes, before
    rounding) above the growth threshold, [shrink] with an absolute percentage
    above the shrink threshold, or has its address shifted; so an entry with
    status [same] is reported only for an address shift. *)
Theorem memory_anomaly_iff_reportable `{FloatOps}
    (a b : Analysis) (opts : MemoryDiff.Options) (e : MemoryDiff.DiffEntry) :
  e ∈ MemoryDiff.diff (MemoryDiff.computeMemoryDiff a b opts) →
  ((∃ an, an ∈ MemoryDiff.anomalies (MemoryDiff.computeMemoryDiff a b opts) ∧
          MemoryDiff.an_entry an = e) ↔ reportable opts e) ∧
  (MemoryDiff.de_status e = MemoryDiff.same →
   (∃ an, an ∈ MemoryDiff.anomalies (MemoryDiff.computeMemoryDiff a b opts) ∧
          MemoryDiff.an_entry an = e) →
   MemoryDiff.de_addressShifted e = true).
Proof.
  intros [k [Hk He]%elem_of_keyedEntries]%elem_of_diff.
  set (v1 := OMap.get k (MemoryDiff.keyedMap a)) in *.
  set (v2 := OMap.get k (MemoryDiff.keyedMap b)) in *.
  assert ((∃ an, an ∈ MemoryDiff.anomalies (MemoryDiff.computeMemoryDiff a b opts) ∧
                 MemoryDiff.an_entry an = e) ↔ reportable opts e) as Hiff.
  { split.
    - intros (an & (k' & e' & [Hk' Hp]%elem_of_diffLoop)%elem_of_anomalies & Hent).
      set (w1 := OMap.get k' (MemoryDiff.keyedMap a)) in *.
      set (w2 := OMap.get k' (MemoryDiff.keyedMap b)) in *.
      assert ((MemoryDiff.diffStep opts w1 w2 k').2 = Some an) as Han by by rewrite <-Hp.
      rewrite <-Hent, (diffStep_entry _ _ _ _ _ Han).
      apply diffStep_reported. by rewrite Han.
    - rewrite He. intros [an Han]%diffStep_reported.
      exists an. split.
      + apply elem_of_anomalies. exists k, (MemoryDiff.diffStep opts v1 v2 k).1.
        apply elem_of_diffLoop. split; [done|]. fold v1 v2. rewrite <-Han.
        by destruct (MemoryDiff.diffStep opts v1 v2 k).
      + by rewrite (diffStep_entry _ _ _ _ _ Han). }
  split; [done|].
  intros Hsame [[? ?]|[[? ?]|[[? ?]|[[? ?]|?]]]]%Hiff; congruence.
Qed.

Lemma memory_anomaly_iff_reportable_witness :
  MemoryDiff.mkDiffEntry ".bss.b" None 0 7000 7000 (@toFixed2 exactFloat (Q2Qc 100))
      None None None false MemoryDiff.added MemoryDiff.RAM
    ∈ MemoryDiff.diff (@MemoryDiff.computeMemoryDiff exactFloat buildA buildB noDiffOptions) ∧
  ((∃ an, an ∈ MemoryDiff.anomalies
                 (@MemoryDiff.computeMemoryDiff exactFloat buildA buildB noDiffOptions) ∧
          MemoryDiff.an_entry an =
            MemoryDiff.mkDiffEntry ".bss.b" None 0 7000 7000 (@toFixed2 exactFloat (Q2Qc 100))
              None None None false MemoryDiff.added MemoryDiff.RAM) ↔
   @reportable exactFloat noDiffOptions
     (MemoryDiff.mkDiffEntry ".bss.b" None 0 7000 7000 (@toFixed2 exactFloat (Q2Qc 100))
        None None None false MemoryDiff.added MemoryDiff.RAM)).
Proof.
  assert (MemoryDiff.mkDiffEntry ".bss.b" None 0 7000 7000 (@toFixed2 exactFloat (Q2Qc 100))
            None None None false MemoryDiff.added MemoryDiff.RAM
          ∈ MemoryDiff.diff
              (@MemoryDiff.computeMemoryDiff exactFloat buildA buildB noDiffOptions))
    as Hd by (vm_compute; left).
  split; [exact Hd|].
  exact (proj1 (@memory_anomaly_iff_reportable exactFloat buildA buildB noDiffOptions _ Hd)).
Defined.

(** ** MemoryDiff: a version against itself *)

Lemma num_self_not_shifted (n : Js.num) (t : Z) :
  0 ≤ t → Js.abs_gt (Js.num_sub n n) t = false.
Proof.
  intros Ht. destruct n as [z|]; simpl; [|done].
  rewrite Z.sub_diag. apply bool_decide_eq_false.
  change (Js.fl 0) with 0. lia.
Qed.

Lemma diffStep_self `{FloatOps} opts (s : Sect) k :
  0 ≤ default 4096 (MemoryDiff.addressShiftThreshold opts) →
  MemoryDiff.de_status (MemoryDiff.diffStep opts (Some s) (Some s) k).1 = MemoryDiff.same ∧
  MemoryDiff.de_sizeDiff (MemoryDiff.diffStep opts (Some s) (Some s) k).1 = 0 ∧
  MemoryDiff.de_sizeV1 (MemoryDiff.diffStep opts (Some s) (Some s) k).1 =
    MemoryDiff.de_sizeV2 (MemoryDiff.diffStep opts (Some s) (Some s) k).1 ∧
  MemoryDiff.de_addressShifted (MemoryDiff.diffStep opts (Some s) (Some s) k).1 = false.
Proof.
  intros Ht. unfold MemoryDiff.diffStep. cbv zeta. simpl. split_and!; try done.
  - rewrite Z.sub_diag. by rewrite !decide_False by lia.
  - lia.
  - destruct (Js.or_null (sec_address s)); [|done]. by apply num_self_not_shifted.
Qed.

Lemma count_status_all st (l : list MemoryDiff.DiffEntry) :
  (∀ e, e ∈ l → MemoryDiff.de_status e = st) →
  MemoryDiff.count_status st l = Z.of_nat (length l).
Proof.
  unfold MemoryDiff.count_status. intros Hall. f_equal.
  induction l as [|d l IH]; [done|].
  rewrite filter_cons, decide_True by (apply Hall; left). simpl. f_equal.
  apply IH. intros e He. apply Hall. by right.
Qed.

(** X11: comparing a version with itself, with an address-shift threshold
    that is not negative, reports no anomaly; every entry has status [same],
    size difference 0 and no address shift, so [sectionsUnchanged] counts all
    entries and the other four status counts and [totalSizeDiff] are 0. *)
Theorem memory_diff_of_itself `{FloatOps} (a : Analysis) (opts : MemoryDiff.Options) :
  0 ≤ default 4096 (MemoryDiff.addressShiftThreshold opts) →
  MemoryDiff.anomalies (MemoryDiff.computeMemoryDiff a a opts) = [] ∧
  (∀ e, e ∈ MemoryDiff.diff (MemoryDiff.computeMemoryDiff a a opts) →
     MemoryDiff.de_status e = MemoryDiff.same ∧ MemoryDiff.de_sizeDiff e = 0 ∧
     MemoryDiff.de_sizeV1 e = MemoryDiff.de_sizeV2 e ∧
     MemoryDiff.de_addressShifted e = false) ∧
  MemoryDiff.sectionsUnchanged (MemoryDiff.summary (MemoryDiff.computeMemoryDiff a a opts))
    = Z.of_nat (length (MemoryDiff.diff (MemoryDiff.computeMemoryDiff a a opts))) ∧
  MemoryDiff.sectionsAdded (MemoryDiff.summary (MemoryDiff.computeMemoryDiff a a opts)) = 0 ∧
  MemoryDiff.sectionsRemoved (MemoryDiff.summary (MemoryDiff.computeMemoryDiff a a opts)) = 0 ∧
  MemoryDiff.sectionsGrowth (MemoryDiff.summary (MemoryDiff.computeMemoryDiff a a opts)) = 0 ∧
  MemoryDiff.sectionsShrink (MemoryDiff.summary (MemoryDiff.computeMemoryDiff a a opts)) = 0 ∧
  MemoryDiff.totalSizeDiff (MemoryDiff.summary (MemoryDiff.computeMemoryDiff a a opts)) = 0.
Proof.
  intros Ht.
  assert (∀ k, k ∈ MemoryDiff.allKeys (MemoryDiff.keyedMap a) (MemoryDiff.keyedMap a) →
               ∃ s, OMap.get k (MemoryDiff.keyedMap a) = Some s) as Hget.
  { intros k (s & Hs & Hk)%elem_of_allKeys. rewrite keyedMap_get.
    apply (last_filter_Some (λ s, MemoryDiff.keyOf s = k)). exists s. naive_solver. }
  assert (∀ e, e ∈ MemoryDiff.diff (MemoryDiff.computeMemoryDiff a a opts) →
     MemoryDiff.de_status e = MemoryDiff.same ∧ MemoryDiff.de_sizeDiff e = 0 ∧
     MemoryDiff.de_sizeV1 e = MemoryDiff.de_sizeV2 e ∧
     MemoryDiff.de_addressShifted e = false) as Hall.
  { intros e [k [Hk ->]%elem_of_keyedEntries]%elem_of_diff.
    destruct (Hget k Hk) as [s ->]. by apply diffStep_self. }
  assert (∀ e, e ∈ (MemoryDiff.diffLoop a a opts).*2.*1 →
               MemoryDiff.de_status e = MemoryDiff.same) as Hsame.
  { intros e He. apply Hall. simpl. by apply elem_of_sort. }
  assert (∀ st, st ≠ MemoryDiff.same →
                MemoryDiff.count_status st (MemoryDiff.diffLoop a a opts).*2.*1 = 0) as Hzero.
  { intros st Hst. unfold MemoryDiff.count_status. rewrite filter_none; [done|].
    intros e He Heq. apply Hsame in He. congruence. }
  split_and!; try done.
  - destruct (MemoryDiff.anomalies (MemoryDiff.computeMemoryDiff a a opts))
      as [|an l] eqn:Han; [done|exfalso].
    assert (an ∈ MemoryDiff.anomalies (MemoryDiff.computeMemoryDiff a a opts)) as Hin
      by (rewrite Han; left).
    apply elem_of_anomalies in Hin as (k & e & [Hk Hp]%elem_of_diffLoop).
    destruct (Hget k Hk) as [s Hs]. rewrite Hs in Hp.
    destruct (diffStep_self opts s k Ht) as (Hst & _ & _ & Hsh).
    assert (is_Some (MemoryDiff.diffStep opts (Some s) (Some s) k).2) as Hrep
      by (rewrite <-Hp; eauto).
    apply diffStep_reported in Hrep.
    destruct Hrep as [[? ?]|[[? ?]|[[? ?]|[[? ?]|?]]]]; congruence.
  - simpl. rewrite length_sort. by apply count_status_all.
  - simpl. by apply Hzero.
  - simpl. by apply Hzero.
  - simpl. by apply Hzero.
  - simpl. by apply Hzero.
  - simpl. lia.
Qed.

Lemma memory_diff_of_itself_witness :
  0 ≤ default 4096 (MemoryDiff.addressShiftThreshold noDiffOptions) ∧
  MemoryDiff.anomalies (@MemoryDiff.computeMemoryDiff exactFloat buildB buildB noDiffOptions)
    = [].
Proof.
  assert (0 ≤ default 4096 (MemoryDiff.addressShiftThreshold noDiffOptions)) as Ht
    by (simpl; lia).
  split; [exact Ht|].
  exact (proj1 (@memory_diff_of_itself exactFloat buildB noDiffOptions Ht)).
Defined.

(** ** The regions of the two comparers *)

Lemma startsWith_cons a p b s :
  Js.startsWith (String a p) (String b s) =
  if decide (a = b) then Js.startsWith p s else false.
Proof. done. Qed.

Lemma startsWith_empty a p : Js.startsWith (String a p) "" = false.
Proof. done. Qed.

(** X12: both comparers put a section into the same region: the version
    diff calls a name [FLASH] exactly when the build comparison counts its
    section into the flash totals, and [RAM] exactly when it counts it into
    the RAM totals; no section is in both, and [OTHER] is what is in neither. *)
Theorem regions_agree (s : Sect) :
  (MemoryDiff.determineRegion (sec_name s) = MemoryDiff.FLASH ↔ Compare.isFlash s) ∧
  (MemoryDiff.determineRegion (sec_name s) = MemoryDiff.RAM ↔ Compare.isRam s) ∧
  (MemoryDiff.determineRegion (sec_name s) = MemoryDiff.OTHER ↔
     ¬ Compare.isFlash s ∧ ¬ Compare.isRam s) ∧
  ¬ (Compare.isFlash s ∧ Compare.isRam s).
Proof.
  unfold MemoryDiff.determineRegion, Compare.isFlash, Compare.isRam.
  destruct (sec_name s) as [|a [|b n]].
  - rewrite !startsWith_empty. naive_solver.
  - rewrite !startsWith_cons, !startsWith_empty. case_decide; naive_solver.
  - rewrite !startsWith_cons.
    generalize (Js.startsWith "ext" n), (Js.startsWith "odata" n),
      (Js.startsWith "ata" n), (Js.startsWith "ss" n).
    intros t r d z.
    destruct (decide ("."%char = a)) as [<-|]; [|naive_solver].
    destruct (decide ("t"%char = b)) as [<-|]; simpl.
    { destruct t; naive_solver. }
    destruct (decide ("r"%char = b)) as [<-|]; simpl.
    { destruct r; naive_solver. }
    destruct (decide ("d"%char = b)) as [<-|]; simpl.
    { destruct d; naive_solver. }
    destruct (decide ("b"%char = b)) as [<-|]; simpl.
    { destruct z; naive_solver. }
    naive_solver.
Qed.

(** ** The comparison store: reads, deletes, puts and sweeps *)

Section StoreOps.
Context {R : Type}.
Implicit Types (store : gmap string (Storage.Entry R)) (id : string).

Lemma getComparison_result id now store r :
  (Storage.getComparison id now store).1 = Some r ↔
  ∃ entry, store !! id = Some entry ∧ now ≤ Storage.expiresAt entry ∧
           Storage.result entry = r.
Proof.
  unfold Storage.getComparison. destruct (store !! id) as [entry|]; simpl.
  - case_decide; simpl.
    + split; [done|]. intros (e & [= <-] & ? & _). lia.
    + split.
      * intros [= <-]. exists entry. split_and!; [done|lia|done].
      * by intros (e & [= <-] & _ & ->).
  - split; [done|]. by intros (e & ? & _).
Qed.

Lemma getComparison_store id now store id' :
  (Storage.getComparison id now store).2 !! id' =
  if decide (id' = id ∧ (Storage.getComparison id now store).1 = None) then None
  else store !! id'.
Proof.
  unfold Storage.getComparison. destruct (store !! id) as [entry|] eqn:Hid; simpl.
  - destruct (decide (Storage.expiresAt entry < now)); simpl.
    + case_decide as Hd.
      * destruct Hd as [-> _]. apply lookup_delete_eq.
      * apply lookup_delete_ne. naive_solver.
    + rewrite decide_False; [done|]. by intros [_ ?].
  - case_decide as Hd; [|done]. by destruct Hd as [-> _].
Qed.

End StoreOps.

(** X13: [getComparison] returns a result exactly when the id is stored with
    an expiry time that has not passed, and then it is the stored result; the
    call changes the store at most at the id asked for, and only when it
    returns [null]; asking again at the same time gives the same answer and
    leaves the store as it is. *)
Theorem get_reads_unexpired {R : Type} (store : gmap string (Storage.Entry R))
    (id : string) (now : Z) :
  (∀ r, (Storage.getComparison id now store).1 = Some r ↔
        ∃ entry, store !! id = Some entry ∧ now ≤ Storage.expiresAt entry ∧
                 Storage.result entry = r) ∧
  (∀ id', id' ≠ id → (Storage.getComparison id now store).2 !! id' = store !! id') ∧
  (is_Some (Storage.getComparison id now store).1 →
   (Storage.getComparison id now store).2 = store) ∧
  ((Storage.getComparison id now store).1 = None →
   (Storage.getComparison id now store).2 !! id = None) ∧
  Storage.getComparison id now (Storage.getComparison id now store).2
    = Storage.getComparison id now store.
Proof.
  split_and!.
  - intros r. apply getComparison_result.
  - intros id' Hne. rewrite getComparison_store. rewrite decide_False; [done|]. naive_solver.
  - intros [r Hr]. apply map_eq. intros id'. rewrite getComparison_store.
    rewrite decide_False; [done|]. intros [_ ?]. congruence.
  - intros Hnone. rewrite getComparison_store. by rewrite decide_True.
  - unfold Storage.getComparison. destruct (store !! id) as [entry|] eqn:Hid; simpl.
    + destruct (decide (Storage.expiresAt entry < now)) as [Hexp|Hexp]; simpl.
      * by rewrite lookup_delete_eq.
      * rewrite Hid. by rewrite decide_False.
    + by rewrite Hid.
Qed.

(** X14: [deleteComparison] answers [true] exactly when the id was stored;
    afterwards the id is gone, every other id is as before, a read of the id
    returns [null], and deleting it again answers [false]. *)
Theorem delete_removes_only_the_id {R : Type} (store : gmap string (Storage.Entry R))
    (id : string) :
  ((Storage.deleteComparison id store).1 = true ↔ is_Some (store !! id)) ∧
  (Storage.deleteComparison id store).2 !! id = None ∧
  (∀ id', id' ≠ id → (Storage.deleteComparison id store).2 !! id' = store !! id') ∧
  (∀ now, (Storage.getComparison id now (Storage.deleteComparison id store).2).1 = None) ∧
  (Storage.deleteComparison id (Storage.deleteComparison id store).2).1 = false.
Proof.
  unfold Storage.deleteComparison. simpl. split_and!.
  - apply bool_decide_eq_true.
  - apply lookup_delete_eq.
  - intros id' Hne. by apply lookup_delete_ne.
  - intros now. unfold Storage.getComparison. by rewrite lookup_delete_eq.
  - apply bool_decide_eq_false. rewrite lookup_delete_eq. by intros [? ?].
Qed.

(** X15: after [storeComparison] no entry of the store had expired when the
    clean-up ran; the new entry is there exactly when its own expiry time had
    not passed by then (so a time to live that is too short or negative
    returns an id that is not stored); every other id is kept, unchanged,
    exactly when it was stored before and had not expired; an entry stored
    before under the generated id is overwritten. *)
Theorem put_cleans_up {R : Type} (store : gmap string (Storage.Entry R))
    (compareResult : R) (ttl : option Z) (env : Storage.PutEnv) :
  (Storage.storeComparison compareResult ttl env store).1 = Storage.generatedId env ∧
  (∀ id entry, (Storage.storeComparison compareResult ttl env store).2 !! id = Some entry →
     Storage.nowAtCleanup env ≤ Storage.expiresAt entry) ∧
  (Storage.storeComparison compareResult ttl env store).2 !! Storage.generatedId env =
    (if decide (Storage.nowAtExpiry env + default Storage.DEFAULT_TTL ttl
                  < Storage.nowAtCleanup env)
     then None
     else Some (Storage.mkEntry compareResult
                  (Storage.nowAtExpiry env + default Storage.DEFAULT_TTL ttl)
                  (Storage.nowAtCreation env))) ∧
  (∀ id entry, id ≠ Storage.generatedId env →
     ((Storage.storeComparison compareResult ttl env store).2 !! id = Some entry ↔
      store !! id = Some entry ∧ Storage.nowAtCleanup env ≤ Storage.expiresAt entry)).
Proof.
  unfold Storage.storeComparison. cbv zeta. cbn [fst snd]. split_and!.
  - done.
  - intros id entry. rewrite cleanupExpired_lookup.
    destruct (_ !! id) as [e|]; [|done]. case_decide; [done|]. intros [= <-]. lia.
  - rewrite cleanupExpired_lookup, lookup_insert_eq. done.
  - intros id entry Hne. rewrite cleanupExpired_lookup, lookup_insert_ne by done.
    destruct (store !! id) as [e|]; [|naive_solver].
    case_decide; split.
    + done.
    + intros [[= <-] ?]. lia.
    + intros [= <-]. split; [done|lia].
    + by intros [[= <-] _].
Qed.

(** X16: the hourly sweeps never add or change an entry, and keep an entry
    exactly when it had not expired at any of the sweep times. *)
Theorem sweeps_keep_unexpired {R : Type} (store : gmap string (Storage.Entry R))
    (sweeps : list Z) (id : string) (entry : Storage.Entry R) :
  Storage.backgroundSweeps sweeps store !! id = Some entry ↔
  store !! id = Some entry ∧ Forall (λ t, t ≤ Storage.expiresAt entry) sweeps.
Proof.
  unfold Storage.backgroundSweeps. revert store.
  induction sweeps as [|t sweeps IH]; intros store; simpl.
  - split; [by intros ?|by intros [? _]].
  - rewrite IH, cleanupExpired_lookup, Forall_cons.
    destruct (store !! id) as [e|]; [|naive_solver].
    case_decide; split.
    + by intros [? _].
    + intros ([= <-] & ? & _). lia.
    + intros [[= <-] ?]. split_and!; [done|lia|done].
    + by intros ([= <-] & _ & ?).
Qed.

(** ** The matcher against the patterns *)

Lemma append_cons c s t : String c s +:+ t = String c (s +:+ t).
Proof. done. Qed.

Lemma append_nil_l t : "" +:+ t = t.
Proof. done. Qed.

Lemma append_assoc_str (s t u : string) : (s +:+ t) +:+ u = s +:+ (t +:+ u).
Proof. induction s as [|c s IH]; [done|]. by rewrite !append_cons, IH. Qed.

Lemma length_append_str (s t : string) :
  String.length (s +:+ t) = (String.length s + String.length t)%nat.
Proof. induction s as [|c s IH]; [done|]. rewrite append_cons. simpl. by rewrite IH. Qed.

Lemma substring_prefix (w s : string) :
  String.substring 0 (String.length w) (w +:+ s) = w.
Proof.
  induction w as [|c w IH].
  - rewrite append_nil_l. by destruct s.
  - rewrite append_cons. simpl. by rewrite IH.
Qed.

Lemma consumed_append w s : Regex.consumed (w +:+ s) s = w.
Proof.
  unfold Regex.consumed. rewrite length_append_str.
  replace (String.length w + String.length s - String.length s)%nat
    with (String.length w) by lia.
  apply substring_prefix.
Qed.

(** Whatever the matcher finds is a match of the pattern, in front of the
    text the continuation accepted. *)
Lemma run_sound r : ∀ s caps k res,
  Regex.run r s caps k = Some res →
  ∃ w s' caps', s = w +:+ s' ∧ matches r w caps caps' ∧ k s' caps' = Some res.
Proof.
  induction r as [|p|r1 IH1 r2 IH2|r IH|r IH|n r IH]; intros s caps k res Hrun.
  - exists "", s, caps. split_and!; [done|constructor|done].
  - simpl in Hrun. destruct s as [|c s]; [done|]. destruct (p c) eqn:Hp; [|done].
    exists (String c ""), s, caps. split_and!; [done|by constructor|done].
  - simpl in Hrun.
    apply IH1 in Hrun as (w1 & s1 & caps1 & -> & Hm1 & Hrun).
    apply IH2 in Hrun as (w2 & s2 & caps2 & -> & Hm2 & Hk).
    exists (w1 +:+ w2), s2, caps2. split_and!; [by rewrite append_assoc_str| |done].
    by econstructor.
  - simpl in Hrun. revert Hrun. generalize (String.length s) at 1. intros fuel.
    revert s caps. induction fuel as [|fuel IHf]; intros s caps Hrun.
    + exists "", s, caps. split_and!; [done|constructor|done].
    + match type of Hrun with
      | match ?t with _ => _ end = _ => destruct t as [found|] eqn:Hstep
      end.
      * injection Hrun as ->.
        apply IH in Hstep as (w1 & s1 & caps1 & -> & Hm1 & Hrest).
        case_decide; [|done].
        apply IHf in Hrest as (w2 & s2 & caps2 & -> & Hm2 & Hk).
        exists (w1 +:+ w2), s2, caps2.
        split_and!; [by rewrite append_assoc_str| |done]. by econstructor.
      * exists "", s, caps. split_and!; [done|constructor|done].
  - simpl in Hrun. destruct (Regex.run r s caps k) as [found|] eqn:Hstep.
    + injection Hrun as ->. apply IH in Hstep as (w & s' & caps' & -> & Hm & Hk).
      exists w, s', caps'. split_and!; [done|by constructor|done].
    + exists "", s, caps. split_and!; [done|constructor|done].
  - simpl in Hrun. apply IH in Hrun as (w & s' & caps' & -> & Hm & Hk).
    rewrite consumed_append in Hk.
    exists w, s', (<[n := Some w]> caps'). split_and!; [done|by constructor|done].
Qed.

Lemma exec_sound r groups s m :
  Regex.exec r groups s = Some m →
  ∃ w s', s = w +:+ s' ∧ matches r w (replicate groups None) m.
Proof.
  unfold Regex.exec. intros (w & s' & caps' & -> & Hm & [= <-])%run_sound. eauto.
Qed.

Lemma matches_eps_inv w caps caps' :
  matches Regex.Eps w caps caps' → w = "" ∧ caps' = caps.
Proof. by inversion 1. Qed.

Lemma matches_chr_inv p w caps caps' :
  matches (Regex.Chr p) w caps caps' → ∃ c, w = String c "" ∧ p c = true ∧ caps' = caps.
Proof. inversion 1; subst. eauto. Qed.

Lemma matches_seq_inv r1 r2 w caps caps2 :
  matches (Regex.Seq r1 r2) w caps caps2 →
  ∃ w1 w2 caps1, w = w1 +:+ w2 ∧ matches r1 w1 caps caps1 ∧ matches r2 w2 caps1 caps2.
Proof. inversion 1; subst. eauto 10. Qed.

Lemma matches_opt_inv r w caps caps' :
  matches (Regex.Opt r) w caps caps' → (w = "" ∧ caps' = caps) ∨ matches r w caps caps'.
Proof. inversion 1; subst; eauto. Qed.

Lemma matches_cap_inv n r w caps caps' :
  matches (Regex.Cap n r) w caps caps' →
  ∃ caps1, matches r w caps caps1 ∧ caps' = <[n := Some w]> caps1.
Proof. inversion 1; subst. eauto. Qed.

Lemma matches_lit_inv c w caps caps' :
  matches (Regex.Lit c) w caps caps' → w = String c "" ∧ caps' = caps.
Proof.
  intros (c' & -> & Hc & ->)%matches_chr_inv. by apply bool_decide_eq_true in Hc as ->.
Qed.

Lemma all_chars_append p s t :
  all_chars p (s +:+ t) = all_chars p s && all_chars p t.
Proof.
  induction s as [|c s IH]; [done|]. rewrite append_cons. simpl.
  rewrite IH. by destruct (p c).
Qed.

Lemma matches_star_chr p w caps caps' :
  matches (Regex.Star (Regex.Chr p)) w caps caps' → all_chars p w = true ∧ caps' = caps.
Proof.
  remember (Regex.Star (Regex.Chr p)) as r eqn:Hr. intros Hm. revert Hr.
  induction Hm as [| | |r caps|r w1 w2 caps caps1 caps2 Hm1 _ Hm2 IH2| | |]; try done.
  intros [= ->]. destruct (IH2 eq_refl) as [Hw2 ->].
  apply matches_chr_inv in Hm1 as (c & -> & Hc & ->).
  split; [|done]. rewrite append_cons. simpl. by rewrite Hc, append_nil_l.
Qed.

Lemma matches_plus_chr p w caps caps' :
  matches (Regex.Plus (Regex.Chr p)) w caps caps' → run_of p w ∧ caps' = caps.
Proof.
  unfold Regex.Plus.
  intros (w1 & w2 & caps1 & -> & (c & -> & Hc & ->)%matches_chr_inv
          & [Hw2 ->]%matches_star_chr)%matches_seq_inv.
  split; [|done]. rewrite append_cons. split; [done|]. simpl.
  by rewrite Hc, append_nil_l.
Qed.

(** What a match of the section-line pattern leaves in the captures. *)
Lemma sectionLine_captures w m :
  matches Parser.sectionLine w (replicate 5 None) m →
  ∃ rest hexA hexS,
    m !! 1%nat = Some (Some (String "." rest)) ∧ run_of Parser.isNameChar rest ∧
    m !! 2%nat = Some (Some hexA) ∧ run_of Parser.isHexChar hexA ∧
    m !! 3%nat = Some (Some hexS) ∧ run_of Parser.isHexChar hexS.
Proof.
  unfold Parser.sectionLine, Regex.seq. cbn [foldr].
  intros (? & ? & ? & _ & [_ ->]%matches_star_chr & H)%matches_seq_inv.
  apply matches_seq_inv in H as (w1 & ? & ? & _ & Hcap1 & H).
  apply matches_cap_inv in Hcap1 as (? & Hname & ->).
  apply matches_seq_inv in Hname as (? & ? & ? & -> & [-> ->]%matches_lit_inv & Hname).
  apply matches_seq_inv in Hname
    as (rest & ? & ? & -> & [Hrest ->]%matches_plus_chr & [-> ->]%matches_eps_inv).
  apply matches_seq_inv in H as (? & ? & ? & _ & [_ ->]%matches_plus_chr & H).
  apply matches_seq_inv in H as (? & ? & ? & _ & [_ ->]%matches_lit_inv & H).
  apply matches_seq_inv in H as (? & ? & ? & _ & [_ ->]%matches_lit_inv & H).
  apply matches_seq_inv in H as (hexA & ? & ? & _ & Hcap2 & H).
  apply matches_cap_inv in Hcap2 as (? & [HhexA ->]%matches_plus_chr & ->).
  apply matches_seq_inv in H as (? & ? & ? & _ & [_ ->]%matches_plus_chr & H).
  apply matches_seq_inv in H as (? & ? & ? & _ & [_ ->]%matches_lit_inv & H).
  apply matches_seq_inv in H as (? & ? & ? & _ & [_ ->]%matches_lit_inv & H).
  apply matches_seq_inv in H as (hexS & ? & ? & _ & Hcap3 & H).
  apply matches_cap_inv in Hcap3 as (? & [HhexS ->]%matches_plus_chr & ->).
  apply matches_seq_inv in H as (? & ? & ? & _ & Hopt & [_ ->]%matches_eps_inv).
  rewrite append_empty_r, append_cons, append_nil_l in Hopt.
  exists rest, hexA, hexS.
  apply matches_opt_inv in Hopt as [[_ ->]|Hopt]; [done|].
  apply matches_seq_inv in Hopt as (? & ? & ? & _ & [_ ->]%matches_plus_chr & Hopt).
  apply matches_seq_inv in Hopt as (? & ? & ? & _ & Hcap4 & [_ ->]%matches_eps_inv).
  apply matches_cap_inv in Hcap4 as (? & [_ ->]%matches_plus_chr & ->).
  done.
Qed.

(** ** Hexadecimal digits and [parseInt] *)

Lemma hex_not_space c : Parser.isHexChar c = true → Js.is_space c = false.
Proof.
  unfold Parser.isHexChar, Js.is_space, Js.hex_digit. cbv zeta.
  intros Hc%bool_decide_eq_true. apply bool_decide_eq_false.
  repeat case_decide; try lia. by destruct Hc.
Qed.

Lemma hex_is_digit c :
  Parser.isHexChar c = true → ∃ d, Js.hex_digit c = Some d ∧ 0 ≤ d.
Proof.
  unfold Parser.isHexChar. intros [d Hd]%bool_decide_eq_true. exists d. split; [done|].
  revert Hd. unfold Js.hex_digit. cbv zeta. repeat case_decide; intros [= <-]; lia.
Qed.

Lemma hex_run_all acc s :
  all_chars Parser.isHexChar s = true →
  Js.hex_run (Some acc) s = Some (hexValueFrom acc s).
Proof.
  revert acc. induction s as [|c r IH]; intros acc Hs; [done|].
  simpl in Hs. apply andb_true_iff in Hs as [Hc Hr].
  destruct (hex_is_digit c Hc) as (d & Hd & _). simpl. rewrite Hd. simpl. by apply IH.
Qed.

Lemma hexValueFrom_nonneg acc s :
  all_chars Parser.isHexChar s = true → 0 ≤ acc → 0 ≤ hexValueFrom acc s.
Proof.
  revert acc. induction s as [|c r IH]; intros acc Hs Hacc; [done|].
  simpl in Hs. apply andb_true_iff in Hs as [Hc Hr].
  destruct (hex_is_digit c Hc) as (d & Hd & ?). simpl. rewrite Hd. simpl.
  apply IH; [done|lia].
Qed.

(** Without white space, a sign or a [0x] prefix in front, [parseInt] reads
    the digits from the first character on. *)
Lemma parseInt16_start c r :
  Js.is_space c = false → c ≠ "-"%char → c ≠ "+"%char →
  (∀ r', r ≠ String "x" r' ∧ r ≠ String "X" r') →
  Js.parseInt16 (String c r) =
    match Js.hex_run None (String c r) with
    | Some v => Js.Int (Js.fl (1 * v))
    | None => Js.NaN
    end.
Proof.
  intros Hsp Hminus Hplus Hx. unfold Js.parseInt16. cbn [Js.skip_spaces]. rewrite Hsp.
  clear Hsp.
  destruct c as [[] [] [] [] [] [] [] []]; try done.
  destruct r as [|c2 r2]; [done|].
  destruct c2 as [[] [] [] [] [] [] [] []]; try done; destruct (Hx r2) as [? ?]; done.
Qed.

Lemma parseInt16_hex s :
  run_of Parser.isHexChar s →
  Js.parseInt16 s = Js.Int (Js.fl (hexValue s)) ∧ 0 ≤ hexValue s.
Proof.
  intros [Hne Hs]. destruct s as [|c r]; [done|].
  pose proof Hs as Hs'. simpl in Hs'. apply andb_true_iff in Hs' as [Hc Hr].
  destruct (hex_is_digit c Hc) as (d & Hd & ?).
  split.
  - rewrite parseInt16_start.
    + simpl. rewrite Hd. rewrite hex_run_all by done.
      unfold hexValue. simpl. rewrite Hd. do 2 f_equal. simpl. lia.
    + by apply hex_not_space.
    + intros ->. by vm_compute in Hc.
    + intros ->. by vm_compute in Hc.
    + intros r'. split; intros ->; simpl in Hr; by vm_compute in Hr.
  - by apply hexValueFrom_nonneg.
Qed.

(** ** File names *)

Lemma split_segments_keep d c s :
  Js.includes d s = false → Forall (λ p, Js.includes d p = false) (Js.split c s).
Proof.
  induction s as [|a r IH]; simpl; [by repeat constructor|].
  destruct (decide (a = d)); [done|]. intros Hr. specialize (IH Hr).
  destruct (decide (a = c)); [by constructor|].
  destruct (Js.split c r) as [|h t]; [repeat constructor; simpl; by rewrite decide_False|].
  apply Forall_cons in IH as [Hh Ht]. constructor; [|done].
  simpl. by rewrite decide_False.
Qed.

Lemma split_segments_no_sep c s : Forall (λ p, Js.includes c p = false) (Js.split c s).
Proof.
  induction s as [|a r IH]; simpl; [by repeat constructor|].
  destruct (decide (a = c)); [by constructor|].
  destruct (Js.split c r) as [|h t]; [repeat constructor; simpl; by rewrite decide_False|].
  apply Forall_cons in IH as [Hh Ht]. constructor; [|done].
  simpl. by rewrite decide_False.
Qed.

Lemma pop_Forall (P : string → Prop) parts : parts ≠ [] → Forall P parts → P (Js.pop parts).
Proof.
  unfold Js.pop. induction parts as [|p parts IH]; [done|]. intros _ [Hp Hps]%Forall_cons.
  destruct parts as [|q parts]; [done|]. by apply IH.
Qed.

Lemma strip_dir_no_sep c fp :
  Js.includes c
    (if negb (bool_decide (fp = "")) && Js.includes c fp then Js.pop (Js.split c fp) else fp)
  = false.
Proof.
  destruct (bool_decide (fp = "")) eqn:Hfp; simpl.
  - by apply bool_decide_eq_true in Hfp as ->.
  - destruct (Js.includes c fp) eqn:Hc; [|done].
    apply (pop_Forall (λ p, Js.includes c p = false)); [apply split_nonempty|].
    apply split_segments_no_sep.
Qed.

Lemma strip_dir_keeps d c fp :
  Js.includes d fp = false →
  Js.includes d
    (if negb (bool_decide (fp = "")) && Js.includes c fp then Js.pop (Js.split c fp) else fp)
  = false.
Proof.
  intros Hd. destruct (negb _ && _); [|done].
  apply (pop_Forall (λ p, Js.includes d p = false)); [apply split_nonempty|].
  by apply split_segments_keep.
Qed.

(** The groups of a match of the section pattern. *)
Lemma sectionLine_groups line m :
  Regex.exec Parser.sectionLine 5 line = Some m →
  (∃ rest, Regex.group m 1 = String "." rest ∧ run_of Parser.isNameChar rest) ∧
  run_of Parser.isHexChar (Regex.group m 2) ∧
  run_of Parser.isHexChar (Regex.group m 3).
Proof.
  intros (w & s' & _ & Hm)%exec_sound.
  apply sectionLine_captures in Hm
    as (rest & hexA & hexS & H1 & Hrest & H2 & HhexA & H3 & HhexS).
  unfold Regex.group. rewrite H1, H2, H3. simpl. eauto.
Qed.

Lemma parseLine_Some line s :
  Parser.parseLine line = Some s →
  ∃ m, Regex.exec Parser.sectionLine 5 line = Some m ∧
    sec_name s = Regex.group m 1 ∧
    sec_address s = Some ("0x" +:+ Regex.group m 2) ∧
    sec_size s = Js.fl (hexValue (Regex.group m 3)) ∧
    sec_subsections s = None ∧
    ∀ f, sec_filePath s = Some f →
         f ≠ "" ∧ Js.includes "/" f = false ∧ Js.includes "\" f = false.
Proof.
  unfold Parser.parseLine.
  destruct (Regex.exec Parser.sectionLine 5 line) as [m|] eqn:Hexec; [|done].
  destruct (sectionLine_groups _ _ Hexec) as (_ & _ & HhexS).
  destruct (parseInt16_hex _ HhexS) as [-> _].
  generalize (from_option Js.trim "" (mjoin (m !! 4%nat))). intros fp.
  case_decide; [|done]. intros [= <-]. exists m.
  cbn [sec_name sec_address sec_size sec_subsections sec_filePath].
  split_and!; try done.
  intros f Hf. unfold Js.or_null in Hf. case_decide as Hne; [done|].
  injection Hf as <-. split_and!; [done| |].
  - apply strip_dir_keeps, strip_dir_no_sep.
  - apply strip_dir_no_sep.
Qed.

(** X17: every section [parseMapFile] returns comes from a line of the text
    that the section pattern matches: its name is the first group, a dot
    followed by at least one letter, digit, underscore or dot; its address
    is [0x] followed by the second group, at least one hexadecimal digit;
    its size is the double nearest to the number that the digits of the
    third group denote (for numbers below 2^1023, where doubles are finite);
    it has no subsection count, and its file path is either [null] or a
    nonempty string without [/] and without a backslash. *)
Theorem parsed_section_shape (content : string) (s : Sect) :
  s ∈ an_sections (parseMapFile content) →
  ∃ line m,
    line ∈ Js.split "010" content ∧
    Regex.exec Parser.sectionLine 5 line = Some m ∧
    sec_name s = Regex.group m 1 ∧
    (∃ rest, Regex.group m 1 = String "." rest ∧ run_of Parser.isNameChar rest) ∧
    sec_address s = Some ("0x" +:+ Regex.group m 2) ∧
    run_of Parser.isHexChar (Regex.group m 2) ∧
    run_of Parser.isHexChar (Regex.group m 3) ∧
    (hexValue (Regex.group m 3) < 2 ^ 1023 →
     sec_size s = Js.fl (hexValue (Regex.group m 3))) ∧
    sec_subsections s = None ∧
    (∀ f, sec_filePath s = Some f →
          f ≠ "" ∧ Js.includes "/" f = false ∧ Js.includes "\" f = false).
Proof.
  unfold parseMapFile, Parser.scanSections. simpl.
  rewrite elem_of_sort. intros (line & Hline & Hs)%list_elem_of_omap.
  apply parseLine_Some in Hs as (m & Hexec & ? & ? & ? & ? & ?).
  destruct (sectionLine_groups _ _ Hexec) as (? & ? & ?).
  exists line, m. split_and!; done.
Qed.

Lemma parsed_section_shape_witness :
  mkSect ".text.main" (Some "0x00000778") 3072 (Some "main.o") None
    ∈ an_sections (parseMapFile ".text.main    0x00000778    0x00000c00  path/to/main.o") ∧
  ∃ line m,
    line ∈ Js.split "010" ".text.main    0x00000778    0x00000c00  path/to/main.o" ∧
    Regex.exec Parser.sectionLine 5 line = Some m ∧
    ".text.main" = Regex.group m 1.
Proof.
  assert (mkSect ".text.main" (Some "0x00000778") 3072 (Some "main.o") None
    ∈ an_sections (parseMapFile ".text.main    0x00000778    0x00000c00  path/to/main.o"))
    as Hs by (vm_compute; left).
  split; [exact Hs|].
  destruct (parsed_section_shape _ _ Hs) as (line & m & Hline & Hexec & Hname & _).
  by exists line, m.
Defined.

(** X18: a line the section pattern matches, with size digits that denote
    less than 2^1023, is dropped exactly when the digits denote zero: on
    them [parseInt] never yields [NaN] but the double nearest to the number
    they denote, and when that is positive the line gives a section of that
    size, named by the first group, with the address of the second. *)
Theorem matched_line_dropped_iff_zero (line : string) (m : list (option string)) :
  Regex.exec Parser.sectionLine 5 line = Some m →
  hexValue (Regex.group m 3) < 2 ^ 1023 →
  Js.parseInt16 (Regex.group m 3) = Js.Int (Js.fl (hexValue (Regex.group m 3))) ∧
  (Parser.parseLine line = None ↔ hexValue (Regex.group m 3) = 0) ∧
  (∀ s, Parser.parseLine line = Some s →
        sec_name s = Regex.group m 1 ∧
        sec_size s = Js.fl (hexValue (Regex.group m 3)) ∧
        sec_address s = Some ("0x" +:+ Regex.group m 2)).
Proof.
  intros Hexec _.
  destruct (sectionLine_groups _ _ Hexec) as (_ & _ & HhexS).
  destruct (parseInt16_hex _ HhexS) as [Hparse Hpos].
  split_and!; [done| |].
  - unfold Parser.parseLine. rewrite Hexec, Hparse.
    destruct (decide (0 < Js.fl (hexValue (Regex.group m 3)))) as [Hfl|Hfl]; split.
    + done.
    + intros Hz. rewrite Hz in Hfl. by vm_compute in Hfl.
    + intros _. destruct (decide (hexValue (Regex.group m 3) = 0)) as [|Hne]; [done|].
      destruct Hfl. apply fl_pos. lia.
    + done.
  - intros s (m' & Hexec' & Hn & Ha & Hsz & _)%parseLine_Some.
    rewrite Hexec in Hexec'. by injection Hexec' as <-.
Qed.

Lemma matched_line_dropped_iff_zero_witness :
  Regex.exec Parser.sectionLine 5 ".stack 0x300 0x0"
    = Some [None; Some ".stack"; Some "300"; Some "0"; None] ∧
  (Parser.parseLine ".stack 0x300 0x0" = None ↔
   hexValue (Regex.group [None; Some ".stack"; Some "300"; Some "0"; None] 3) = 0).
Proof.
  assert (Regex.exec Parser.sectionLine 5 ".stack 0x300 0x0"
          = Some [None; Some ".stack"; Some "300"; Some "0"; None]) as Hexec
    by (vm_compute; reflexivity).
  assert (hexValue (Regex.group [None; Some ".stack"; Some "300"; Some "0"; None] 3)
          < 2 ^ 1023) as Hb by (by vm_compute).
  split; [exact Hexec|].
  exact (proj1 (proj2 (matched_line_dropped_iff_zero _ _ Hexec Hb))).
Defined.

(** A size beyond 2^53 comes out as the nearest double: the digits denote
    2^53 + 1, the section has 2^53 bytes. *)
Example parse_rounds_run :
  sec_size <$> Parser.parseLine ".data 0x0 0x20000000000001 a.o" = Some (2 ^ 53).
Proof. by vm_compute. Qed.

(** ** The deltas of a comparison add up to the totals *)

Lemma filter_ext_in {A} (P Q : A → Prop) `{!∀ x, Decision (P x), !∀ x, Decision (Q x)}
    (l : list A) :
  (∀ x, x ∈ l → P x ↔ Q x) → filter P l = filter Q l.
Proof.
  induction l as [|x l IH]; [done|]. intros Hl.
  rewrite !filter_cons, IH by (intros y Hy; apply Hl; by right).
  destruct (decide (P x)) as [HP|HP].
  - rewrite decide_True; [done|]. apply Hl; [left|done].
  - rewrite decide_False; [done|]. intros HQ. apply HP, Hl; [left|done].
Qed.

Lemma filter_all {A} (P : A → Prop) `{!∀ x, Decision (P x)} (l : list A) :
  (∀ x, P x) → filter P l = l.
Proof.
  intros HP. induction l as [|x l IH]; [done|].
  by rewrite filter_cons, decide_True, IH by done.
Qed.

Lemma Forall_filter_nonneg {A} (f : A → Z) (P : A → Prop) `{!∀ x, Decision (P x)} l :
  Forall (λ x, 0 ≤ f x) l → Forall (λ x, 0 ≤ f x) (filter P l).
Proof.
  rewrite !Forall_forall. intros Hl x [_ Hx]%list_elem_of_filter. auto.
Qed.

Lemma sizeNamed_cons n s secs :
  sec_name s ∉ sec_name <$> secs →
  sizeNamed n (s :: secs) =
    (if decide (sec_name s = n) then sec_size s else 0) + sizeNamed n secs.
Proof.
  intros Hs. unfold sizeNamed, lastNamed. rewrite filter_cons.
  destruct (decide (sec_name s = n)) as [<-|Hne]; [|lia].
  rewrite filter_none; [simpl; lia|].
  intros x Hx Hn. destruct Hs. rewrite <-Hn. by apply list_elem_of_fmap_2.
Qed.

Lemma sizeNamed_nonneg n secs : Forall (λ s, 0 ≤ sec_size s) secs → 0 ≤ sizeNamed n secs.
Proof.
  intros Hpos. unfold sizeNamed, lastNamed.
  destruct (last _) as [s|] eqn:Hs; simpl; [|done].
  apply last_Some_elem_of, list_elem_of_filter in Hs as [_ Hs].
  rewrite Forall_forall in Hpos. auto.
Qed.

Lemma esum_sizeNamed secs (l : list string) :
  NoDup (sec_name <$> secs) → NoDup l →
  exactSum (λ n, sizeNamed n secs) l =
    exactSum sec_size (filter (λ s, sec_name s ∈ l) secs).
Proof.
  intros Hsecs Hl. induction secs as [|s secs IH].
  - rewrite (esum_ext _ (λ _, 0)) by done. apply esum_zero.
  - rewrite fmap_cons in Hsecs. apply NoDup_cons in Hsecs as [Hs Hsecs].
    rewrite (esum_ext _ (λ n, (if decide (sec_name s = n) then sec_size s else 0)
                              + sizeNamed n secs))
      by (intros n; by apply sizeNamed_cons).
    rewrite esum_plus, esum_indicator, IH, filter_cons by done.
    case_decide; [by rewrite esum_cons|lia].
Qed.

Section DeltaSums.
Context `{FloatOps} (a b : Analysis) (iu : bool).
Context (P : string → Prop) `{!∀ n, Decision (P n)}.

Lemma esum_deltas_omap l :
  exactSum Compare.sd_delta
    (filter (λ d, P (Compare.sd_name d))
       (omap (Compare.sectionDiffOf iu (Compare.sectionMap a) (Compare.sectionMap b)) l)) =
  exactSum (λ n, sizeNamed n (an_sections b) - sizeNamed n (an_sections a)) (filter P l).
Proof.
  induction l as [|n l IH]; [done|]. csimpl.
  destruct (Compare.sectionDiffOf iu (Compare.sectionMap a) (Compare.sectionMap b) n)
    as [d|] eqn:Hd.
  - destruct (sectionDiffOf_Some _ _ _ _ _ Hd) as (Hn & HA & HB & Hdelta & _).
    rewrite !sectionMap_get in *.
    rewrite !filter_cons, Hn. case_decide; [|done].
    rewrite !esum_cons, IH, Hdelta, HA, HB. done.
  - assert (sizeNamed n (an_sections b) = sizeNamed n (an_sections a)) as Heq.
    { destruct (decide (sizeNamed n (an_sections b) = sizeNamed n (an_sections a)))
        as [|Hne]; [done|].
      assert (is_Some (Compare.sectionDiffOf iu (Compare.sectionMap a)
                         (Compare.sectionMap b) n)) as [? ?]
        by (apply (sectionDiffOf_is_Some a b (Compare.mkOptions None None None (Some iu)) n);
            by right).
      congruence. }
    rewrite filter_cons. case_decide; [|done]. rewrite esum_cons, IH. lia.
Qed.

(** The magnitudes of the deltas stay below the sizes they come from. *)
Lemma esum_abs_deltas_omap l :
  Forall (λ s, 0 ≤ sec_size s) (an_sections a) →
  Forall (λ s, 0 ≤ sec_size s) (an_sections b) →
  exactSum (λ d, Z.abs (Compare.sd_delta d))
    (filter (λ d, P (Compare.sd_name d))
       (omap (Compare.sectionDiffOf iu (Compare.sectionMap a) (Compare.sectionMap b)) l)) ≤
  exactSum (λ n, sizeNamed n (an_sections b) + sizeNamed n (an_sections a)) (filter P l).
Proof.
  intros Hpa Hpb. induction l as [|n l IH]; [done|]. csimpl.
  pose proof (sizeNamed_nonneg n _ Hpa). pose proof (sizeNamed_nonneg n _ Hpb).
  destruct (Compare.sectionDiffOf iu (Compare.sectionMap a) (Compare.sectionMap b) n)
    as [d|] eqn:Hd.
  - destruct (sectionDiffOf_Some _ _ _ _ _ Hd) as (Hn & HA & HB & Hdelta & _).
    rewrite !sectionMap_get in *. fold (sizeNamed n (an_sections a)) in HA.
    fold (sizeNamed n (an_sections b)) in HB.
    rewrite !filter_cons, Hn. case_decide; [|done].
    rewrite !esum_cons. lia.
  - rewrite filter_cons. case_decide; [|done]. rewrite esum_cons. lia.
Qed.

Lemma deltas_by_name :
  uniqueNames a → uniqueNames b →
  exactSum Compare.sd_delta
    (filter (λ d, P (Compare.sd_name d)) (Compare.sectionDiffsOf iu a b)) =
  exactSum sec_size (filter (λ s, P (sec_name s)) (an_sections b)) -
  exactSum sec_size (filter (λ s, P (sec_name s)) (an_sections a)).
Proof.
  intros Ha Hb. unfold Compare.sectionDiffsOf. cbv zeta.
  rewrite esum_deltas_omap, esum_minus.
  set (names := Compare.allSectionNames (Compare.sectionMap a) (Compare.sectionMap b)).
  assert (NoDup (filter P names)) as Hnd
    by apply NoDup_filter, NoDup_allSectionNames.
  rewrite !esum_sizeNamed by done.
  f_equal.
  - apply f_equal, filter_ext_in. intros s Hs.
    rewrite list_elem_of_filter. unfold names. rewrite elem_of_allSectionNames.
    unfold namedIn. naive_solver.
  - apply f_equal, filter_ext_in. intros s Hs.
    rewrite list_elem_of_filter. unfold names. rewrite elem_of_allSectionNames.
    unfold namedIn. naive_solver.
Qed.

Lemma abs_deltas_by_name :
  uniqueNames a → uniqueNames b →
  Forall (λ s, 0 ≤ sec_size s) (an_sections a) →
  Forall (λ s, 0 ≤ sec_size s) (an_sections b) →
  exactSum (λ d, Z.abs (Compare.sd_delta d))
    (filter (λ d, P (Compare.sd_name d)) (Compare.sectionDiffsOf iu a b)) ≤
  exactSum sec_size (an_sections a) + exactSum sec_size (an_sections b).
Proof.
  intros Ha Hb Hpa Hpb. unfold Compare.sectionDiffsOf. cbv zeta.
  etransitivity; [by apply esum_abs_deltas_omap|].
  rewrite esum_plus.
  set (names := Compare.allSectionNames (Compare.sectionMap a) (Compare.sectionMap b)).
  assert (NoDup (filter P names)) as Hnd
    by apply NoDup_filter, NoDup_allSectionNames.
  rewrite !esum_sizeNamed by done.
  pose proof (esum_filter_le sec_size (λ s, sec_name s ∈ filter P names) _ Hpa).
  pose proof (esum_filter_le sec_size (λ s, sec_name s ∈ filter P names) _ Hpb).
  lia.
Qed.

(** Within the exact range the deltas of the diffs of the names in [P], in
    whatever order they are listed, add up to the difference of the sizes
    of the sections of those names. *)
Lemma sorted_deltas_by_name (cmp : Compare.SectionDiff → Compare.SectionDiff → Z) :
  uniqueNames a → uniqueNames b →
  Forall (λ s, 0 ≤ sec_size s) (an_sections a) →
  Forall (λ s, 0 ≤ sec_size s) (an_sections b) →
  exactSum sec_size (an_sections a) + exactSum sec_size (an_sections b) ≤ 2 ^ 53 →
  Js.sum Compare.sd_delta
    (filter (λ d, P (Compare.sd_name d)) (Js.sort cmp (Compare.sectionDiffsOf iu a b))) =
  Js.sum sec_size (filter (λ s, P (sec_name s)) (an_sections b)) -
  Js.sum sec_size (filter (λ s, P (sec_name s)) (an_sections a)).
Proof.
  intros Ha Hb Hpa Hpb Hbound.
  pose proof (esum_nonneg sec_size _ Hpa). pose proof (esum_nonneg sec_size _ Hpb).
  pose proof (esum_filter_le sec_size (λ s, P (sec_name s)) _ Hpa).
  pose proof (esum_filter_le sec_size (λ s, P (sec_name s)) _ Hpb).
  assert (filter (λ d, P (Compare.sd_name d)) (Js.sort cmp (Compare.sectionDiffsOf iu a b))
            ≡ₚ filter (λ d, P (Compare.sd_name d)) (Compare.sectionDiffsOf iu a b)) as Hperm
    by (by rewrite sort_perm).
  rewrite sum_exact.
  - rewrite (esum_perm _ _ _ Hperm), (deltas_by_name Ha Hb).
    rewrite !sum_exact_nonneg; (done || lia || by apply Forall_filter_nonneg).
  - rewrite (esum_perm _ _ _ Hperm).
    etransitivity; [by apply abs_deltas_by_name|]. done.
Qed.

End DeltaSums.

(** X19: when no two sections of an input share a name and the sizes, none
    of them negative, add up to no more than 2^53 over both inputs, the
    summary's [flashDelta] is the sum of the deltas of the section diffs with
    a flash name, [ramDelta] that of the diffs with a RAM name, and the
    deltas of all section diffs add up to the difference of the two inputs'
    total sizes, whether unchanged sections are listed or not. *)
Theorem summary_deltas_are_sums `{FloatOps}
    (a b : Analysis) (opts : Compare.Options) :
  uniqueNames a → uniqueNames b →
  Forall (λ s, 0 ≤ sec_size s) (an_sections a) →
  Forall (λ s, 0 ≤ sec_size s) (an_sections b) →
  exactSum sec_size (an_sections a) + exactSum sec_size (an_sections b) ≤ 2 ^ 53 →
  Compare.flashDelta (Compare.summary (Compare.compareAnalyses a b opts)) =
    Js.sum Compare.sd_delta
      (filter (λ d, flashName (Compare.sd_name d))
         (Compare.sections (Compare.compareAnalyses a b opts))) ∧
  Compare.ramDelta (Compare.summary (Compare.compareAnalyses a b opts)) =
    Js.sum Compare.sd_delta
      (filter (λ d, ramName (Compare.sd_name d))
         (Compare.sections (Compare.compareAnalyses a b opts))) ∧
  Js.sum Compare.sd_delta (Compare.sections (Compare.compareAnalyses a b opts)) =
    Js.sum sec_size (an_sections b) - Js.sum sec_size (an_sections a).
Proof.
  intros Ha Hb Hpa Hpb Hbound. simpl. split_and!.
  - symmetry.
    exact (sorted_deltas_by_name a b (default false (Compare.includeUnchanged opts))
             flashName Compare.byAbsDelta Ha Hb Hpa Hpb Hbound).
  - symmetry.
    exact (sorted_deltas_by_name a b (default false (Compare.includeUnchanged opts))
             ramName Compare.byAbsDelta Ha Hb Hpa Hpb Hbound).
  - pose proof (sorted_deltas_by_name a b (default false (Compare.includeUnchanged opts))
                  (λ _, True) Compare.byAbsDelta Ha Hb Hpa Hpb Hbound) as Hall.
    by rewrite !filter_all in Hall by done.
Qed.

Lemma summary_deltas_are_sums_witness :
  uniqueNames buildA ∧ uniqueNames buildB ∧
  Js.sum Compare.sd_delta
    (Compare.sections (@Compare.compareAnalyses exactFloat buildA buildB noOptions)) =
    Js.sum sec_size (an_sections buildB) - Js.sum sec_size (an_sections buildA).
Proof.
  assert (uniqueNames buildA) as Ha by (unfold uniqueNames; simpl; repeat constructor; set_solver).
  assert (uniqueNames buildB) as Hb by (unfold uniqueNames; simpl; repeat constructor; set_solver).
  assert (Forall (λ s, 0 ≤ sec_size s) (an_sections buildA)) as Hpa
    by (repeat constructor; by vm_compute).
  assert (Forall (λ s, 0 ≤ sec_size s) (an_sections buildB)) as Hpb
    by (repeat constructor; by vm_compute).
  assert (exactSum sec_size (an_sections buildA) + exactSum sec_size (an_sections buildB)
          ≤ 2 ^ 53) as Hbound by (by vm_compute).
  split_and!; [exact Ha|exact Hb|].
  exact (proj2 (proj2 (@summary_deltas_are_sums exactFloat buildA buildB noOptions
                         Ha Hb Hpa Hpb Hbound))).
Defined.

(** ** The regions of the section table and of the memory summary *)

(** Two prefixes that differ in their second character never fit the same
    name. *)
Lemma startsWith_second a c1 c2 p q n :
  Js.startsWith (String a (String c1 p)) n = true →
  Js.startsWith (String a (String c2 q)) n = true → c1 = c2.
Proof.
  destruct n as [|x [|y n]]; [done| |].
  - rewrite !startsWith_cons, startsWith_empty. by case_decide.
  - rewrite !startsWith_cons.
    destruct (decide (a = x)); [|done].
    destruct (decide (c1 = y)) as [<-|]; [|done].
    by destruct (decide (c2 = c1)).
Qed.

Lemma startsWith_excludes a c1 c2 p q n :
  Js.startsWith (String a (String c1 p)) n = true →
  c1 ≠ c2 →
  Js.startsWith (String a (String c2 q)) n = false.
Proof.
  intros H1 Hne. destruct (Js.startsWith (String a (String c2 q)) n) eqn:H2; [|done].
  destruct Hne. by eapply startsWith_second.
Qed.

(** X20: the section table never shows the region [FLASH+RAM]: a name that
    starts with [.data] is already taken as [FLASH]. The table shows [FLASH]
    for every name the version diff puts into [FLASH]; a [.data] name is
    [FLASH] in the table and [RAM] in the version diff; a [.bss] name is
    [RAM] in both. *)
Theorem table_region_never_flash_ram (n : string) :
  SectionsTable.getRegion n ≠ SectionsTable.FLASH_RAM ∧
  (MemoryDiff.determineRegion n = MemoryDiff.FLASH →
   SectionsTable.getRegion n = SectionsTable.FLASH) ∧
  (Js.startsWith ".data" n = true →
   SectionsTable.getRegion n = SectionsTable.FLASH ∧
   MemoryDiff.determineRegion n = MemoryDiff.RAM) ∧
  (Js.startsWith ".bss" n = true →
   SectionsTable.getRegion n = SectionsTable.RAM ∧
   MemoryDiff.determineRegion n = MemoryDiff.RAM).
Proof.
  unfold SectionsTable.getRegion, MemoryDiff.determineRegion,
    SectionsTable.flashSections, SectionsTable.ramSections.
  cbn [existsb]. split_and!.
  - destruct (Js.startsWith ".data" n); [|by repeat case_match].
    by rewrite !orb_true_r.
  - destruct (Js.startsWith ".text" n); [done|].
    destruct (Js.startsWith ".rodata" n); [done|]. cbn [orb].
    by destruct (Js.startsWith ".data" n || Js.startsWith ".bss" n).
  - intros Hd. rewrite Hd, !orb_true_r.
    rewrite (startsWith_excludes _ _ "t" _ "ext" _ Hd) by done.
    rewrite (startsWith_excludes _ _ "r" _ "odata" _ Hd) by done.
    done.
  - intros Hb. rewrite Hb.
    rewrite (startsWith_excludes _ _ "t" _ "ext" _ Hb) by done.
    rewrite (startsWith_excludes _ _ "r" _ "odata" _ Hb) by done.
    rewrite (startsWith_excludes _ _ "d" _ "ata" _ Hb) by done.
    rewrite (startsWith_excludes _ _ "i" _ "nit_array" _ Hb) by done.
    rewrite (startsWith_excludes _ _ "f" _ "ini_array" _ Hb) by done.
    rewrite (startsWith_excludes _ _ "A" _ "RM.exidx" _ Hb) by done.
    rewrite (startsWith_excludes _ _ "A" _ "RM.extab" _ Hb) by done.
    done.
Qed.

Lemma esum_filter_or_and {A} (f : A → Z) (P Q : A → Prop)
    `{!∀ x, Decision (P x), !∀ x, Decision (Q x)} (l : list A) :
  exactSum f (filter P l) + exactSum f (filter Q l) =
  exactSum f (filter (λ x, P x ∨ Q x) l) + exactSum f (filter (λ x, P x ∧ Q x) l).
Proof.
  induction l as [|x l IH]; [done|]. rewrite !filter_cons.
  destruct (decide (P x)), (decide (Q x)).
  - rewrite !decide_True by auto. rewrite !esum_cons. lia.
  - rewrite decide_True by auto. rewrite decide_False by (by intros [? ?]).
    rewrite !esum_cons. lia.
  - rewrite decide_True by auto. rewrite decide_False by (by intros [? ?]).
    rewrite !esum_cons. lia.
  - rewrite !decide_False by (by intros [?|?] || by intros [? ?]). lia.
Qed.

(** In [Hf], every test for a prefix whose second character differs from
    that of the prefix [H] speaks of is false. *)
Ltac exclude_by H Hf :=
  repeat match type of H with
  | Js.startsWith (String _ (String ?c1 _)) ?n = true =>
      match type of Hf with
      | context [Js.startsWith (String ?a (String ?c2 ?q)) n] =>
          rewrite (startsWith_excludes a c1 c2 _ q n H) in Hf by done
      end
  end.

Lemma counted_twice_iff_data s : countedFlash s ∧ countedRam s ↔ dataNamed s.
Proof.
  unfold countedFlash, countedRam, dataNamed,
    MemorySummary.flashSections, MemorySummary.ramSections.
  cbn [existsb]. split.
  - intros [Hf Hr]. destruct (Js.startsWith ".data" (sec_name s)) eqn:Hd; [done|].
    rewrite orb_false_l, orb_false_r in Hr.
    apply orb_true_iff in Hr as [Hb|Hr]; [|apply orb_true_iff in Hr as [Hs|Hh]].
    + exclude_by Hb Hf. done.
    + exclude_by Hs Hf. done.
    + exclude_by Hh Hf. done.
  - intros Hd. rewrite Hd. by rewrite !orb_true_r.
Qed.

(** X21: the memory summary counts a section whose name starts with [.data]
    into both [usedFlash] and [usedRAM], and no other section twice: when the
    sizes are not negative and add up to no more than 2^53, so that no sum
    rounds, the two add up to the sizes of the sections counted at all plus
    the sizes of the [.data] sections. Every section the build comparison
    counts as flash or as RAM is counted by the summary too, and a region
    whose length is missing or 0 is shown as 0 percent used. *)
Theorem memory_usage_counts_data_twice `{FloatOps}
    (sections : list Sect) (flashLength ramLength : option Z) :
  (Forall (λ s, 0 ≤ sec_size s) sections → exactSum sec_size sections ≤ 2 ^ 53 →
   MemorySummary.usedFlash (MemorySummary.calculateMemoryUsage sections flashLength ramLength) +
   MemorySummary.usedRAM (MemorySummary.calculateMemoryUsage sections flashLength ramLength) =
     exactSum sec_size (filter (λ s, countedFlash s ∨ countedRam s) sections) +
     exactSum sec_size (filter dataNamed sections)) ∧
  (∀ s, countedFlash s ∧ countedRam s ↔ dataNamed s) ∧
  (∀ s, Compare.isFlash s → countedFlash s) ∧
  (∀ s, Compare.isRam s → countedRam s) ∧
  (flashLength = None ∨ flashLength = Some 0 →
   MemorySummary.flashUsagePercent
     (MemorySummary.calculateMemoryUsage sections flashLength ramLength) = 0%Qc) ∧
  (ramLength = None ∨ ramLength = Some 0 →
   MemorySummary.ramUsagePercent
     (MemorySummary.calculateMemoryUsage sections flashLength ramLength) = 0%Qc).
Proof.
  split_and!.
  - intros Hpos Hb.
    cbn [MemorySummary.calculateMemoryUsage MemorySummary.usedFlash MemorySummary.usedRAM].
    fold countedFlash countedRam.
    pose proof (esum_filter_le sec_size countedFlash _ Hpos).
    pose proof (esum_filter_le sec_size countedRam _ Hpos).
    rewrite !sum_exact_nonneg by (lia || by apply Forall_filter_nonneg).
    rewrite (esum_filter_or_and sec_size countedFlash countedRam). f_equal. f_equal.
    apply filter_ext_in. intros s _. apply counted_twice_iff_data.
  - apply counted_twice_iff_data.
  - intros s. unfold Compare.isFlash, countedFlash, MemorySummary.flashSections.
    cbn [existsb]. intros [-> | ->]; [done|]. by rewrite orb_true_r.
  - intros s. unfold Compare.isRam, countedRam, MemorySummary.ramSections.
    cbn [existsb]. intros [-> | ->]; [done|]. by rewrite orb_true_r.
  - intros [-> | ->]; done.
  - intros [-> | ->]; done.
Qed.

Lemma memory_usage_counts_data_twice_witness :
  MemorySummary.usedFlash
    (@MemorySummary.calculateMemoryUsage exactFloat
       [raw ".text" 1000; raw ".data" 50; raw ".bss" 7000] (Some 65536) None) +
  MemorySummary.usedRAM
    (@MemorySummary.calculateMemoryUsage exactFloat
       [raw ".text" 1000; raw ".data" 50; raw ".bss" 7000] (Some 65536) None) =
    exactSum sec_size
      (filter (λ s, countedFlash s ∨ countedRam s)
         [raw ".text" 1000; raw ".data" 50; raw ".bss" 7000]) +
    exactSum sec_size (filter dataNamed [raw ".text" 1000; raw ".data" 50; raw ".bss" 7000]).
Proof.
  apply (proj1 (@memory_usage_counts_data_twice exactFloat
                  [raw ".text" 1000; raw ".data" 50; raw ".bss" 7000] (Some 65536) None)).
  - repeat constructor; by vm_compute.
  - by vm_compute.
Defined.

(** ** Section colours *)

Lemma toInt32_spec z :
  (∃ k, Colors.toInt32 z = z + k * 2 ^ 32) ∧ - 2 ^ 31 ≤ Colors.toInt32 z < 2 ^ 31.
Proof.
  unfold Colors.toInt32. cbv zeta.
  pose proof (Z.div_mod z (2 ^ 32) ltac:(lia)) as Hdm.
  pose proof (Z.mod_pos_bound z (2 ^ 32) ltac:(lia)) as Hb.
  case_decide; split; try lia.
  - exists (- (z / 2 ^ 32)). lia.
  - exists (- (z / 2 ^ 32) - 1). lia.
Qed.

Lemma toInt32_congr a b k : a = b + k * 2 ^ 32 → Colors.toInt32 a = Colors.toInt32 b.
Proof. intros ->. unfold Colors.toInt32. by rewrite Z_mod_plus_full. Qed.

Lemma toInt32_small z : - 2 ^ 31 ≤ z < 2 ^ 31 → Colors.toInt32 z = z.
Proof.
  intros Hz. destruct (toInt32_spec z) as [[k Hk] Hb].
  assert (k = 0) by lia. lia.
Qed.

Lemma hashStep_31 h acc c :
  h = Colors.toInt32 acc →
  Colors.hashStep h c = Colors.toInt32 (31 * acc + Z.of_nat (nat_of_ascii c)).
Proof.
  intros ->. unfold Colors.hashStep. cbv zeta. rewrite Z.land_diag, Z.shiftl_mul_pow2 by lia.
  destruct (toInt32_spec acc) as [[k1 Hk1] Hb1].
  rewrite (toInt32_small (Colors.toInt32 acc)) by done.
  destruct (toInt32_spec (Colors.toInt32 acc * 2 ^ 5)) as [[k2 Hk2] _].
  destruct (toInt32_spec (Colors.toInt32 (Colors.toInt32 acc * 2 ^ 5) - Colors.toInt32 acc
                          + Z.of_nat (nat_of_ascii c))) as [_ Hb3].
  rewrite (toInt32_small (Colors.toInt32 _)) by done.
  apply (toInt32_congr _ _ (31 * k1 + k2)). lia.
Qed.

Lemma hashLoop_poly31 str : ∀ h acc,
  h = Colors.toInt32 acc → Colors.hashLoop h str = Colors.toInt32 (poly31 acc str).
Proof.
  induction str as [|c r IH]; intros h acc Hh; simpl; [done|].
  apply IH. by apply hashStep_31.
Qed.

(** X22: [hashString] is the polynomial hash in base 31: the code units of
    the string read as digits in base 31, reduced to a signed 32-bit integer,
    then taken in absolute value; so the result lies between 0 and [2^31]. *)
Theorem hash_is_base_31 (str : string) :
  Colors.hashString str = Z.abs (Colors.toInt32 (poly31 0 str)) ∧
  0 ≤ Colors.hashString str ≤ 2 ^ 31.
Proof.
  unfold Colors.hashString.
  rewrite (hashLoop_poly31 str 0 0) by done.
  split; [done|]. destruct (toInt32_spec (poly31 0 str)) as [_ ?]. lia.
Qed.

Lemma pick_Some (palette : list string) (hash : Z) :
  palette ≠ [] → 0 ≤ hash → ∃ colour, Colors.pick palette hash = Some colour ∧ colour ∈ palette.
Proof.
  intros Hne Hh. unfold Colors.pick.
  assert (0 < Z.of_nat (length palette)) as Hlen by (destruct palette; [done|simpl; lia]).
  pose proof (Z.mod_pos_bound hash _ Hlen) as Hb.
  destruct (palette !! Z.to_nat (hash mod Z.of_nat (length palette))) as [colour|] eqn:Hc.
  - exists colour. split; [done|]. by eapply list_elem_of_lookup_2.
  - apply lookup_ge_None in Hc. lia.
Qed.

Lemma hashString_nonneg str : 0 ≤ Colors.hashString str.
Proof. unfold Colors.hashString. lia. Qed.

Lemma base_colours_own k palette :
  OMap.get k Colors.SECTION_BASE_COLORS = Some palette →
  palette ≠ [] ∧ k ∉ Colors.objectPrototypeKeys.
Proof.
  intros Hk%get_Some_elem.
  assert (Forall (λ kv : string * list string,
                    kv.2 ≠ [] ∧ kv.1 ∉ Colors.objectPrototypeKeys)
            Colors.SECTION_BASE_COLORS) as Hall.
  { compute_done. }
  rewrite Forall_forall in Hall. apply (Hall _ Hk).
Qed.

Lemma frontend_parent_dotted name :
  Js.startsWith "." name = true → Js.startsWith "." (Frontend.parentName name) = true.
Proof.
  destruct name as [|c r]; [done|]. rewrite startsWith_cons.
  destruct (decide ("."%char = c)) as [<-|]; [|done]. intros _.
  unfold Frontend.parentName. cbv zeta. case_decide; [|done].
  simpl Js.split. destruct (Js.split "." r) as [|h t] eqn:Hr;
    [by destruct (split_nonempty "." r)|].
  reflexivity.
Qed.

(** X23: [getSectionColor] fails to give a colour (gives [undefined]) exactly
    for the names whose parent section is a property every object inherits,
    such as [constructor] or [toString]; a name that starts with a dot always
    gets one. A colour it gives comes from the palette of the parent section
    when the table has one, and from the fallback colours otherwise. *)
Theorem section_colour_from_palette (sectionName : string) :
  (Colors.getSectionColor sectionName = None ↔
   Frontend.parentName sectionName ∈ Colors.objectPrototypeKeys) ∧
  (Js.startsWith "." sectionName = true →
   is_Some (Colors.getSectionColor sectionName)) ∧
  (∀ colour, Colors.getSectionColor sectionName = Some colour →
     match OMap.get (Frontend.parentName sectionName) Colors.SECTION_BASE_COLORS with
     | Some palette => colour ∈ palette
     | None => colour ∈ Colors.FALLBACK_COLORS
     end).
Proof.
  assert (Colors.getSectionColor sectionName = None ↔
          Frontend.parentName sectionName ∈ Colors.objectPrototypeKeys) as Hnone.
  { unfold Colors.getSectionColor. cbv zeta.
    destruct (OMap.get _ Colors.SECTION_BASE_COLORS) as [palette|] eqn:Hown.
    - destruct (base_colours_own _ _ Hown) as [Hne Hk].
      destruct (pick_Some palette _ Hne (hashString_nonneg sectionName)) as (c & -> & _).
      split; [done|]. by intros ?.
    - case_decide; [done|].
      destruct (pick_Some Colors.FALLBACK_COLORS _ ltac:(done)
                  (hashString_nonneg sectionName)) as (c & -> & _).
      split; [done|]. by intros ?. }
  split_and!; [done| |].
  - intros Hdot%frontend_parent_dotted.
    destruct (Colors.getSectionColor sectionName); [by eauto|].
    pose proof (proj1 Hnone eq_refl) as Hc.
    assert (Forall (λ k, Js.startsWith "." k = false) Colors.objectPrototypeKeys) as Hall
      by (by repeat constructor).
    rewrite Forall_forall in Hall. apply Hall in Hc. congruence.
  - intros colour. unfold Colors.getSectionColor. cbv zeta.
    destruct (OMap.get _ Colors.SECTION_BASE_COLORS) as [palette|] eqn:Hown.
    + destruct (base_colours_own _ _ Hown) as [Hne _].
      destruct (pick_Some palette _ Hne (hashString_nonneg sectionName)) as (c & -> & Hc).
      by intros [= <-].
    + case_decide; [done|].
      destruct (pick_Some Colors.FALLBACK_COLORS _ ltac:(done)
                  (hashString_nonneg sectionName)) as (c & -> & Hc).
      by intros [= <-].
Qed.
